(** * minify.ts: the watcher / minifier pipeline

    A shallow embedding of [minify.ts] (path resolution, freshness check,
    CSS and RTL text stages, the file processor and the watcher's event
    handler) together with the properties stated for it.

    Conventions.
    - A JavaScript string is a [list ascii]: a sequence of code units,
      restricted to U+0000..U+00FF.  String literals are read through the
      coercion [text_of_string].
    - The path functions are those of Deno's [std@0.204.0/path] for POSIX
      hosts ([parse], [join], [normalize], [extname], [dirname]).
    - The file system, the in-flight set, the watcher registry, the console
      and the clock are fields of an explicit [World] that every effectful
      function threads; a thrown exception is the [Throw] result.
    - The external minifiers (lightningcss, terser) and the success of a
      write are parameters of the development.
    - A call of an asynchronous function is run from its entry to its
      return, with no other call taking turns with it.  The part on the
      watchers side by side is the exception: there the calls of
      [processFile] take turns at their awaits. *)

From Stdlib Require Import Ascii List ZArith Lia Bool.
From stdpp Require Import gmap strings list fin_maps.
Import ListNotations.

Definition text_of_string : string -> list ascii :=
  Stdlib.Strings.String.list_ascii_of_string.

Coercion text_of_string : string >-> list.

Local Open Scope list_scope.

(** ** JavaScript string primitives *)

Module Text.

(** [s.startsWith(p)] *)
Fixpoint startsWith (p s : list ascii) : bool :=
  match p, s with
  | [], _ => true
  | a :: p', b :: s' => Ascii.eqb a b && startsWith p' s'
  | _ :: _, [] => false
  end.

(** [s.endsWith(p)] *)
Definition endsWith (p s : list ascii) : bool :=
  startsWith (rev p) (rev s).

(** [s.indexOf(p)]: position of the first occurrence, [None] for -1. *)
Fixpoint indexOf (p s : list ascii) : option nat :=
  if startsWith p s then Some 0
  else match s with
       | [] => None
       | _ :: s' => option_map S (indexOf p s')
       end.

(** [s.indexOf(p, from)] *)
Definition indexOfFrom (p s : list ascii) (from : nat) : option nat :=
  option_map (fun i => from + i) (indexOf p (skipn from s)).

(** [s.includes(p)] *)
Definition includes (p s : list ascii) : bool :=
  match indexOf p s with Some _ => true | None => false end.

(** White space as [String.prototype.trim] and the regex class [\s] see
    it, among the code units below 256. *)
Definition isSpace (c : ascii) : bool :=
  match c with
  | "009" | "010" | "011" | "012" | "013" | " " | "160" => true
  | _ => false
  end%char.

Fixpoint trimStart (s : list ascii) : list ascii :=
  match s with
  | c :: s' => if isSpace c then trimStart s' else s
  | [] => []
  end.

(** [s.trim()] *)
Definition trim (s : list ascii) : list ascii :=
  rev (trimStart (rev (trimStart s))).

(** [s.split('\n')[0]] *)
Fixpoint firstLine (s : list ascii) : list ascii :=
  match s with
  | [] => []
  | c :: s' => if Ascii.eqb c "010" then [] else c :: firstLine s'
  end.

Definition lowerChar (c : ascii) : ascii :=
  let n := nat_of_ascii c in
  if (65 <=? n) && (n <=? 90) then ascii_of_nat (n + 32) else c.

(** [s.toLowerCase()]: the letters A to Z change; no other code unit of
    the model becomes a letter of [.css] or [.js]. *)
Definition toLowerCase (s : list ascii) : list ascii := map lowerChar s.

Definition eqb (a b : list ascii) : bool :=
  bool_decide (a = b).

End Text.

(** ** The regular expressions of the pipeline

    A pattern is run as a function from the text at the current position
    to the text left after the match.  Every quantifier of the patterns
    used here is followed by a code unit it cannot itself match, so the
    greedy run never has to give anything back. *)

Module Regex.

Definition pattern := list ascii -> option (list ascii).

(** A literal. *)
Definition lit (p : list ascii) : pattern :=
  fun s => if Text.startsWith p s then Some (skipn (length p) s) else None.

(** [\s*] *)
Definition ws0 : pattern := fun s => Some (Text.trimStart s).

(** [\s+] *)
Definition ws1 : pattern :=
  fun s => match s with
           | c :: s' => if Text.isSpace c then Some (Text.trimStart s')
                        else None
           | [] => None
           end.

(** [(?:(?:\.\.\/)+)?] *)
Fixpoint ups (s : list ascii) : list ascii :=
  match s with
  | a :: b :: c :: s' =>
      if Ascii.eqb a "." && Ascii.eqb b "." && Ascii.eqb c "/"
      then ups s' else s
  | _ => s
  end.

Definition andThen (p q : pattern) : pattern :=
  fun s => match p s with Some r => q r | None => None end.

Infix ">>" := andThen (at level 61, left associativity).

Definition isQuote (c : ascii) : bool :=
  Ascii.eqb c "'" || Ascii.eqb c "034".

(** The import pattern of [minifyCss]: [@import], [\s+], a captured
    quote (single or double), [(?:(?:\.\.\/)+)?], the literal
    [assets\/css\/definitions\.css], the captured quote again, [\s*],
    a semicolon. *)
Definition importRegex : pattern :=
  lit "@import" >> ws1 >>
  (fun s => match s with
            | q :: s' =>
                if isQuote q
                then (lit "assets/css/definitions.css" >> lit [q] >>
                      ws0 >> lit ";") (ups s')
                else None
            | [] => None
            end).

(** [/text-align:\s*left/] and [/text-align:\s*right/] *)
Definition textAlign (value : list ascii) : pattern :=
  lit "text-align:" >> ws0 >> lit value.

(** [s.replace(/.../g, rep)]: the matches are taken from left to right,
    each search resuming where the previous match ended.  The fuel is
    the length of the text.  An empty match is not taken: none of the
    patterns above has one. *)
Fixpoint replaceFuel (fuel : nat) (p : pattern) (rep s : list ascii)
  : list ascii :=
  match fuel with
  | O => s
  | S fuel' =>
      match s with
      | [] => []
      | c :: s' =>
          match p s with
          | Some r =>
              if length r <? length s
              then rep ++ replaceFuel fuel' p rep r
              else c :: replaceFuel fuel' p rep s'
          | None => c :: replaceFuel fuel' p rep s'
          end
      end
  end.

Definition replaceAll (p : pattern) (rep s : list ascii) : list ascii :=
  replaceFuel (length s) p rep s.

(** [/^\s*([@.]|\*|html|body|:root)/m]: the alternatives. *)
Definition ruleStart (s : list ascii) : option (list ascii) :=
  match s with
  | c :: _ =>
      if Ascii.eqb c "@" || Ascii.eqb c "." || Ascii.eqb c "*"
      then Some [c]
      else if Text.startsWith "html" s then Some (text_of_string "html")
      else if Text.startsWith "body" s then Some (text_of_string "body")
      else if Text.startsWith ":root" s then Some (text_of_string ":root")
      else None
  | [] => None
  end.

(** The match at a line start: the white space run, then an
    alternative. *)
Definition markerAt (s : list ascii) : option (list ascii) :=
  match ruleStart (Text.trimStart s) with
  | Some a => Some (firstn (length s - length (Text.trimStart s)) s ++ a)
  | None => None
  end.

Definition isLineTerminator (c : ascii) : bool :=
  Ascii.eqb c "010" || Ascii.eqb c "013".

(** [s.match(/^\s*([@.]|\*|html|body|:root)/m)]: element 0 of the first
    match; with the [m] flag [^] holds at index 0 and after every line
    terminator. *)
Fixpoint firstRuleFrom (atLineStart : bool) (s : list ascii)
  : option (list ascii) :=
  match (if atLineStart then markerAt s else None) with
  | Some m => Some m
  | None =>
      match s with
      | [] => None
      | c :: s' => firstRuleFrom (isLineTerminator c) s'
      end
  end.

Definition firstRuleMatch (s : list ascii) : option (list ascii) :=
  firstRuleFrom true s.

End Regex.

(** ** Deno [std/path] (POSIX) *)

Module Path.

Definition isSep (c : ascii) : bool := Ascii.eqb c "/".
Definition isDot (c : ascii) : bool := Ascii.eqb c ".".

Record ParsedPath := mkParsed {
  root : list ascii;
  dir : list ascii;
  base : list ascii;
  ext : list ascii;
  name : list ascii
}.

Fixpoint dropWhile (f : ascii -> bool) (s : list ascii) : list ascii :=
  match s with
  | c :: s' => if f c then dropWhile f s' else s
  | [] => []
  end.

Fixpoint takeWhile (f : ascii -> bool) (s : list ascii) : list ascii :=
  match s with
  | c :: s' => if f c then c :: takeWhile f s' else []
  | [] => []
  end.

(** [stripTrailingSeparators]: trailing separators go, the first code
    unit always stays. *)
Definition stripTrailingSeparators (s : list ascii) : list ascii :=
  match s with
  | [] => []
  | c :: s' => c :: rev (dropWhile isSep (rev s'))
  end.

(** The backwards scan shared by [parse], [extname] and [dirname]: over
    [body] (the code units the loop visits) skip the trailing separators,
    then take the code units of the last component.  Returns the last
    component and, when a separator stopped the scan, what lies before
    that separator. *)
Definition lastComponent (body : list ascii)
  : list ascii * option (list ascii) :=
  let r := dropWhile isSep (rev body) in
  let b := rev (takeWhile (fun c => negb (isSep c)) r) in
  match dropWhile (fun c => negb (isSep c)) r with
  | [] => (b, None)
  | _ :: before => (b, Some (rev before))
  end.

(** Where the extension starts in a component: the component is cut at
    its last dot, unless there is no dot, the dot is the first code unit
    ([preDotState === 0]), or ([guard]) the component is exactly [..]. *)
Definition splitExt (guard : bool) (b : list ascii)
  : list ascii * list ascii :=
  let r := rev b in
  let e := rev (takeWhile (fun c => negb (isDot c)) r) in
  match dropWhile (fun c => negb (isDot c)) r with
  | [] => (b, [])
  | d :: rn =>
      let n := rev rn in
      match n with
      | [] => (b, [])
      | c :: n' =>
          if guard && isDot c && (length n' =? 0) && (length e =? 0)
          then (b, [])
          else (n, d :: e)
      end
  end.

(** [parse(path)].  For an absolute path the scan stops before index 0;
    when it consumed every visited code unit ([startPart === 0]) the
    test for [..] compares against [startPart + 1] and so never holds. *)
Definition parse (path : list ascii) : ParsedPath :=
  match path with
  | [] => mkParsed [] [] [] [] []
  | c :: rest =>
      let isAbsolute := isSep c in
      let body := if isAbsolute then rest else path in
      let '(b, before) := lastComponent body in
      let guard :=
        match before with Some _ => true | None => negb isAbsolute end in
      let '(n, e) := splitExt guard b in
      let d :=
        match before with
        | Some pre =>
            stripTrailingSeparators (if isAbsolute then c :: pre else pre)
        | None => if isAbsolute then [c] else []
        end in
      mkParsed (if isAbsolute then [c] else [])
               d
               (match b with [] => "/" | _ => b end)
               e n
  end.

(** [extname(path)]: the scan visits every index. *)
Definition extname (path : list ascii) : list ascii :=
  snd (splitExt true (fst (lastComponent path))).

(** [dirname(path)]: the scan stops before index 0. *)
Definition dirname (path : list ascii) : list ascii :=
  match path with
  | [] => "."
  | c :: rest =>
      match lastComponent rest with
      | (_ :: _, Some pre) => stripTrailingSeparators (c :: pre)
      | _ => if isSep c then "/" else "."
      end
  end.

(** Splitting at the separators: [a//b] has the components [a], [] and
    [b]. *)
Fixpoint segments (s : list ascii) : list (list ascii) :=
  match s with
  | [] => [[]]
  | c :: s' =>
      if isSep c then [] :: segments s'
      else match segments s' with
           | seg :: segs => (c :: seg) :: segs
           | [] => [[c]]
           end
  end.

Definition isDotDot (seg : list ascii) : bool := Text.eqb seg "..".

(** One step of [normalizeString] on a complete component; the result
    so far is kept as a stack, last component first. *)
Definition pushSegment (allowAboveRoot : bool)
  (stack : list (list ascii)) (seg : list ascii) : list (list ascii) :=
  if Text.eqb seg [] || Text.eqb seg "." then stack
  else if isDotDot seg then
    match stack with
    | top :: below =>
        if isDotDot top
        then (if allowAboveRoot then seg :: stack else stack)
        else below
    | [] => if allowAboveRoot then [seg] else []
    end
  else seg :: stack.

Fixpoint joinSegments (segs : list (list ascii)) : list ascii :=
  match segs with
  | [] => []
  | [seg] => seg
  | seg :: rest => seg ++ "/" ++ joinSegments rest
  end.

(** [normalizeString(path, allowAboveRoot, "/", isPosixPathSeparator)] *)
Definition normalizeString (path : list ascii) (allowAboveRoot : bool)
  : list ascii :=
  joinSegments
    (rev (fold_left (pushSegment allowAboveRoot) (segments path) [])).

(** [normalize(path)] *)
Definition normalize (path : list ascii) : list ascii :=
  match path with
  | [] => "."
  | c :: _ =>
      let isAbsolute := isSep c in
      let trailingSeparator :=
        match rev path with c' :: _ => isSep c' | [] => false end in
      let p := normalizeString path (negb isAbsolute) in
      let p := match p with
               | [] => if isAbsolute then [] else "."
               | _ => p
               end in
      let p := match p with
               | [] => []
               | _ => if trailingSeparator then p ++ "/" else p
               end in
      if isAbsolute then "/" ++ p else p
  end.

(** [join(a, b)] for two arguments. *)
Definition join (a b : list ascii) : list ascii :=
  match a, b with
  | [], [] => "."
  | [], _ => normalize b
  | _, [] => normalize a
  | _, _ => normalize (a ++ "/" ++ b)
  end.

End Path.

(** ** Configuration *)

Module RTL_CONFIG.
Definition enabled : bool := true.
Definition generateSeparateFiles : bool := true.
Definition rtlSuffix : list ascii := ".rtl".
End RTL_CONFIG.

Definition CSS_EXT : list ascii := ".css".
Definition JS_EXT : list ascii := ".js".

(** ** Path Resolver *)

Definition getDestPath (filePath : list ascii) (isRtl : bool) : list ascii :=
  let p := Path.parse filePath in
  let rtlSuffix := if isRtl then RTL_CONFIG.rtlSuffix else [] in
  Path.join (Path.dir p) (Path.name p ++ rtlSuffix ++ ".min" ++ Path.ext p).

(** ** The world: files, shared sets, console, clock *)

Definition LF : ascii := "010"%char.
Definition DQ : ascii := "034"%char.

(** A thrown value: what [String(error)] gives and [error.data?.type]. *)
Record Exn := mkExn {
  exnText : list ascii;
  exnDataType : option (list ascii)
}.

(** A file: its text and what [Deno.stat] reports as [mtime] (which may
    be [null]). *)
Record File := mkFile {
  content : list ascii;
  mtime : option Z
}.

(** The console lines of the pipeline, without their time stamps and
    size figures. *)
Inductive LogEntry :=
| ErrDefinitionsUnreadable (definitionsPath : list ascii)
| WarnDuplicatesImprecise (filePath : list ascii)
| WarnNoStartMarker (filePath : list ascii)
| ErrCssMinification (filePath : list ascii)
| ErrImportRuleHint
| ErrJsMinification
| ErrStat (sourcePath : list ascii)
| ErrRtlGeneration (filePath : list ascii)
| InfoRtlGenerated (filePath rtlOutputPath : list ascii)
| InfoRtlMap (rtlMapFilePath : list ascii)
| ErrRtlFailed (filePath : list ascii)
| InfoLtrGenerated (filePath ltrOutputPath : list ascii)
| InfoLtrMap (ltrMapFilePath : list ascii)
| InfoJsMap (mapFilePath : list ascii)
| InfoJsGenerated (filePath outputPath : list ascii)
| ErrProcessing (filePath : list ascii).

(** The lines written with [console.warn]. *)
Definition isWarning (e : LogEntry) : bool :=
  match e with
  | WarnDuplicatesImprecise _ | WarnNoStartMarker _ => true
  | _ => false
  end.

Record World := mkWorld {
  files : gmap (list ascii) File;
  processingFiles : gset (list ascii);
  watchedDirectories : gmap (list ascii) (gset (list ascii));
  (** pending [setTimeout] callbacks of the watcher: registry key, path *)
  timers : list (list ascii * list ascii);
  (** oldest line first *)
  console : list LogEntry;
  clock : Z
}.

Inductive Result (A : Type) :=
| Ok (a : A)
| Throw (e : Exn).

Arguments Ok {A} a.
Arguments Throw {A} e.

(** An effectful computation: it runs in a world and leaves a world. *)
Definition M (A : Type) : Type := World -> Result A * World.

Definition ret {A} (a : A) : M A := fun w => (Ok a, w).

Definition throw {A} (e : Exn) : M A := fun w => (Throw e, w).

Definition bind {A B} (m : M A) (k : A -> M B) : M B :=
  fun w => match m w with
           | (Ok a, w') => k a w'
           | (Throw e, w') => (Throw e, w')
           end.

(** [try { m } catch (e) { h e }] *)
Definition tryCatch {A} (m : M A) (h : Exn -> M A) : M A :=
  fun w => match m w with
           | (Ok a, w') => (Ok a, w')
           | (Throw e, w') => h e w'
           end.

Definition liftResult {A} (r : Result A) : M A := fun w => (r, w).

Notation "x <- m ;; k" := (bind m (fun x => k))
  (at level 100, m at next level, right associativity).
Notation "m ;;; k" := (bind m (fun _ => k))
  (at level 100, right associativity).

Definition when (b : bool) (m : M unit) : M unit :=
  if b then m else ret tt.

Definition withConsole (f : list LogEntry -> list LogEntry) (w : World)
  : World :=
  mkWorld (files w) (processingFiles w) (watchedDirectories w) (timers w)
          (f (console w)) (clock w).

Definition withProcessing (f : gset (list ascii) -> gset (list ascii))
  (w : World) : World :=
  mkWorld (files w) (f (processingFiles w)) (watchedDirectories w)
          (timers w) (console w) (clock w).

(** [console.log], [console.warn], [console.error] *)
Definition log (e : LogEntry) : M unit :=
  fun w => (Ok tt, withConsole (fun c => c ++ [e]) w).

Definition notFound (path : list ascii) : Exn :=
  mkExn ("NotFound: No such file or directory (os error 2): " ++ path) None.

(** [Deno.stat(path)], reduced to the [mtime] it reports. *)
Definition stat (path : list ascii) : M (option Z) :=
  fun w => match files w !! path with
           | Some f => (Ok (mtime f), w)
           | None => (Throw (notFound path), w)
           end.

(** [Deno.readTextFile(path)] *)
Definition readTextFile (path : list ascii) : M (list ascii) :=
  fun w => match files w !! path with
           | Some f => (Ok (content f), w)
           | None => (Throw (notFound path), w)
           end.

(** What the pipeline calls and does not define. *)
Record TransformResult := mkResult {
  code : list ascii;
  map : option (list ascii)
}.

Record Services := mkServices {
  (** [Deno.cwd()] *)
  cwd : list ascii;
  (** lightningcss [transform] with the options of [minifyCss], by file
      name and code; the decoded code and the decoded map *)
  transform : list ascii -> list ascii -> Result TransformResult;
  (** terser [minify] with the options of [minifyJavaScript], by input
      and source map file name; [result.code] and [result.map] *)
  terser : list ascii -> list ascii ->
           Result (option (list ascii) * option (list ascii));
  (** the exception of a [Deno.writeTextFile] that fails *)
  writeFails : World -> list ascii -> option Exn;
  (** the exception of an [ensureDirSync] that fails *)
  ensureDirFails : World -> list ascii -> option Exn
}.

(** [Deno.writeTextFile(path, data)]: the file gets the clock's reading
    as its [mtime] and the clock moves on. *)
Definition writeTextFile (sv : Services) (path data : list ascii) : M unit :=
  fun w => match writeFails sv w path with
           | Some e => (Throw e, w)
           | None =>
               (Ok tt,
                mkWorld (<[path := mkFile data (Some (clock w))]> (files w))
                        (processingFiles w) (watchedDirectories w)
                        (timers w) (console w) (clock w + 1)%Z)
           end.

(** [ensureDirSync(path)] *)
Definition ensureDirSync (sv : Services) (path : list ascii) : M unit :=
  fun w => match ensureDirFails sv w path with
           | Some e => (Throw e, w)
           | None => (Ok tt, w)
           end.

(** Truthiness of a string or [undefined]. *)
Definition truthy (o : option (list ascii)) : bool :=
  match o with
  | Some (_ :: _) => true
  | _ => false
  end.

(** ** CSS Transform Stage *)

(** Lines 104-125 of [minifyCss]: removing the prepended definitions
    from the minified code. *)
Definition removePrependedDefinitions
  (filePath definitionsContent cleanedInput finalCode : list ascii)
  : M (list ascii) :=
  if truthy (Some definitionsContent)
     && Text.startsWith (Text.trim definitionsContent) finalCode
  then
    let definitionsMinifiedApproximation :=
      Text.firstLine definitionsContent in
    match Text.indexOf definitionsMinifiedApproximation finalCode with
    | Some defEndIndex =>
        match Regex.firstRuleMatch cleanedInput with
        | Some originalFirstRuleStart =>
            match Text.indexOfFrom originalFirstRuleStart finalCode
                                   defEndIndex with
            | Some actualStartInMinified =>
                ret (skipn actualStartInMinified finalCode)
            | None =>
                log (WarnDuplicatesImprecise filePath) ;;; ret finalCode
            end
        | None => log (WarnNoStartMarker filePath) ;;; ret finalCode
        end
    | None => ret finalCode
    end
  else ret finalCode.

Definition definitionsPath (sv : Services) : list ascii :=
  Path.join (cwd sv) "assets/css/definitions.css".

(** Lines 65-68 of [minifyCss]. *)
Definition cleanedInput (input : list ascii) : list ascii :=
  Regex.replaceAll Regex.importRegex [] input.

Definition minifyCss (sv : Services) (input filePath : list ascii)
  (isRtl : bool) : M TransformResult :=
  tryCatch
    (definitionsContent <-
       tryCatch
         (c <- readTextFile (definitionsPath sv) ;;
          ret (if Text.endsWith [LF] c then c else c ++ [LF]))
         (fun readError =>
            log (ErrDefinitionsUnreadable (definitionsPath sv)) ;;; ret []) ;;
     let fullInput := definitionsContent ++ cleanedInput input in
     r <- liftResult (transform sv filePath fullInput) ;;
     finalCode <- removePrependedDefinitions filePath definitionsContent
                    (cleanedInput input) (code r) ;;
     ret (mkResult finalCode (map r)))
    (fun error =>
       log (ErrCssMinification filePath) ;;;
       when (bool_decide (exnDataType error
                          = Some (text_of_string "UnexpectedImportRule")))
            (log ErrImportRuleHint) ;;;
       throw error).

(** ** JS Transform Stage *)

Definition minifyJavaScript (sv : Services) (input filePath : list ascii)
  : M TransformResult :=
  tryCatch
    (result <- liftResult
                 (terser sv input (Path.name (Path.parse filePath))) ;;
     ret (mkResult (if truthy (fst result) then default input (fst result)
                    else input)
                   (snd result)))
    (fun error => log ErrJsMinification ;;; throw error).

(** ** Freshness Checker *)

(** [stats.mtime || new Date(0)], in milliseconds. *)
Definition timeOf (m : option Z) : Z := default 0%Z m.

Definition isSourceNewer (sourcePath : list ascii) : M bool :=
  tryCatch
    (sourceStats <- stat sourcePath ;;
     let extension := Text.toLowerCase (Path.extname sourcePath) in
     let mainMinPath := getDestPath sourcePath false in
     fun w =>
       match stat mainMinPath w with
       | (Throw _, w1) => (Ok true, w1)
       | (Ok mainMinStats, w1) =>
           let mainMinTime := timeOf mainMinStats in
           if Text.eqb extension CSS_EXT && RTL_CONFIG.enabled
              && RTL_CONFIG.generateSeparateFiles
           then
             let rtlMinPath := getDestPath sourcePath true in
             match stat rtlMinPath w1 with
             | (Ok rtlMinStats, w2) =>
                 let rtlMinTime := timeOf rtlMinStats in
                 let sourceTime := timeOf sourceStats in
                 (Ok ((mainMinTime <? sourceTime)%Z
                      || (rtlMinTime <? sourceTime)%Z), w2)
             | (Throw _, w2) => (Ok true, w2)
             end
           else
             let sourceTime := timeOf sourceStats in
             (Ok (mainMinTime <? sourceTime)%Z, w1)
       end)
    (fun error => log (ErrStat sourcePath) ;;; ret true).

(** ** RTL Transform Stage *)

(** The two shapes of pattern in the chain of [generateRtlCss]. *)
Inductive RtlPattern :=
| Literal (q : list ascii)
| TextAlign (value : list ascii).

Definition compile (p : RtlPattern) : Regex.pattern :=
  match p with
  | Literal q => Regex.lit q
  | TextAlign value => Regex.textAlign value
  end.

(** Lines 236-246 of [generateRtlCss]: the chain of replacements, in
    order. *)
Definition rtlReplacements : list (RtlPattern * list ascii) :=
  [ (Literal "margin-left:", text_of_string "margin-inline-start:");
    (Literal "margin-right:", text_of_string "margin-inline-end:");
    (Literal "padding-left:", text_of_string "padding-inline-start:");
    (Literal "padding-right:", text_of_string "padding-inline-end:");
    (Literal "border-left:", text_of_string "border-inline-start:");
    (Literal "border-right:", text_of_string "border-inline-end:");
    (Literal "left:", text_of_string "inset-inline-start:");
    (Literal "right:", text_of_string "inset-inline-end:");
    (TextAlign "left", text_of_string "text-align: start");
    (TextAlign "right", text_of_string "text-align: end") ].

Definition applyReplacement (s : list ascii)
  (r : RtlPattern * list ascii) : list ascii :=
  Regex.replaceAll (compile (fst r)) (snd r) s.

Definition rtlSubstitute (input : list ascii) : list ascii :=
  fold_left applyReplacement rtlReplacements input.

Definition rtlRules : list ascii :=
  [LF] ++ "/* RTL-specific styles */" ++ [LF]
  ++ "[dir=" ++ [DQ] ++ "rtl" ++ [DQ] ++ "] {" ++ [LF]
  ++ "    direction: rtl;" ++ [LF]
  ++ "}" ++ [LF]
  ++ [LF]
  ++ "[dir=" ++ [DQ] ++ "rtl" ++ [DQ] ++ "] .transform-x {" ++ [LF]
  ++ "    transform: scaleX(-1);" ++ [LF]
  ++ "}" ++ [LF]
  ++ [LF].

Definition generateRtlCss (sv : Services) (input filePath : list ascii)
  : M TransformResult :=
  tryCatch
    (let rtlInput := rtlSubstitute input in
     let rtlInput := rtlRules ++ rtlInput in
     minifyCss sv rtlInput filePath true)
    (fun error => log (ErrRtlGeneration filePath) ;;; throw error).

(** ** File Processor *)

(** What a call settles to: a boolean or [undefined]. *)
Inductive JsValue :=
| VBool (b : bool)
| VUndefined.

(** What [if (v)] tests. *)
Definition jsTruthy (v : JsValue) : bool :=
  match v with
  | VBool b => b
  | VUndefined => false
  end.

(** Lines 317-327 of [processFile]: the LTR variant and its files. *)
Definition writeLtr (sv : Services) (filePath input : list ascii)
  : M TransformResult :=
  ltrResult <- minifyCss sv input filePath false ;;
  let ltrOutputPath := getDestPath filePath false in
  let ltrMapFilePath := ltrOutputPath ++ ".map" in
  let ltrSourceMapComment :=
    [LF] ++ "/*# sourceMappingURL="
    ++ Path.base (Path.parse ltrMapFilePath) ++ " */" in
  writeTextFile sv ltrOutputPath (code ltrResult ++ ltrSourceMapComment) ;;;
  when (truthy (map ltrResult))
       (writeTextFile sv ltrMapFilePath (default [] (map ltrResult))) ;;;
  ret ltrResult.

(** Lines 330-356 of [processFile]: the RTL variant, in a try of its
    own. *)
Definition writeRtl (sv : Services) (filePath input : list ascii) : M unit :=
  when (RTL_CONFIG.enabled && RTL_CONFIG.generateSeparateFiles)
    (tryCatch
       (rtlResult <- generateRtlCss sv input filePath ;;
        let rtlOutputPath := getDestPath filePath true in
        let rtlMapFilePath := rtlOutputPath ++ ".map" in
        let rtlSourceMapComment :=
          [LF] ++ "/*# sourceMappingURL="
          ++ Path.base (Path.parse rtlMapFilePath) ++ " */" in
        writeTextFile sv rtlOutputPath
                      (code rtlResult ++ rtlSourceMapComment) ;;;
        when (truthy (map rtlResult))
             (writeTextFile sv rtlMapFilePath
                            (default [] (map rtlResult))) ;;;
        log (InfoRtlGenerated filePath rtlOutputPath) ;;;
        when (truthy (map rtlResult)) (log (InfoRtlMap rtlMapFilePath)))
       (fun rtlError => log (ErrRtlFailed filePath))).

(** Lines 316-368 of [processFile]: a CSS file. *)
Definition processCss (sv : Services) (filePath input : list ascii)
  : M unit :=
  ltrResult <- writeLtr sv filePath input ;;
  writeRtl sv filePath input ;;;
  log (InfoLtrGenerated filePath (getDestPath filePath false)) ;;;
  when (truthy (map ltrResult))
       (log (InfoLtrMap (getDestPath filePath false ++ ".map"))).

(** Lines 370-387 of [processFile]: a JavaScript file. *)
Definition processJs (sv : Services) (filePath input outputPath : list ascii)
  : M unit :=
  result <- minifyJavaScript sv input filePath ;;
  let mapFilePath := outputPath ++ ".map" in
  let sourceMapComment :=
    [LF] ++ "//# sourceMappingURL=" ++ Path.base (Path.parse mapFilePath) in
  writeTextFile sv outputPath (code result ++ sourceMapComment) ;;;
  when (truthy (map result))
       (writeTextFile sv mapFilePath (default [] (map result)) ;;;
        log (InfoJsMap mapFilePath) ;;;
        log (InfoJsGenerated filePath outputPath)).

(** Lines 298-391 of [processFile]: the body of the try.  The bare
    [return;] of line 303 settles the call to [undefined]. *)
Definition processBody (sv : Services) (filePath : list ascii) : M JsValue :=
  let extension := Text.toLowerCase (Path.extname filePath) in
  if negb (Text.eqb extension CSS_EXT) && negb (Text.eqb extension JS_EXT)
  then ret VUndefined
  else
    input <- readTextFile filePath ;;
    let outputPath := getDestPath filePath false in
    ensureDirSync sv (Path.dirname outputPath) ;;;
    (if Text.eqb extension CSS_EXT
     then processCss sv filePath input
     else processJs sv filePath input outputPath) ;;;
    ret (VBool true).

(** [try { m } finally { f }] *)
Definition tryFinally {A} (m : M A) (f : World -> World) : M A :=
  fun w => let '(r, w') := m w in (r, f w').

(** Lines 286-292 of [processFile]: the freshness guard. *)
Definition freshness (filePath : list ascii) (force : bool) : M bool :=
  if force then ret true else isSourceNewer filePath.

(** [processingFiles.add(filePath)] and [processingFiles.delete(filePath)] *)
Definition entered (filePath : list ascii) (w : World) : World :=
  withProcessing (fun s => {[filePath]} ∪ s) w.

Definition released (filePath : list ascii) (w : World) : World :=
  withProcessing (fun s => s ∖ {[filePath]}) w.

Definition processFile (sv : Services) (filePath : list ascii) (force : bool)
  : M JsValue :=
  fun w =>
    if bool_decide (filePath ∈ processingFiles w) then (Ok (VBool false), w)
    else if Text.includes ".min" (Path.name (Path.parse filePath))
    then (Ok (VBool false), w)
    else
      (sourceIsNewer <- freshness filePath force ;;
       if negb sourceIsNewer then ret (VBool false)
       else
         (fun w' => (Ok tt, entered filePath w')) ;;;
         tryFinally
           (tryCatch
              (processBody sv filePath)
              (fun error =>
                 when (negb (Text.includes "CSS minification"
                                           (exnText error))
                       && negb (Text.includes "javascript minification"
                                              (exnText error)))
                      (log (ErrProcessing filePath)) ;;;
                 ret (VBool false)))
           (released filePath)) w.

(** ** Directory Watcher *)

Definition WATCH_DIRECTORIES_css : list (list ascii) :=
  [text_of_string "./assets/css"; text_of_string "./blocks"].

Definition WATCH_DIRECTORIES_js : list (list ascii) :=
  [text_of_string "./assets/js"; text_of_string "./blocks"].

Inductive FsEventKind :=
| KindAny | KindAccess | KindCreate | KindModify | KindRemove | KindOther.

Record FsEvent := mkEvent {
  kind : FsEventKind;
  paths : list (list ascii)
}.

Definition withWatched
  (f : gmap (list ascii) (gset (list ascii))
       -> gmap (list ascii) (gset (list ascii)))
  (g : list (list ascii * list ascii) -> list (list ascii * list ascii))
  (w : World) : World :=
  mkWorld (files w) (processingFiles w) (f (watchedDirectories w))
          (g (timers w)) (console w) (clock w).

(** Lines 450-453 of [watchDirectory]: the startup sweep and its count. *)
Fixpoint startupSweep (sv : Services) (existingFiles : list (list ascii))
  (processedCount : nat) : M nat :=
  match existingFiles with
  | [] => ret processedCount
  | file :: rest =>
      wasProcessed <- processFile sv file false ;;
      startupSweep sv rest
        (if jsTruthy wasProcessed then processedCount + 1 else processedCount)
  end.

(** Lines 467-496 of [watchDirectory]: one path of one event.  The set
    found in the registry is shared with it: adding to it changes the
    entry of the registry, and the timer removes from that same entry. *)
Definition watchPath (sv : Services) (directory fileExtension path : list ascii)
  : M unit :=
  fun w =>
    if Text.endsWith fileExtension path then
      if Text.includes ".min" (Path.name (Path.parse path)) then (Ok tt, w)
      else
        let dirKey := directory ++ ":" ++ fileExtension in
        match watchedDirectories w !! dirKey with
        | Some watchedFiles =>
            if bool_decide (path ∈ watchedFiles) then (Ok tt, w)
            else
              (processFile sv path true ;;; ret tt)
                (withWatched (insert dirKey ({[path]} ∪ watchedFiles))
                             (fun t => t ++ [(dirKey, path)]) w)
        | None => (processFile sv path true ;;; ret tt) w
        end
    else (Ok tt, w).

Fixpoint forEach {A} (f : A -> M unit) (l : list A) : M unit :=
  match l with
  | [] => ret tt
  | x :: l' => f x ;;; forEach f l'
  end.

(** Lines 465-498 of [watchDirectory]: one file system event. *)
Definition watchEvent (sv : Services) (directory fileExtension : list ascii)
  (event : FsEvent) : M unit :=
  match kind event with
  | KindModify | KindCreate =>
      forEach (watchPath sv directory fileExtension) (paths event)
  | _ => ret tt
  end.

(** The callback of line 489, for the oldest pending timer. *)
Definition fireTimer (w : World) : World :=
  match timers w with
  | [] => w
  | (dirKey, path) :: rest =>
      withWatched (alter (fun s => s ∖ {[path]}) dirKey) (fun _ => rest) w
  end.

(** Lines 522-530 of [main]: the registrations of [startWatcher]; the
    watchers it starts run on their own. *)
Definition startWatcher (directories : list (list ascii))
  (extension : list ascii) (w : World) : World :=
  fold_left
    (fun w directory =>
       let dirKey := directory ++ ":" ++ extension in
       match watchedDirectories w !! dirKey with
       | None => withWatched (insert dirKey ∅) (fun t => t) w
       | Some _ => w
       end)
    directories w.

Definition main (w : World) : World :=
  startWatcher WATCH_DIRECTORIES_js JS_EXT
    (startWatcher WATCH_DIRECTORIES_css CSS_EXT w).

(** ** Directory scan *)

(** What [Deno.readDir] finds in a directory, as far as [scanDirectory]
    looks at it: a file, a directory with what [Deno.readDir] finds in
    it in turn, or an entry that is neither (a symbolic link).  The
    option of a directory is the exception its iteration ends with, if it
    does: with no entries before it when the directory cannot be read at
    all. *)
#[local] Unset Elimination Schemes.

Inductive DirEntry :=
| FileEntry (name : list ascii)
| DirectoryEntry (name : list ascii) (entries : list DirEntry)
                 (failure : option Exn)
| OtherEntry (name : list ascii).

#[local] Set Elimination Schemes.

(** The one line [scanDirectory] writes, with [console.error]. *)
Inductive ScanLine :=
| ErrScanning (directory : list ascii).

(** The files found and the lines written, in order. *)
Definition Scan : Type := list (list ascii) * list ScanLine.

(** Lines 409-429 of [scanDirectory], over the entries and the failure
    of the iteration; [scanEntry] is the body of the loop. *)
Definition scanEntries (scanEntry : DirEntry -> Scan)
  (directory : list ascii) (entries : list DirEntry) (failure : option Exn)
  : Scan :=
  let results := List.map scanEntry entries in
  (concat (List.map fst results),
   concat (List.map snd results)
   ++ match failure with
      | Some _ => [ErrScanning directory]
      | None => []
      end).

(** Lines 413-423 of [scanDirectory]: one entry of [directory]. *)
Fixpoint scanEntry (fileExtension directory : list ascii) (entry : DirEntry)
  {struct entry} : Scan :=
  match entry with
  | DirectoryEntry name entries failure =>
      let entryPath := Path.join directory name in
      if Text.includes "blocks" directory
      then scanEntries (scanEntry fileExtension entryPath) entryPath
                       entries failure
      else ([], [])
  | FileEntry name =>
      let entryPath := Path.join directory name in
      if Text.endsWith fileExtension name
         && negb (Text.includes ".min" name)
      then ([entryPath], [])
      else ([], [])
  | OtherEntry name => ([], [])
  end.

Definition scanDirectory (directory fileExtension : list ascii)
  (entries : list DirEntry) (failure : option Exn) : Scan :=
  scanEntries (scanEntry fileExtension directory) directory entries failure.

(** ** The watchers side by side *)

(** [main] starts its watchers without awaiting them (line 527): they
    run side by side and their calls of [processFile] take turns at
    every [await].  Below is [processFile] as the in-flight set sees it:
    the points of a call at which [processingFiles] is read or written
    (lines 275, 295 and 401, the only ones in the program), with the
    stages that run between them left free to do to the rest of the
    world whatever they do. *)

(** A watcher: its directory and its extension. *)
Definition Watcher : Type := list ascii * list ascii.

(** Lines 532-536 of [main]: the watchers that are started. *)
Definition watchers : list Watcher :=
  List.map (fun directory => (directory, CSS_EXT)) WATCH_DIRECTORIES_css
  ++ List.map (fun directory => (directory, JS_EXT)) WATCH_DIRECTORIES_js.

(** Where the call of a watcher stands.  A watcher has one call at a
    time: [watchDirectory] awaits each (lines 451 and 495) before it goes
    on. *)
Inductive Phase :=
| Idle
| Checking (filePath : list ascii)
| Processing (filePath : list ascii).

Definition Phases : Type := Watcher -> Phase.

Definition idle : Phases := fun _ => Idle.

Definition setPhase (k : Watcher) (phase : Phase) (phases : Phases) : Phases :=
  fun k' => if decide (k' = k) then phase else phases k'.

(** What a step shows of a call: the path it adds to the in-flight set,
    or its return. *)
Inductive Event :=
| Silent
| Added (filePath : list ascii)
| Returned (filePath : list ascii) (v : JsValue).

(** The world and the phases of the watchers. *)
Definition Running : Type := World * Phases.

(** One turn.  [handles k filePath]: the watcher [k] is given
    [filePath], by its scan or by an event of its directory.
    - [step_inflight]: lines 275-277;
    - [step_derived]: lines 280-283;
    - [step_forced]: with the force flag, lines 275-295 and on to the
      first [await] inside the [try];
    - [step_check]: without it, lines 275-287, to the [await] of
      [isSourceNewer];
    - [step_fresh]: lines 288-291;
    - [step_stale]: lines 288 and 295, and on to the first [await]
      inside the [try];
    - [step_finally]: lines 399-402 and the return, with any of the
      values of lines 303, 391 and 398;
    - [step_stage]: anything else that runs between two awaits, of any
      call or timer: it does not touch the in-flight set. *)
Inductive step (handles : Watcher -> list ascii -> Prop)
  : Running -> Event -> Running -> Prop :=
| step_inflight k filePath w phases :
    In k watchers -> handles k filePath -> phases k = Idle ->
    filePath ∈ processingFiles w ->
    step handles (w, phases) (Returned filePath (VBool false)) (w, phases)
| step_derived k filePath w phases :
    In k watchers -> handles k filePath -> phases k = Idle ->
    filePath ∉ processingFiles w ->
    Text.includes ".min" (Path.name (Path.parse filePath)) = true ->
    step handles (w, phases) (Returned filePath (VBool false)) (w, phases)
| step_forced k filePath w phases :
    In k watchers -> handles k filePath -> phases k = Idle ->
    filePath ∉ processingFiles w ->
    Text.includes ".min" (Path.name (Path.parse filePath)) = false ->
    step handles (w, phases) (Added filePath)
         (entered filePath w, setPhase k (Processing filePath) phases)
| step_check k filePath w phases :
    In k watchers -> handles k filePath -> phases k = Idle ->
    filePath ∉ processingFiles w ->
    Text.includes ".min" (Path.name (Path.parse filePath)) = false ->
    step handles (w, phases) Silent
         (w, setPhase k (Checking filePath) phases)
| step_fresh k filePath w phases :
    In k watchers -> phases k = Checking filePath ->
    step handles (w, phases) (Returned filePath (VBool false))
         (w, setPhase k Idle phases)
| step_stale k filePath w phases :
    In k watchers -> phases k = Checking filePath ->
    step handles (w, phases) (Added filePath)
         (entered filePath w, setPhase k (Processing filePath) phases)
| step_finally k filePath v w phases :
    In k watchers -> phases k = Processing filePath ->
    step handles (w, phases) (Returned filePath v)
         (released filePath w, setPhase k Idle phases)
| step_stage w w' phases :
    processingFiles w' = processingFiles w ->
    step handles (w, phases) Silent (w', phases).

(** The states the program gets to: line 45 starts with an empty set
    and no watcher has a call yet. *)
Inductive reachable (handles : Watcher -> list ascii -> Prop)
  : Running -> Prop :=
| reachable_start w :
    processingFiles w = ∅ -> reachable handles (w, idle)
| reachable_step s e s' :
    reachable handles s -> step handles s e s' -> reachable handles s'.

(** * Vocabulary of the statements *)

(** ** Paths *)

Module PathSpec.

Definition sepFree (s : list ascii) : Prop :=
  Forall (fun c => Path.isSep c = false) s.

Definition isAbsolute (p : list ascii) : bool :=
  match p with
  | c :: _ => Path.isSep c
  | [] => false
  end.

(** The components [normalize] keeps, first component first. *)
Definition normalSegments (p : list ascii) : list (list ascii) :=
  rev (fold_left (Path.pushSegment (negb (isAbsolute p)))
                 (Path.segments p) []).

(** What [join] puts in front of a file name for the directory [d]. *)
Definition dirPrefix (d : list ascii) : list ascii :=
  (if isAbsolute d then text_of_string "/" else [])
  ++ match normalSegments d with
     | [] => []
     | segs => Path.joinSegments segs ++ "/"
     end.

(** The directory [d], normalised. *)
Definition normalDir (d : list ascii) : list ascii :=
  if isAbsolute d then "/" ++ Path.joinSegments (normalSegments d)
  else match normalSegments d with
       | [] => text_of_string "."
       | segs => Path.joinSegments segs
       end.

(** A file name: not empty, no separator, neither [.] nor [..]. *)
Definition plain (seg : list ascii) : Prop :=
  seg <> [] /\ sepFree seg
  /\ seg <> text_of_string "." /\ seg <> text_of_string "..".

Definition segOk (seg : list ascii) : Prop := seg <> [] /\ sepFree seg.

Definition endsNonSep (s : list ascii) : Prop :=
  exists s0 c, s = s0 ++ [c] /\ Path.isSep c = false.

Definition noTrailing (d : list ascii) : Prop :=
  d = [] \/ d = text_of_string "/" \/ endsNonSep d.

End PathSpec.

(** ** Patterns and replacements *)

Module RegexSpec.

Definition spaces (s : list ascii) : Prop :=
  Forall (fun c => Text.isSpace c = true) s.

(** [k] times [../] *)
Fixpoint upDirs (k : nat) : list ascii :=
  match k with
  | O => []
  | S k' => "../" ++ upDirs k'
  end.

(** The import statements the pattern of [minifyCss] describes. *)
Definition definitionsImport (stmt : list ascii) : Prop :=
  exists sp1 q k sp2,
    sp1 <> [] /\ spaces sp1 /\ Regex.isQuote q = true /\ spaces sp2
    /\ stmt = "@import" ++ sp1 ++ [q] ++ upDirs k
              ++ "assets/css/definitions.css" ++ [q] ++ sp2 ++ ";".

Definition atFree (s : list ascii) : Prop :=
  Forall (fun c => c <> "@"%char) s.

(** A pattern consumes a prefix of the text it is given. *)
Definition consumes (p : Regex.pattern) : Prop :=
  forall s r, p s = Some r -> exists m, s = m ++ r.

(** No match that starts before [W] reaches into [W]. *)
Definition seamFree (p : Regex.pattern) (W : list ascii) : Prop :=
  forall u, u <> [] -> p (u ++ W) = option_map (fun r => r ++ W) (p u).

(** No match starts inside [R], whatever follows. *)
Definition copyFree (p : Regex.pattern) (R : list ascii) : Prop :=
  forall v v' Y, R = v' ++ v -> v <> [] -> p (v ++ Y) = None.

(** [R] is left alone by [p] wherever it stands. *)
Definition inert (p : Regex.pattern) (R : list ascii) : Prop :=
  forall rep X Y,
    Regex.replaceAll p rep (X ++ R ++ Y)
    = Regex.replaceAll p rep X ++ R ++ Regex.replaceAll p rep Y.

(** One text starts the other. *)
Definition clash (a b : list ascii) : bool :=
  Text.startsWith a b || Text.startsWith b a.

(** The non-empty suffixes. *)
Fixpoint tails (s : list ascii) : list (list ascii) :=
  match s with
  | [] => []
  | _ :: s' => s :: tails s'
  end.

Definition properTails (q : list ascii) : list (list ascii) :=
  match q with
  | [] => []
  | _ :: q' => tails q'
  end.

(** No end of [q] begins [R] or is begun by it. *)
Definition litSeam (q R : list ascii) : bool :=
  forallb (fun t => negb (clash t R)) (properTails q).

(** [q] cannot start at any position of [R]. *)
Definition litCopy (q R : list ascii) : bool :=
  forallb (fun v => negb (clash q v)) (tails R).

Definition headNotSpace (R : list ascii) : bool :=
  match R with
  | c :: _ => negb (Text.isSpace c)
  | [] => false
  end.

(** A check, by computation, that [R] is inert for a pattern of the
    chain. *)
Definition inertFor (p : RtlPattern) (R : list ascii) : bool :=
  match p with
  | Literal q => litSeam q R && litCopy q R
  | TextAlign value =>
      headNotSpace R
      && litSeam "text-align:" R && litCopy "text-align:" R
      && forallb (fun t => negb (clash t R)) (tails value)
      && negb (Text.eqb value [])
  end.

Definition isNameChar (c : ascii) : bool :=
  let n := nat_of_ascii c in
  ((97 <=? n) && (n <=? 122)) || ((65 <=? n) && (n <=? 90))
  || ((48 <=? n) && (n <=? 57)) || Ascii.eqb c "-" || Ascii.eqb c "_".

(** A code unit that is neither part of a property name nor the colon
    after it: what stands before a standalone property. *)
Definition isBoundary (d : ascii) : bool :=
  negb (isNameChar d) && negb (Ascii.eqb d ":").

Definition overNames (q : list ascii) : bool :=
  forallb (fun c => isNameChar c || Ascii.eqb c ":") q.

(** A part of the chain, applied in order. *)
Definition applyRules (rules : list (RtlPattern * list ascii))
  (s : list ascii) : list ascii :=
  fold_left applyReplacement rules s.

(** The replacements that come after the one at index [i]. *)
Definition laterRules (i : nat) : list (RtlPattern * list ascii) :=
  skipn (S i) rtlReplacements.

Definition firstSix : list (RtlPattern * list ascii) :=
  firstn 6 rtlReplacements.

End RegexSpec.

(** ** Frames of the effectful stages *)

Module Frame.

Definition sameShared (w w' : World) : Prop :=
  processingFiles w' = processingFiles w
  /\ watchedDirectories w' = watchedDirectories w
  /\ timers w' = timers w.

(** From [w] to [w'] only files at paths in [Q] were written; no file
    disappeared and the shared sets are as they were. *)
Definition onlyWrites (Q : list ascii -> Prop) (w w' : World) : Prop :=
  sameShared w w'
  /\ (forall p, ~ Q p -> files w' !! p = files w !! p)
  /\ (forall p, is_Some (files w !! p) -> is_Some (files w' !! p)).

Definition confined {A} (Q : list ascii -> Prop) (m : M A) : Prop :=
  forall w, onlyWrites Q w (snd (m w)).

Definition ltrPaths (filePath p : list ascii) : Prop :=
  p = getDestPath filePath false \/ p = getDestPath filePath false ++ ".map".

Definition rtlPaths (filePath p : list ascii) : Prop :=
  p = getDestPath filePath true \/ p = getDestPath filePath true ++ ".map".

End Frame.

(** ** Freshness *)

(** The source exists, so does [dest], and the source is the younger. *)
Definition newerThan (sourcePath dest : list ascii) (w : World) : Prop :=
  exists s d, files w !! sourcePath = Some s /\ files w !! dest = Some d
              /\ (timeOf (mtime d) < timeOf (mtime s))%Z.

Definition isCss (path : list ascii) : Prop :=
  Text.toLowerCase (Path.extname path) = CSS_EXT.

(** ** Scenarios *)

Module Scenario.

Definition stylePath : list ascii := "assets/css/style.css".

(** A stand-in for the minifier: it drops the white space. *)
Definition squeeze (code : list ascii) : list ascii :=
  filter (fun c => negb (Text.isSpace c)) code.

Definition plainServices : Services :=
  mkServices "/srv/site"
    (fun _ code => Ok (mkResult (squeeze code) (Some (text_of_string "{}"))))
    (fun input _ => Ok (Some input, Some (text_of_string "{}")))
    (fun _ _ => None) (fun _ _ => None).

(** The minifier rejects the RTL input and nothing else. *)
Definition rtlFailingServices : Services :=
  mkServices "/srv/site"
    (fun _ code =>
       if Text.includes "RTL-specific" code
       then Throw (mkExn "SyntaxError: unexpected token" None)
       else Ok (mkResult (squeeze code) (Some (text_of_string "{}"))))
    (fun input _ => Ok (Some input, Some (text_of_string "{}")))
    (fun _ _ => None) (fun _ _ => None).

Definition worldWith (definitions source : list ascii) : World :=
  mkWorld
    (<[ stylePath := mkFile source (Some 10%Z) ]>
       (<[ text_of_string "/srv/site/assets/css/definitions.css"
           := mkFile definitions (Some 5%Z) ]> ∅))
    ∅ ∅ [] [] 100.

Definition styleWorld : World :=
  worldWith (".btn{color:red}" ++ [LF]) ".a{margin-left:1px}".

(** The world after the source was read and the LTR variant written. *)
Definition afterLtr : World :=
  snd ((input <- readTextFile stylePath ;;
        ensureDirSync rtlFailingServices
          (Path.dirname (getDestPath stylePath false)) ;;;
        writeLtr rtlFailingServices stylePath input)
         (entered stylePath styleWorld)).

Definition afterFirstRun : World :=
  snd (processFile plainServices stylePath false styleWorld).

(** A file whose whole name is [.css]. *)
Definition dotfileWorld : World :=
  mkWorld {[ text_of_string "assets/css/.css"
             := mkFile ".a{color:red}" (Some 7%Z) ]}
          ∅ ∅ [] [] 100.

End Scenario.

(** ** Names and extensions *)

Module NameSpec.

Definition dotFree (s : list ascii) : Prop :=
  Forall (fun c => Path.isDot c = false) s.

(** An extension as [parse] and [extname] report it: a dot and at least
    one more code unit, none of them a dot or a separator. *)
Definition extension (e : list ascii) : Prop :=
  exists e', e = "."%char :: e' /\ e' <> [] /\ dotFree e'
             /\ PathSpec.sepFree e'.

(** What stands before the extension in a file name. *)
Definition stem (n : list ascii) : Prop := n <> [] /\ PathSpec.sepFree n.

(** What stands before a file name in a path: nothing, or a directory
    and a separator. *)
Definition directoryPart (pre : list ascii) : Prop :=
  pre = [] \/ exists X, pre = X ++ "/".

End NameSpec.

(** ** Console and artifacts *)

(** The world with [lines] written to the console and nothing else
    changed. *)
Definition appended (lines : list LogEntry) (w : World) : World :=
  withConsole (fun c => c ++ lines) w.

(** A computation that does nothing to the world but write lines to the
    console. *)
Definition logsOnly {A} (m : M A) : Prop :=
  forall w, exists lines, snd (m w) = appended lines w.

(** The files a source can give rise to. *)
Definition artifacts (filePath p : list ascii) : Prop :=
  Frame.ltrPaths filePath p \/ Frame.rtlPaths filePath p.

(** The definitions text [minifyCss] puts before its input: the content
    of the definitions file, ended by a line feed; nothing when the file
    cannot be read. *)
Definition prepended (sv : Services) (w : World) : list ascii :=
  match files w !! definitionsPath sv with
  | Some f => if Text.endsWith [LF] (content f) then content f
              else content f ++ [LF]
  | None => []
  end.

(** The lines [minifyCss] writes before it calls the minifier. *)
Definition definitionsLines (sv : Services) (w : World) : list LogEntry :=
  match files w !! definitionsPath sv with
  | Some _ => []
  | None => [ErrDefinitionsUnreadable (definitionsPath sv)]
  end.

(** The comment that ends a minified file. *)
Definition sourceMapComment (css : bool) (mapFilePath : list ascii)
  : list ascii :=
  if css
  then [LF] ++ "/*# sourceMappingURL="
       ++ Path.base (Path.parse mapFilePath) ++ " */"
  else [LF] ++ "//# sourceMappingURL=" ++ Path.base (Path.parse mapFilePath).

(** The extensions [processFile] goes on with. *)
Definition supported (filePath : list ascii) : bool :=
  Text.eqb (Text.toLowerCase (Path.extname filePath)) CSS_EXT
  || Text.eqb (Text.toLowerCase (Path.extname filePath)) JS_EXT.

(** The exceptions [processFile] takes for already reported. *)
Definition reported (error : Exn) : bool :=
  Text.includes "CSS minification" (exnText error)
  || Text.includes "javascript minification" (exnText error).

(** The lines [minifyCss] writes when the minifier throws [error]. *)
Definition failureLines (filePath : list ascii) (error : Exn)
  : list LogEntry :=
  ErrCssMinification filePath
  :: (if bool_decide (exnDataType error
                      = Some (text_of_string "UnexpectedImportRule"))
      then [ErrImportRuleHint] else []).

(** ** Further scenarios *)

Module Cases.

(** The minifiers reject everything. *)
Definition rejectingServices : Services :=
  mkServices "/srv/site"
    (fun _ _ => Throw (mkExn "SyntaxError: unexpected token" None))
    (fun _ _ => Throw (mkExn "SyntaxError: unexpected token" None))
    (fun _ _ => None) (fun _ _ => None).

Definition scriptPath : list ascii := "assets/js/app.js".

(** A script and nothing else. *)
Definition scriptWorld : World :=
  mkWorld {[ scriptPath := mkFile "let  a = 1;" (Some 10%Z) ]} ∅ ∅ [] [] 100.

(** A style sheet whose modification time is ahead of the clock. *)
Definition aheadWorld : World :=
  mkWorld
    (<[ Scenario.stylePath := mkFile ".a{margin-left:1px}" (Some 1000%Z) ]>
       (<[ text_of_string "/srv/site/assets/css/definitions.css"
           := mkFile (".btn{color:red}" ++ [LF]) (Some 5%Z) ]> ∅))
    ∅ ∅ [] [] 100.

(** The paths a watcher is given here: those under its directory, as
    [join] writes them, that end with its extension. *)
Definition handles (k : Watcher) (filePath : list ascii) : Prop :=
  Text.startsWith (Path.normalize (fst k) ++ "/") filePath
  && Text.endsWith (snd k) filePath = true.

End Cases.

(** ** The watcher *)

(** A file the File Processor writes: a destination or its map, for a
    source whose name has an extension. *)
Definition output (p : list ascii) : Prop :=
  exists (P : list ascii) (isRtl : bool),
    Path.ext (Path.parse P) <> []
    /\ (p = getDestPath P isRtl \/ p = getDestPath P isRtl ++ ".map").

(** From [w] to [w'] the in-flight set is as it was and no file
    disappeared. *)
Definition settled (w w' : World) : Prop :=
  processingFiles w' = processingFiles w
  /\ forall p, is_Some (files w !! p) -> is_Some (files w' !! p).

(** ** The directory scan *)

(** The names of the files of a directory that the scan takes, in
    order. *)
Definition sources (fileExtension : list ascii) (entries : list DirEntry)
  : list (list ascii) :=
  flat_map (fun entry =>
              match entry with
              | FileEntry name =>
                  if Text.endsWith fileExtension name
                     && negb (Text.includes ".min" name)
                  then [name] else []
              | _ => []
              end) entries.

#[local] Unset Elimination Schemes.

(** Every entry, at any depth, has a name for which [Q] holds. *)
Inductive named (Q : list ascii -> Prop) : DirEntry -> Prop :=
| named_file name : Q name -> named Q (FileEntry name)
| named_directory name entries failure :
    Q name -> Forall (named Q) entries ->
    named Q (DirectoryEntry name entries failure)
| named_other name : Q name -> named Q (OtherEntry name).

#[local] Set Elimination Schemes.

(** ** Writes *)

(** The world after [Deno.writeTextFile] has written [data] at [p]. *)
Definition written (p data : list ascii) (w : World) : World :=
  mkWorld (<[p := mkFile data (Some (clock w))]> (files w))
          (processingFiles w) (watchedDirectories w) (timers w)
          (console w) (clock w + 1)%Z.

(** What [minifyJavaScript] hands back for what terser reports. *)
Definition jsCode (input : list ascii) (code : option (list ascii))
  : list ascii :=
  if truthy code then default input code else input.

(** ** Watchers that keep apart *)

(** No path is given to two watchers. *)
Definition apart (handles : Watcher -> list ascii -> Prop) : Prop :=
  forall k k' filePath,
    In k watchers -> In k' watchers ->
    handles k filePath -> handles k' filePath -> k = k'.

(** The in-flight set holds the paths of the calls that are inside
    their [try], and a watcher is busy only with a path it handles. *)
Definition inflightInvariant (handles : Watcher -> list ascii -> Prop)
  (s : Running) : Prop :=
  (forall filePath,
     filePath ∈ processingFiles (fst s)
     <-> exists k, In k watchers /\ snd s k = Processing filePath)
  /\ (forall k filePath,
        snd s k = Checking filePath \/ snd s k = Processing filePath ->
        In k watchers /\ handles k filePath).

(** * Properties *)

(** ** Facts about the path functions *)

Module PathFacts.
Import Path PathSpec.

Lemma takeWhile_dropWhile f s : takeWhile f s ++ dropWhile f s = s.
Proof. induction s as [|c s IH]; simpl; [done|]. destruct (f c); simpl; [by rewrite IH|done]. Qed.

Lemma takeWhile_Forall f s : Forall (fun c => f c = true) (takeWhile f s).
Proof. induction s as [|c s IH]; simpl; [constructor|]. destruct (f c) eqn:E; auto. Qed.

Lemma dropWhile_head f s c r : dropWhile f s = c :: r -> f c = false.
Proof.
  induction s as [|a s IH]; simpl; [done|]. destruct (f a) eqn:E; [auto|].
  intros [= -> _]. done.
Qed.

Lemma takeWhile_app_stop f a c b :
  Forall (fun x => f x = true) a -> f c = false ->
  takeWhile f (a ++ c :: b) = a /\ dropWhile f (a ++ c :: b) = c :: b.
Proof.
  intros Ha Hc. induction Ha as [|x a Hx Ha IH]; simpl.
  - by rewrite Hc.
  - rewrite Hx. destruct IH as [-> ->]. done.
Qed.

Lemma takeWhile_all f a :
  Forall (fun x => f x = true) a -> takeWhile f a = a /\ dropWhile f a = [].
Proof.
  intros Ha. induction Ha as [|x a Hx Ha IH]; simpl; [done|].
  rewrite Hx. destruct IH as [-> ->]. done.
Qed.

Lemma dropWhile_stop f c s : f c = false -> dropWhile f (c :: s) = c :: s.
Proof. intros H. simpl. by rewrite H. Qed.

Lemma sepFree_negb s : sepFree s -> Forall (fun c => negb (isSep c) = true) s.
Proof. intros H. eapply Forall_impl; [exact H|]. by intros c ->. Qed.

Lemma sepFree_rev s : sepFree s -> sepFree (rev s).
Proof. unfold sepFree. rewrite !Forall_forall. intros H c Hc. apply H. rewrite list_elem_of_In in *. by apply in_rev. Qed.

(** the last component of [X/nb] *)
Lemma lastComponent_snoc X nb :
  nb <> [] -> sepFree nb ->
  lastComponent (X ++ "/" ++ nb) = (nb, Some X).
Proof.
  intros Hne Hnb. unfold lastComponent.
  assert (Erev : rev (X ++ "/" ++ nb) = rev nb ++ "/"%char :: rev X).
  { change (X ++ "/" ++ nb) with (X ++ ["/"%char] ++ nb).
    rewrite !rev_app_distr. simpl. by rewrite <- app_assoc. }
  rewrite Erev. clear Erev.
  destruct (rev nb) as [|c r] eqn:Er.
  { apply (f_equal (@rev _)) in Er. rewrite rev_involutive in Er. done. }
  assert (Hr : sepFree (c :: r)) by (rewrite <- Er; by apply sepFree_rev).
  assert (Hc : isSep c = false) by (by inversion Hr).
  change ((c :: r) ++ "/"%char :: rev X) with (c :: (r ++ "/"%char :: rev X)).
  rewrite (dropWhile_stop isSep c) by done.
  destruct (takeWhile_app_stop (fun c => negb (isSep c)) (c :: r) "/"%char (rev X))
    as [E1 E2]; [by apply sepFree_negb | done |].
  change (c :: (r ++ "/"%char :: rev X)) with ((c :: r) ++ "/"%char :: rev X).
  rewrite E1, E2, <- Er, !rev_involutive. done.
Qed.

Lemma lastComponent_plain nb : sepFree nb -> lastComponent nb = (nb, None).
Proof.
  intros Hnb. unfold lastComponent.
  destruct (rev nb) as [|c r] eqn:Er.
  { apply (f_equal (@rev _)) in Er. rewrite rev_involutive in Er. by subst. }
  assert (Hr : sepFree (c :: r)) by (rewrite <- Er; by apply sepFree_rev).
  assert (Hc : isSep c = false) by (by inversion Hr).
  rewrite (dropWhile_stop isSep c) by done.
  destruct (takeWhile_all (fun c => negb (isSep c)) (c :: r)) as [E1 E2];
    [by apply sepFree_negb|].
  rewrite E1, E2, <- Er, rev_involutive. done.
Qed.

Lemma lastComponent_sepFree body : sepFree (fst (lastComponent body)).
Proof.
  unfold lastComponent.
  set (r := dropWhile isSep (rev body)).
  assert (H : sepFree (rev (takeWhile (fun c => negb (isSep c)) r))).
  { apply sepFree_rev. eapply Forall_impl; [apply takeWhile_Forall|].
    intros c Hc. simpl in Hc. by destruct (isSep c). }
  by destruct (dropWhile _ r).
Qed.

Lemma lastComponent_Some body b pre :
  lastComponent body = (b, Some pre) -> b <> [].
Proof.
  unfold lastComponent.
  set (r := dropWhile isSep (rev body)).
  destruct (dropWhile (fun c => negb (isSep c)) r) as [|x before] eqn:E; [done|].
  intros [= <- _].
  destruct r as [|c r'] eqn:Er; [done|].
  assert (Hc : isSep c = false) by (eapply dropWhile_head; exact Er).
  simpl. rewrite Hc. simpl. intros H.
  apply (f_equal (@length _)) in H. rewrite length_app in H. simpl in H. lia.
Qed.

Lemma dropWhile_app f l m :
  dropWhile f (l ++ m)
  = match dropWhile f l with [] => dropWhile f m | r => r ++ m end.
Proof.
  induction l as [|c l IH]; simpl; [by destruct (dropWhile f m)|].
  destruct (f c); [exact IH|done].
Qed.

Lemma takeWhile_app f l m :
  takeWhile f (l ++ m)
  = match dropWhile f l with [] => l ++ takeWhile f m | _ => takeWhile f l end.
Proof.
  induction l as [|c l IH]; simpl; [done|].
  destruct (f c); [|done]. rewrite IH. by destruct (dropWhile f l).
Qed.

Lemma dropWhile_snoc f l c :
  f c = false -> dropWhile f (l ++ [c]) = dropWhile f l ++ [c].
Proof.
  intros Hc. rewrite dropWhile_app. simpl. rewrite Hc.
  by destruct (dropWhile f l).
Qed.

(** one more code unit in front of the body *)
Lemma lastComponent_cons c rest :
  isSep c = false ->
  lastComponent (c :: rest)
  = match lastComponent rest with
    | (b, Some pre) => (b, Some (c :: pre))
    | (b, None) => (c :: b, None)
    end.
Proof.
  intros Hc. unfold lastComponent. simpl rev.
  rewrite (dropWhile_snoc isSep _ c Hc).
  set (r := dropWhile isSep (rev rest)).
  set (g := fun c0 => negb (isSep c0)).
  assert (Hg : g c = true) by (unfold g; by rewrite Hc).
  rewrite (dropWhile_app g r [c]), (takeWhile_app g r [c]).
  pose proof (takeWhile_dropWhile g r) as Htd.
  destruct (dropWhile g r) as [|y before] eqn:Ed.
  - simpl. rewrite Hg. simpl. rewrite app_nil_r in Htd. rewrite Htd.
    rewrite rev_app_distr. done.
  - simpl. rewrite rev_app_distr. done.
Qed.

Lemma isSep_true c : isSep c = true -> c = "/"%char.
Proof. unfold isSep. by intros ->%Ascii.eqb_eq. Qed.

Lemma dirname_parse P :
  dirname P
  = match dir (parse P) with [] => text_of_string "." | _ => dir (parse P) end.
Proof.
  destruct P as [|c rest]; [done|].
  unfold dirname, parse.
  destruct (isSep c) eqn:Hc.
  - destruct (lastComponent rest) as [b [pre|]] eqn:E.
    + apply lastComponent_Some in E as Hb. destruct b; [done|].
      simpl. destruct (splitExt _ _). simpl. done.
    + simpl. destruct (splitExt _ _). simpl. apply isSep_true in Hc. subst.
      destruct b; reflexivity.
  - rewrite (lastComponent_cons c rest Hc).
    destruct (lastComponent rest) as [b [pre|]] eqn:E.
    + apply lastComponent_Some in E as Hb. destruct b; [done|].
      simpl. destruct (splitExt _ _). simpl. done.
    + simpl. destruct (splitExt _ _). simpl. destruct b; reflexivity.
Qed.

Lemma segments_nonempty s : segments s <> [].
Proof.
  destruct s as [|c s]; simpl; [done|].
  destruct (isSep c); [done|]. by destruct (segments s).
Qed.

Lemma segments_app_sep a b :
  segments (a ++ "/"%char :: b) = segments a ++ segments b.
Proof.
  induction a as [|c a IH]; simpl; [done|].
  destruct (isSep c); [by rewrite IH|].
  rewrite IH. pose proof (segments_nonempty a).
  by destruct (segments a).
Qed.

Lemma segments_sepFree s : sepFree s -> segments s = [s].
Proof.
  induction 1 as [|c s Hc Hs IH]; simpl; [done|].
  by rewrite Hc, IH.
Qed.

Lemma segments_Forall s : Forall sepFree (segments s).
Proof.
  induction s as [|c s IH]; simpl.
  - repeat constructor.
  - destruct (isSep c) eqn:Hc.
    + constructor; [constructor|done].
    + destruct (segments s) as [|seg segs]; [repeat constructor; done|].
      inversion IH; subst. constructor; [by constructor|done].
Qed.

Lemma pushSegment_plain a st seg : plain seg -> pushSegment a st seg = seg :: st.
Proof.
  intros (H1 & _ & H2 & H3). unfold pushSegment, isDotDot, Text.eqb.
  rewrite !bool_decide_eq_false_2 by done. done.
Qed.

Lemma pushSegment_ok a st seg :
  Forall segOk st -> sepFree seg -> Forall segOk (pushSegment a st seg).
Proof.
  intros Hst Hseg. unfold pushSegment, isDotDot, Text.eqb.
  repeat case_bool_decide; simpl; try done.
  - destruct st as [|top below]; [destruct a; [|done]|].
    + constructor; [|done]. split; [by subst|done].
    + case_bool_decide.
      * destruct a; [|done]. constructor; [|done]. split; [by subst|done].
      * by inversion Hst.
  - constructor; [|done]. done.
Qed.

Lemma fold_pushSegment_ok a segs st :
  Forall segOk st -> Forall sepFree segs ->
  Forall segOk (fold_left (pushSegment a) segs st).
Proof.
  intros Hst Hsegs. revert st Hst.
  induction Hsegs as [|seg segs Hseg Hsegs IH]; intros st Hst; simpl; [done|].
  apply IH. by apply pushSegment_ok.
Qed.

Lemma normalSegments_ok p : Forall segOk (normalSegments p).
Proof.
  unfold normalSegments. apply Forall_rev.
  apply fold_pushSegment_ok; [constructor|apply segments_Forall].
Qed.

Lemma joinSegments_snoc xs seg :
  joinSegments (xs ++ [seg])
  = match xs with [] => seg | _ => joinSegments xs ++ "/" ++ seg end.
Proof.
  induction xs as [|x xs IH]; [done|].
  change ((x :: xs) ++ [seg]) with (x :: (xs ++ [seg])).
  destruct xs as [|y ys].
  - simpl. done.
  - change (joinSegments (x :: (y :: ys) ++ [seg]))
      with (x ++ "/" ++ joinSegments ((y :: ys) ++ [seg])).
    rewrite IH.
    change (joinSegments (x :: y :: ys)) with (x ++ "/" ++ joinSegments (y :: ys)).
    by rewrite <- !app_assoc.
Qed.

Lemma nonempty_snoc (s : list ascii) : s <> [] -> exists s0 c, s = s0 ++ [c].
Proof.
  intros H. destruct (exists_last H) as (s0 & c & ->). eauto.
Qed.

Lemma segOk_ends seg : segOk seg -> endsNonSep seg.
Proof.
  intros [Hne Hs]. destruct (nonempty_snoc seg Hne) as (s0 & c & ->).
  exists s0, c. split; [done|].
  apply Forall_app in Hs as [_ Hc]. by inversion Hc.
Qed.

Lemma joinSegments_ends xs :
  xs <> [] -> Forall segOk xs -> endsNonSep (joinSegments xs).
Proof.
  intros Hne Hok.
  destruct (exists_last Hne) as (xs' & seg & ->).
  apply Forall_app in Hok as [_ Hseg]. inversion Hseg as [|? ? Hs _]; subst.
  destruct (segOk_ends seg Hs) as (s0 & c & -> & Hc).
  rewrite joinSegments_snoc. destruct xs' as [|x xs'].
  - by exists s0, c.
  - exists (joinSegments (x :: xs') ++ "/" ++ s0), c.
    split; [by rewrite <- !app_assoc|done].
Qed.

Lemma joinSegments_head xs :
  xs <> [] -> Forall segOk xs ->
  exists c body, joinSegments xs = c :: body /\ isSep c = false.
Proof.
  intros Hne Hok. destruct xs as [|x xs]; [done|].
  inversion Hok as [|? ? [Hx Hs] _]; subst.
  destruct x as [|c x]; [done|]. inversion Hs; subst.
  destruct xs as [|y ys].
  - by exists c, x.
  - exists c, (x ++ "/" ++ joinSegments (y :: ys)). done.
Qed.

Lemma endsNonSep_keep s :
  endsNonSep s -> rev (dropWhile isSep (rev s)) = s.
Proof.
  intros (s0 & c & -> & Hc). rewrite rev_app_distr. simpl.
  rewrite Hc. simpl. by rewrite rev_involutive.
Qed.

Lemma strip_keep c s :
  s = [] \/ endsNonSep s -> stripTrailingSeparators (c :: s) = c :: s.
Proof.
  intros [->|H]; [done|]. simpl. by rewrite endsNonSep_keep.
Qed.

Lemma match_nonempty (p a : list ascii) :
  p <> [] -> match p with [] => a | _ => p end = p.
Proof. by destruct p. Qed.

Lemma plain_ends nb : plain nb -> endsNonSep nb.
Proof. intros (H1 & H2 & _). by apply segOk_ends. Qed.

Lemma normalize_nontrailing path :
  endsNonSep path ->
  normalizeString path (negb (isAbsolute path)) <> [] ->
  normalize path
  = (if isAbsolute path then text_of_string "/" else [])
    ++ normalizeString path (negb (isAbsolute path)).
Proof.
  intros (s0 & c' & E & Hc') Hp.
  destruct path as [|c tail].
  { by destruct s0. }
  assert (Hrev : rev (c :: tail) = c' :: rev s0).
  { rewrite E, rev_app_distr. done. }
  unfold normalize. cbv zeta. rewrite Hrev, Hc'.
  simpl isAbsolute in *.
  set (p := normalizeString (c :: tail) (negb (isSep c))) in *.
  destruct p as [|x p']; [done|]. by destruct (isSep c).
Qed.

Lemma normalizeString_snoc d nb a :
  plain nb ->
  normalizeString (d ++ "/" ++ nb) a
  = match rev (fold_left (pushSegment a) (segments d) []) with
    | [] => nb
    | segs => joinSegments segs ++ "/" ++ nb
    end.
Proof.
  intros Hnb. unfold normalizeString.
  change (d ++ "/" ++ nb) with (d ++ "/"%char :: nb).
  rewrite segments_app_sep, (segments_sepFree nb) by apply Hnb.
  rewrite fold_left_app. simpl fold_left.
  rewrite pushSegment_plain by done. simpl rev.
  rewrite joinSegments_snoc. by destruct (rev _).
Qed.

Lemma normalize_snoc d nb :
  d <> [] -> plain nb -> normalize (d ++ "/" ++ nb) = dirPrefix d ++ nb.
Proof.
  intros Hd Hnb.
  assert (Habs : isAbsolute (d ++ "/" ++ nb) = isAbsolute d) by (by destruct d).
  assert (Hends : endsNonSep (d ++ "/" ++ nb)).
  { destruct (plain_ends nb Hnb) as (n0 & c' & -> & Hc').
    exists (d ++ "/" ++ n0), c'. split; [by rewrite <- !app_assoc|done]. }
  rewrite normalize_nontrailing; [|done|].
  - rewrite Habs, normalizeString_snoc by done. unfold dirPrefix, normalSegments.
    destruct (rev _); by rewrite <- ?app_assoc.
  - rewrite Habs, normalizeString_snoc by done. destruct Hnb as [Hne _].
    destruct (rev _) as [|x xs]; [done|].
    intros H%(f_equal (@length _)). rewrite !length_app in H. simpl in H. lia.
Qed.

Lemma normalizeString_plain nb a : plain nb -> normalizeString nb a = nb.
Proof.
  intros Hnb. unfold normalizeString.
  rewrite (segments_sepFree nb) by apply Hnb. simpl.
  by rewrite pushSegment_plain.
Qed.

Lemma normalize_plain nb : plain nb -> normalize nb = nb.
Proof.
  intros Hnb. pose proof Hnb as (Hne & Hs & _).
  assert (Habs : isAbsolute nb = false).
  { destruct nb; [done|]. by inversion Hs. }
  rewrite normalize_nontrailing.
  - by rewrite Habs, normalizeString_plain.
  - by apply plain_ends.
  - by rewrite normalizeString_plain.
Qed.

Lemma join_plain d nb : plain nb -> join d nb = dirPrefix d ++ nb.
Proof.
  intros Hnb. pose proof Hnb as (Hne & _). unfold join.
  destruct d as [|c d'].
  - destruct nb as [|x nb']; [done|]. by rewrite normalize_plain.
  - destruct nb as [|x nb']; [done|]. by rewrite normalize_snoc.
Qed.

Lemma plain_head nb : plain nb -> exists c rest, nb = c :: rest /\ isSep c = false /\ sepFree rest.
Proof.
  intros (Hne & Hs & _). destruct nb as [|c rest]; [done|].
  inversion Hs; subst. eauto.
Qed.

Lemma dirPrefix_cases d :
  (normalSegments d = []
   /\ forall nb, dirPrefix d ++ nb
                 = if isAbsolute d then "/"%char :: nb else nb)
  \/ (exists c body,
        joinSegments (normalSegments d) = c :: body /\ isSep c = false
        /\ endsNonSep (c :: body)
        /\ normalSegments d <> []
        /\ forall nb, dirPrefix d ++ nb
                      = if isAbsolute d
                        then "/"%char :: ((c :: body) ++ "/" ++ nb)
                        else (c :: body) ++ "/" ++ nb).
Proof.
  unfold dirPrefix. pose proof (normalSegments_ok d) as Hok.
  destruct (normalSegments d) as [|x xs] eqn:E.
  - left. split; [done|]. intros nb. by destruct (isAbsolute d).
  - right. destruct (joinSegments_head (x :: xs)) as (c & body & EJ & Hc); [done..|].
    exists c, body. rewrite <- EJ. repeat split; try done.
    + by apply joinSegments_ends.
    + intros nb. destruct (isAbsolute d); simpl; by rewrite <- !app_assoc.
Qed.

Lemma dirname_dest d nb : plain nb -> dirname (dirPrefix d ++ nb) = normalDir d.
Proof.
  intros Hnb. destruct (plain_head nb Hnb) as (x & rest & -> & Hx & Hrest).
  unfold normalDir.
  destruct (dirPrefix_cases d) as [[Es ->]|(c & body & EJ & Hc & Hends & Hne & ->)].
  - rewrite Es. destruct (isAbsolute d); simpl.
    + rewrite lastComponent_plain by (by constructor). done.
    + rewrite lastComponent_plain by done. rewrite Hx. by destruct rest.
  - destruct (normalSegments d) as [|s0 ss] eqn:Es; [done|].
    rewrite EJ.
    destruct (isAbsolute d).
    + unfold dirname.
      rewrite (lastComponent_snoc (c :: body) (x :: rest)) by (done || apply Hnb).
      by rewrite strip_keep by (by right).
    + change ((c :: body) ++ "/" ++ x :: rest)
        with (c :: (body ++ "/" ++ x :: rest)).
      unfold dirname.
      rewrite (lastComponent_snoc body (x :: rest)) by (done || apply Hnb).
      rewrite strip_keep; [done|].
      destruct Hends as (s0' & c' & E & Hc').
      destruct s0' as [|y s0'].
      * left. simpl in E. by injection E.
      * right. exists s0', c'. simpl in E. by injection E.
Qed.

Lemma parse_base_abs tail :
  base (parse ("/"%char :: tail))
  = match fst (lastComponent tail) with
    | [] => text_of_string "/"
    | b => b
    end.
Proof.
  unfold parse. change (isSep "/") with true. cbv match.
  destruct (lastComponent _) as [b before].
  destruct (splitExt _ _). by destruct b.
Qed.

Lemma parse_base_rel c tail :
  isSep c = false ->
  base (parse (c :: tail))
  = match fst (lastComponent (c :: tail)) with
    | [] => text_of_string "/"
    | b => b
    end.
Proof.
  intros Hc. unfold parse. rewrite Hc.
  destruct (lastComponent _) as [b before].
  destruct (splitExt _ _). by destruct b.
Qed.

Lemma base_dest d nb : plain nb -> base (parse (dirPrefix d ++ nb)) = nb.
Proof.
  intros Hnb. destruct (plain_head nb Hnb) as (x & rest & -> & Hx & Hrest).
  destruct (dirPrefix_cases d) as [[Es ->]|(c & body & EJ & Hc & Hends & Hne & ->)].
  - destruct (isAbsolute d).
    + rewrite parse_base_abs.
      by rewrite lastComponent_plain by (by constructor).
    + rewrite parse_base_rel by done.
      by rewrite lastComponent_plain by (by constructor).
  - destruct (isAbsolute d).
    + rewrite parse_base_abs.
      by rewrite (lastComponent_snoc (c :: body) (x :: rest)) by (done || apply Hnb).
    + change ((c :: body) ++ "/" ++ x :: rest)
        with (c :: (body ++ "/" ++ x :: rest)).
      rewrite parse_base_rel by done.
      change (c :: body ++ "/" ++ x :: rest) with ((c :: body) ++ "/" ++ (x :: rest)).
      by rewrite (lastComponent_snoc (c :: body) (x :: rest)) by (done || apply Hnb).
Qed.

Lemma strip_noTrailing s : noTrailing (stripTrailingSeparators s).
Proof.
  destruct s as [|c s']; [by left|]. simpl.
  destruct (dropWhile isSep (rev s')) as [|x r] eqn:E.
  - simpl. destruct (isSep c) eqn:Hc.
    + right; left. by apply isSep_true in Hc as ->.
    + right; right. by exists [], c.
  - right; right. apply dropWhile_head in E as Hx.
    exists (c :: rev r), x. split; [|done]. simpl. done.
Qed.

Lemma parse_dir_noTrailing P : noTrailing (dir (parse P)).
Proof.
  destruct P as [|c rest]; [by left|].
  unfold parse. destruct (lastComponent _) as [b [pre|]];
    destruct (splitExt _ _); simpl.
  - apply strip_noTrailing.
  - destruct (isSep c) eqn:Hc; [|by left].
    right; left. by apply isSep_true in Hc as ->.
Qed.

Lemma normalize_noTrailing path :
  endsNonSep path ->
  normalize path
  = if isAbsolute path
    then "/" ++ normalizeString path (negb (isAbsolute path))
    else match normalizeString path (negb (isAbsolute path)) with
         | [] => text_of_string "."
         | p => p
         end.
Proof.
  intros (s0 & c' & E & Hc').
  destruct path as [|c tail].
  { by destruct s0. }
  assert (Hrev : rev (c :: tail) = c' :: rev s0).
  { rewrite E, rev_app_distr. done. }
  unfold normalize. cbv zeta. rewrite Hrev, Hc'.
  simpl isAbsolute in *.
  set (p := normalizeString (c :: tail) (negb (isSep c))) in *.
  destruct p as [|x p']; by destruct (isSep c).
Qed.

Lemma normalize_dir d :
  noTrailing d ->
  normalize (match d with [] => text_of_string "." | _ => d end) = normalDir d.
Proof.
  intros [->|[->|Hd]]; [reflexivity..|].
  assert (Hne : d <> []) by (destruct Hd as (s0 & c & -> & _); by destruct s0).
  rewrite (match_nonempty d) by done.
  rewrite normalize_noTrailing by done. unfold normalDir, normalizeString.
  fold (normalSegments d).
  destruct (isAbsolute d); [done|].
  pose proof (normalSegments_ok d) as Hok.
  destruct (normalSegments d) as [|x xs] eqn:E; [done|].
  destruct (joinSegments_head (x :: xs)) as (c & body & -> & _); done.
Qed.

Lemma splitExt_sepFree g b :
  sepFree b -> sepFree (fst (splitExt g b)) /\ sepFree (snd (splitExt g b)).
Proof.
  intros Hb. unfold splitExt.
  set (f := fun c => negb (isDot c)).
  pose proof (takeWhile_dropWhile f (rev b)) as E.
  assert (Hr : sepFree (takeWhile f (rev b) ++ dropWhile f (rev b))).
  { rewrite E. by apply sepFree_rev. }
  apply Forall_app in Hr as [Ht Hd].
  destruct (dropWhile f (rev b)) as [|d rn]; [by split; [|constructor]|].
  inversion Hd as [|? ? Hd1 Hd2]; subst.
  apply sepFree_rev in Hd2, Ht.
  destruct (rev rn) as [|c n']; [by split; [|constructor]|].
  destruct (_ && _); simpl; [by split; [|constructor]|].
  split; [done|by constructor].
Qed.

Lemma parse_sepFree P : sepFree (name (parse P)) /\ sepFree (ext (parse P)).
Proof.
  destruct P as [|c rest]; [by split; constructor|].
  unfold parse.
  pose proof (lastComponent_sepFree (if isSep c then rest else c :: rest)) as Hb.
  destruct (lastComponent _) as [b before]. simpl in Hb.
  set (g := match before with Some _ => true | None => negb (isSep c) end).
  pose proof (splitExt_sepFree g b Hb) as [Hn He].
  by destruct (splitExt g b).
Qed.

Lemma splitExt_app g b : fst (splitExt g b) ++ snd (splitExt g b) = b.
Proof.
  unfold splitExt.
  set (f := fun c => negb (isDot c)).
  pose proof (takeWhile_dropWhile f (rev b)) as E.
  remember (takeWhile f (rev b)) as tw eqn:Etw. clear Etw.
  destruct (dropWhile f (rev b)) as [|d rn]; [by rewrite app_nil_r|].
  destruct (rev rn) as [|c n'] eqn:En; [by rewrite app_nil_r|].
  destruct (_ && _); simpl; [by rewrite app_nil_r|].
  apply (f_equal (@rev _)) in E. rewrite rev_involutive in E.
  rewrite <- E, rev_app_distr. simpl. rewrite En, <- app_assoc. done.
Qed.

(** the name and the extension make up the last component *)
Lemma parse_name_ext P :
  name (parse P) ++ ext (parse P) = base (parse P)
  \/ (name (parse P) = [] /\ ext (parse P) = []).
Proof.
  destruct P as [|c rest]; [by left|].
  unfold parse. destruct (lastComponent _) as [b before].
  set (g := match before with Some _ => true | None => negb (isSep c) end).
  pose proof (splitExt_app g b) as E.
  destruct (splitExt g b) as [n e]. simpl in *.
  destruct b as [|x b]; [right|by left].
  by destruct n, e.
Qed.

Lemma destName_plain P (isRtl : bool) :
  plain (name (parse P) ++ (if isRtl then RTL_CONFIG.rtlSuffix else [])
         ++ ".min" ++ ext (parse P)).
Proof.
  destruct (parse_sepFree P) as [Hn He].
  set (n := name (parse P)) in *. set (e := ext (parse P)) in *.
  assert (Hm : In "m"%char (n ++ (if isRtl then RTL_CONFIG.rtlSuffix else [])
                           ++ ".min" ++ e)).
  { apply in_or_app. right. apply in_or_app. right. right. by left. }
  repeat split.
  - intros E. rewrite E in Hm. done.
  - apply Forall_app. split; [done|]. apply Forall_app. split.
    + destruct isRtl; repeat constructor.
    + apply Forall_app. split; [repeat constructor|done].
  - intros E. rewrite E in Hm. simpl in Hm. by destruct Hm as [?|[]].
  - intros E. rewrite E in Hm. simpl in Hm. by destruct Hm as [?|[?|[]]].
Qed.

Lemma getDestPath_shape P (isRtl : bool) :
  getDestPath P isRtl
  = dirPrefix (dir (parse P))
    ++ name (parse P) ++ (if isRtl then RTL_CONFIG.rtlSuffix else [])
    ++ ".min" ++ ext (parse P).
Proof. unfold getDestPath. apply join_plain, destName_plain. Qed.

End PathFacts.

(** ** The Path Resolver *)

(** C1.  For every source path the two destinations differ.  The
    source's last component is its name followed by its extension (both
    are empty when the path has no last component); each destination has
    the name, the optional [.rtl], [.min] and the extension as its last
    component, and lies in the source's directory: [dirname] of the
    destination is the normalised [dirname] of the source.  The resolver
    is a function of its two arguments alone. *)
Theorem getDestPath_in_source_directory (P : list ascii) :
  getDestPath P false <> getDestPath P true
  /\ (Path.name (Path.parse P) ++ Path.ext (Path.parse P)
      = Path.base (Path.parse P)
      \/ (Path.name (Path.parse P) = [] /\ Path.ext (Path.parse P) = []))
  /\ forall isRtl : bool,
       let newBase :=
         Path.name (Path.parse P)
         ++ (if isRtl then RTL_CONFIG.rtlSuffix else [])
         ++ ".min" ++ Path.ext (Path.parse P) in
       Path.base (Path.parse (getDestPath P isRtl)) = newBase
       /\ Path.dirname (getDestPath P isRtl)
          = Path.normalize (Path.dirname P).
Proof.
  split; [|split].
  - rewrite !PathFacts.getDestPath_shape. intros E.
    apply app_inv_head in E. apply app_inv_head in E. simpl in E. done.
  - apply PathFacts.parse_name_ext.
  - intros isRtl newBase.
    rewrite PathFacts.getDestPath_shape.
    pose proof (PathFacts.destName_plain P isRtl) as Hp.
    split.
    + by apply PathFacts.base_dest.
    + rewrite PathFacts.dirname_dest by done.
      rewrite PathFacts.dirname_parse.
      symmetry. apply PathFacts.normalize_dir, PathFacts.parse_dir_noTrailing.
Qed.

(** ** Facts about the patterns *)

Module RegexFacts.
Import Regex RegexSpec.

Lemma startsWith_app p r : Text.startsWith p (p ++ r) = true.
Proof. induction p as [|a p IH]; simpl; [done|]. by rewrite Ascii.eqb_refl. Qed.

Lemma startsWith_inv p s : Text.startsWith p s = true -> s = p ++ skipn (length p) s.
Proof.
  revert s. induction p as [|a p IH]; intros s H; simpl in *; [done|].
  destruct s as [|b s]; [done|].
  apply andb_true_iff in H as [Hab Hp]. apply Ascii.eqb_eq in Hab as ->.
  f_equal. by apply IH.
Qed.

Lemma lit_Some p s r : lit p s = Some r <-> s = p ++ r.
Proof.
  unfold lit. split.
  - destruct (Text.startsWith p s) eqn:E; [|done].
    intros [= <-]. by apply startsWith_inv.
  - intros ->. rewrite startsWith_app. f_equal.
    by rewrite skipn_app, skipn_all, Nat.sub_diag.
Qed.

Lemma lit_app p r : lit p (p ++ r) = Some r.
Proof. by apply lit_Some. Qed.

(** fuel *)
Lemma replaceFuel_enough f1 f2 p rep s :
  length s <= f1 -> length s <= f2 ->
  replaceFuel f1 p rep s = replaceFuel f2 p rep s.
Proof.
  revert f2 s. induction f1 as [|f1 IH]; intros f2 s H1 H2.
  - destruct s; [|simpl in H1; lia]. by destruct f2.
  - destruct f2 as [|f2].
    + destruct s; [done|simpl in H2; lia].
    + simpl. destruct s as [|c s']; [done|]. simpl in H1, H2.
      destruct (p (c :: s')) as [r|].
      * destruct (length r <? length (c :: s')) eqn:E.
        -- apply Nat.ltb_lt in E. simpl in E. f_equal. apply IH; lia.
        -- f_equal. apply IH; lia.
      * f_equal. apply IH; lia.
Qed.

Lemma replaceAll_nil p rep : replaceAll p rep [] = [].
Proof. done. Qed.

Lemma replaceAll_match p rep s r :
  p s = Some r -> length r < length s ->
  replaceAll p rep s = rep ++ replaceAll p rep r.
Proof.
  intros Hp Hlt. unfold replaceAll.
  destruct s as [|c s']; [simpl in Hlt; lia|].
  simpl length. simpl replaceFuel. rewrite Hp.
  destruct (length r <? S (length s')) eqn:E.
  - f_equal. apply replaceFuel_enough; simpl in *; lia.
  - apply Nat.ltb_ge in E. simpl in Hlt. lia.
Qed.

Lemma replaceAll_skip p rep c s :
  p (c :: s) = None -> replaceAll p rep (c :: s) = c :: replaceAll p rep s.
Proof.
  intros Hp. unfold replaceAll. simpl. by rewrite Hp.
Qed.

Lemma trimStart_spec s :
  exists ws, spaces ws /\ s = ws ++ Text.trimStart s.
Proof.
  induction s as [|c s (ws & Hws & E)]; [exists []; by split; [constructor|]|].
  simpl. destruct (Text.isSpace c) eqn:Hc.
  - exists (c :: ws). split; [by constructor|]. simpl. by f_equal.
  - exists []. by split; [constructor|].
Qed.

Lemma trimStart_app ws r :
  spaces ws -> (match r with c :: _ => Text.isSpace c = false | [] => True end) ->
  Text.trimStart (ws ++ r) = r.
Proof.
  intros Hws Hr. induction Hws as [|c ws Hc _ IH]; simpl.
  - destruct r as [|c r']; [done|]. simpl. by rewrite Hr.
  - by rewrite Hc.
Qed.

Lemma ups_cons3 a b c s :
  ups (a :: b :: c :: s)
  = if Ascii.eqb a "." && Ascii.eqb b "." && Ascii.eqb c "/"
    then ups s else a :: b :: c :: s.
Proof. done. Qed.

Lemma ups_spec_bounded n s :
  length s <= n -> exists k, s = upDirs k ++ ups s.
Proof.
  revert s. induction n as [|n IH]; intros s Hn.
  { destruct s; [by exists 0|simpl in Hn; lia]. }
  destruct s as [|a [|b [|c s']]]; try (by exists 0).
  pose proof (ups_cons3 a b c s') as E.
  destruct (Ascii.eqb a "." && Ascii.eqb b "." && Ascii.eqb c "/") eqn:Hm.
  - apply andb_true_iff in Hm as [[Ea Eb]%andb_true_iff Ec].
    apply Ascii.eqb_eq in Ea as ->. apply Ascii.eqb_eq in Eb as ->.
    apply Ascii.eqb_eq in Ec as ->.
    destruct (IH s') as (k & E'); [simpl in Hn; lia|].
    exists (S k). rewrite E. simpl. by rewrite <- E'.
  - exists 0. by rewrite E.
Qed.

Lemma ups_spec s : exists k, s = upDirs k ++ ups s.
Proof. by apply (ups_spec_bounded (length s)). Qed.

Lemma ups_app k r :
  (forall r', r <> "../" ++ r') -> ups (upDirs k ++ r) = r.
Proof.
  intros Hr. induction k as [|k IH]; simpl.
  - destruct r as [|a [|b [|c r']]]; try done.
    rewrite ups_cons3.
    destruct (Ascii.eqb a ".") eqn:Ea; [|done].
    destruct (Ascii.eqb b ".") eqn:Eb; [|done].
    destruct (Ascii.eqb c "/") eqn:Ec; [|done].
    apply Ascii.eqb_eq in Ea as ->. apply Ascii.eqb_eq in Eb as ->.
    apply Ascii.eqb_eq in Ec as ->. by destruct (Hr r').
  - exact IH.
Qed.

Lemma isQuote_not_space q : isQuote q = true -> Text.isSpace q = false.
Proof.
  unfold isQuote. intros [->%Ascii.eqb_eq| ->%Ascii.eqb_eq]%orb_true_iff; done.
Qed.

Lemma importRegex_complete stmt rest :
  definitionsImport stmt -> importRegex (stmt ++ rest) = Some rest.
Proof.
  intros (sp1 & q & k & sp2 & Hne & Hsp1 & Hq & Hsp2 & ->).
  unfold importRegex, andThen.
  rewrite <- !app_assoc.
  rewrite lit_app.
  destruct sp1 as [|c sp1]; [done|]. inversion Hsp1 as [|? ? Hc Hsp1']; subst.
  change ((c :: sp1) ++ ?x) with (c :: (sp1 ++ x)).
  unfold ws1. rewrite Hc.
  rewrite trimStart_app; [|done|by apply isQuote_not_space].
  change ([q] ++ ?x) with (q :: x) at 1. cbv iota. rewrite Hq.
  rewrite ups_app.
  2:{ intros r'. simpl. done. }
  rewrite lit_app, (lit_app [q]).
  unfold ws0. rewrite trimStart_app; [|done|done].
  by rewrite lit_app.
Qed.

Lemma importRegex_sound s rest :
  importRegex s = Some rest ->
  exists stmt, definitionsImport stmt /\ s = stmt ++ rest.
Proof.
  unfold importRegex, andThen.
  destruct (lit "@import" s) as [r1|] eqn:E1; [|done].
  apply lit_Some in E1 as ->.
  unfold ws1. destruct r1 as [|c r1']; [done|].
  destruct (Text.isSpace c) eqn:Hc; [|done].
  destruct (trimStart_spec r1') as (sp & Hsp & E2).
  destruct (Text.trimStart r1') as [|q s'] eqn:E3; [done|].
  destruct (isQuote q) eqn:Hq; [|done].
  destruct (ups_spec s') as (k & E4).
  remember (ups s') as u eqn:Eu. clear Eu.
  destruct (lit "assets/css/definitions.css" u) as [r3|] eqn:E5; [|done].
  apply lit_Some in E5.
  destruct (lit [q] r3) as [r4|] eqn:E6; [|done].
  apply lit_Some in E6.
  unfold ws0. destruct (trimStart_spec r4) as (sp2 & Hsp2 & E7).
  remember (Text.trimStart r4) as t eqn:Et. clear Et.
  intros E8. apply lit_Some in E8. subst.
  exists ("@import" ++ (c :: sp) ++ [q] ++ upDirs k
          ++ "assets/css/definitions.css" ++ [q] ++ sp2 ++ ";").
  split.
  - exists (c :: sp), q, k, sp2. repeat split; try done. by constructor.
  - rewrite <- !app_assoc. reflexivity.
Qed.

Lemma spaces_atFree s : spaces s -> atFree s.
Proof. intros H. eapply Forall_impl; [exact H|]. by intros c Hc ->. Qed.

Lemma upDirs_atFree k : atFree (upDirs k).
Proof. induction k; simpl; repeat constructor; done. Qed.

Lemma definitionsImport_head stmt :
  definitionsImport stmt ->
  exists body, stmt = "@"%char :: body /\ atFree body.
Proof.
  intros (sp1 & q & k & sp2 & Hne & Hsp1 & Hq & Hsp2 & ->).
  exists ("import" ++ sp1 ++ [q] ++ upDirs k
          ++ "assets/css/definitions.css" ++ [q] ++ sp2 ++ ";").
  split; [done|].
  assert (Hqa : q <> "@"%char).
  { intros ->. done. }
  unfold atFree. rewrite !Forall_app. repeat split;
    try (by apply spaces_atFree); try apply upDirs_atFree;
    repeat constructor; done.
Qed.

(** a text free of [@] that starts a longer text also starts what precedes
    the first [@] *)
Lemma atFree_prefix body r a b :
  atFree body -> body ++ r = a ++ "@"%char :: b ->
  exists a', a = body ++ a' /\ r = a' ++ "@"%char :: b.
Proof.
  intros Hb. revert a. induction Hb as [|c body Hc Hb IH]; intros a E.
  - exists a. done.
  - destruct a as [|x a]; simpl in E.
    + injection E as -> _. done.
    + injection E as -> E. destruct (IH a E) as (a' & -> & ->).
      by exists a'.
Qed.

Lemma definitionsImport_length stmt rest :
  definitionsImport stmt -> length rest < length (stmt ++ rest).
Proof.
  intros H. destruct (definitionsImport_head stmt H) as (body & -> & _).
  rewrite length_app. simpl. lia.
Qed.

Lemma cleanedInput_stmt stmt rest :
  definitionsImport stmt -> cleanedInput (stmt ++ rest) = cleanedInput rest.
Proof.
  intros H. unfold cleanedInput.
  rewrite (replaceAll_match _ _ _ rest); [done| |].
  - by apply importRegex_complete.
  - by apply definitionsImport_length.
Qed.

Lemma cleanedInput_split_bounded n pre stmt post :
  length pre <= n -> definitionsImport stmt ->
  cleanedInput (pre ++ stmt ++ post) = cleanedInput pre ++ cleanedInput post.
Proof.
  intros Hn Hstmt. revert pre Hn.
  induction n as [n IH] using lt_wf_ind. intros pre Hn.
  destruct pre as [|c pre'].
  { simpl. by apply cleanedInput_stmt. }
  destruct (definitionsImport_head stmt Hstmt) as (body2 & E2 & _).
  destruct (importRegex ((c :: pre') ++ stmt ++ post)) as [r|] eqn:Em.
  - destruct (importRegex_sound _ _ Em) as (m & Hm & E).
    destruct (definitionsImport_head m Hm) as (body & Em2 & Hbody).
    assert (E' : body ++ r = pre' ++ "@"%char :: (body2 ++ post)
                 /\ c = "@"%char).
    { rewrite Em2, E2 in E. simpl in E. injection E as -> E. by split. }
    destruct E' as [E' ->].
    destruct (atFree_prefix _ _ _ _ Hbody E') as (pre'' & -> & _).
    replace (("@"%char :: body ++ pre'') ++ stmt ++ post)
      with (m ++ (pre'' ++ stmt ++ post))
      by (rewrite Em2; simpl; by rewrite <- app_assoc).
    replace ("@"%char :: body ++ pre'') with (m ++ pre'')
      by (by rewrite Em2).
    rewrite (cleanedInput_stmt m (pre'' ++ stmt ++ post) Hm),
            (cleanedInput_stmt m pre'' Hm).
    apply (IH (length pre'')); [|done].
    simpl in Hn. rewrite length_app in Hn. lia.
  - assert (Em' : importRegex (c :: pre') = None).
    { destruct (importRegex (c :: pre')) as [r|] eqn:Em'; [|done].
      destruct (importRegex_sound _ _ Em') as (m & Hm & E).
      rewrite E, <- app_assoc, (importRegex_complete m _ Hm) in Em. done. }
    unfold cleanedInput in *.
    change ((c :: pre') ++ stmt ++ post) with (c :: (pre' ++ stmt ++ post)) in *.
    rewrite (replaceAll_skip _ _ _ _ Em), (replaceAll_skip _ _ _ _ Em').
    simpl. f_equal. apply (IH (length pre')); [|done]. simpl in Hn. lia.
Qed.

Lemma replaceAll_seam_bounded n p rep X W :
  length X <= n -> consumes p -> seamFree p W ->
  replaceAll p rep (X ++ W) = replaceAll p rep X ++ replaceAll p rep W.
Proof.
  intros Hn Hcons Hseam. revert X Hn.
  induction n as [n IH] using lt_wf_ind. intros X Hn.
  destruct X as [|c X']; [done|].
  pose proof (Hseam (c :: X') ltac:(done)) as E.
  destruct (p (c :: X')) as [r|] eqn:Ep; cbn [option_map] in E.
  - destruct (Hcons _ _ Ep) as (m & Em).
    assert (Hlen : length (c :: X') = length m + length r)
      by (by rewrite Em, length_app).
    destruct (decide (length r < length (c :: X'))) as [Hlt|Hge].
    + rewrite (replaceAll_match p rep _ _ E)
        by (rewrite !length_app; lia).
      rewrite (replaceAll_match p rep _ _ Ep) by done.
      rewrite <- app_assoc. f_equal.
      apply (IH (length r)); simpl in *; lia.
    + unfold replaceAll.
      change ((c :: X') ++ W) with (c :: (X' ++ W)) in *.
      simpl length. simpl replaceFuel. rewrite E, Ep.
      replace (length (r ++ W) <? S (length (X' ++ W))) with false
        by (symmetry; apply Nat.ltb_ge; simpl in *; rewrite !length_app; lia).
      replace (length r <? S (length X')) with false
        by (symmetry; apply Nat.ltb_ge; simpl in *; lia).
      simpl. f_equal. apply (IH (length X')); simpl in *; lia.
  - change ((c :: X') ++ W) with (c :: (X' ++ W)) in *.
    rewrite (replaceAll_skip _ _ _ _ E), (replaceAll_skip _ _ _ _ Ep).
    simpl. f_equal. apply (IH (length X')); simpl in *; lia.
Qed.

Lemma replaceAll_seam p rep X W :
  consumes p -> seamFree p W ->
  replaceAll p rep (X ++ W) = replaceAll p rep X ++ replaceAll p rep W.
Proof. by apply (replaceAll_seam_bounded (length X)). Qed.

Lemma replaceAll_copy p rep R Y :
  copyFree p R -> replaceAll p rep (R ++ Y) = R ++ replaceAll p rep Y.
Proof.
  induction R as [|c R IH]; intros Hcopy; [done|].
  change ((c :: R) ++ Y) with (c :: (R ++ Y)).
  rewrite replaceAll_skip.
  - simpl. f_equal. apply IH. intros v v' Y' -> Hv.
    by apply (Hcopy v (c :: v') Y').
  - by apply (Hcopy (c :: R) [] Y).
Qed.

Lemma inert_intro p R :
  consumes p -> (forall Y, seamFree p (R ++ Y)) -> copyFree p R -> inert p R.
Proof.
  intros Hcons Hseam Hcopy rep X Y.
  rewrite replaceAll_seam by done. f_equal. by apply replaceAll_copy.
Qed.

Lemma consumes_lit q : consumes (lit q).
Proof. intros s r H. apply lit_Some in H. eauto. Qed.

Lemma consumes_ws0 : consumes ws0.
Proof.
  intros s r [= <-]. destruct (trimStart_spec s) as (ws & _ & E). eauto.
Qed.

Lemma consumes_andThen p q : consumes p -> consumes q -> consumes (andThen p q).
Proof.
  intros Hp Hq s r. unfold andThen. destruct (p s) as [r1|] eqn:E; [|done].
  intros H. destruct (Hp _ _ E) as (m1 & ->). destruct (Hq _ _ H) as (m2 & ->).
  exists (m1 ++ m2). by rewrite <- app_assoc.
Qed.

Lemma consumes_compile pat : consumes (compile pat).
Proof.
  destruct pat; simpl; [apply consumes_lit|].
  unfold textAlign. repeat apply consumes_andThen;
    apply consumes_lit || apply consumes_ws0.
Qed.

Lemma startsWith_iff p s : Text.startsWith p s = true <-> exists r, s = p ++ r.
Proof.
  split.
  - intros H. eexists. by apply startsWith_inv.
  - intros (r & ->). apply startsWith_app.
Qed.

Lemma prefix_clash t R Y : Text.startsWith t (R ++ Y) = true -> clash t R = true.
Proof.
  unfold clash. revert R. induction t as [|a t IH]; intros R H; [done|].
  destruct R as [|b R]; [by rewrite orb_true_r|].
  simpl in *. apply andb_true_iff in H as [Hab H].
  apply Ascii.eqb_eq in Hab as ->. rewrite Ascii.eqb_refl. simpl.
  by apply IH.
Qed.

Lemma In_tails v v' R : R = v' ++ v -> v <> [] -> In v (tails R).
Proof.
  intros -> Hv. induction v' as [|c v' IH]; simpl.
  - destruct v; [done|]. by left.
  - by right.
Qed.

Lemma In_properTails q u t : q = u ++ t -> u <> [] -> t <> [] -> In t (properTails q).
Proof.
  intros -> Hu Ht. destruct u as [|c u]; [done|]. simpl.
  by apply (In_tails t u).
Qed.

Lemma startsWith_refl p : Text.startsWith p p = true.
Proof. apply startsWith_iff. exists []. by rewrite app_nil_r. Qed.

Lemma lit_seam q W :
  (forall t, In t (properTails q) -> Text.startsWith t W = false) ->
  seamFree (lit q) W.
Proof.
  intros Hq u Hu. unfold lit.
  destruct (Text.startsWith q u) eqn:E1.
  - apply startsWith_iff in E1 as (r & ->).
    rewrite <- app_assoc, startsWith_app. simpl.
    by rewrite !skipn_app, !skipn_all, Nat.sub_diag.
  - destruct (Text.startsWith q (u ++ W)) eqn:E2; [|done].
    apply startsWith_iff in E2 as (r' & E2).
    apply app_eq_app in E2 as (l & [[E3 E4]|[E3 E4]]).
    + subst u. by rewrite startsWith_app in E1.
    + destruct l as [|x l].
      * rewrite app_nil_r in E3. subst q. by rewrite startsWith_refl in E1.
      * assert (Hin : In (x :: l) (properTails q))
          by (by apply (In_properTails q u)).
        apply Hq in Hin. subst W. by rewrite startsWith_app in Hin.
Qed.

Lemma litSeam_sound q R Y : litSeam q R = true -> seamFree (lit q) (R ++ Y).
Proof.
  intros H. apply lit_seam. intros t Ht.
  unfold litSeam in H. rewrite forallb_forall in H. specialize (H t Ht).
  destruct (Text.startsWith t (R ++ Y)) eqn:E; [|done].
  apply prefix_clash in E. by rewrite E in H.
Qed.

Lemma lit_copy q R :
  (forall v, In v (tails R) -> clash q v = false) -> copyFree (lit q) R.
Proof.
  intros H v v' Y E Hv. unfold lit.
  destruct (Text.startsWith q (v ++ Y)) eqn:E1; [|done].
  apply prefix_clash in E1. rewrite H in E1; [done|].
  by apply (In_tails v v').
Qed.

Lemma litCopy_sound q R : litCopy q R = true -> copyFree (lit q) R.
Proof.
  intros H. apply lit_copy. intros v Hv.
  unfold litCopy in H. rewrite forallb_forall in H. specialize (H v Hv).
  by destruct (clash q v).
Qed.

Lemma copyFree_andThen p q R : copyFree p R -> copyFree (andThen p q) R.
Proof.
  intros H v v' Y E Hv. unfold andThen. by rewrite (H v v' Y E Hv).
Qed.

Lemma trimStart_context u W :
  headNotSpace W = true ->
  Text.trimStart (u ++ W) = Text.trimStart u ++ W.
Proof.
  intros HW. induction u as [|c u IH]; simpl.
  - destruct W as [|x W]; [done|]. simpl in *.
    by destruct (Text.isSpace x).
  - by destruct (Text.isSpace c).
Qed.

Lemma textAlign_seam value W :
  headNotSpace W = true ->
  seamFree (lit "text-align:") W ->
  seamFree (lit value) W ->
  lit value W = None ->
  value <> [] ->
  seamFree (textAlign value) W.
Proof.
  intros HW Hq Hv HvW Hne u Hu. unfold textAlign, andThen.
  rewrite (Hq u Hu).
  destruct (lit "text-align:" u) as [u1|]; [|done]. simpl.
  unfold ws0. rewrite trimStart_context by done.
  destruct (Text.trimStart u1) as [|x u2] eqn:E.
  - simpl. rewrite HvW. unfold lit. by destruct value.
  - by rewrite (Hv (x :: u2)).
Qed.

Lemma inertFor_sound pat R :
  inertFor pat R = true -> inert (compile pat) R.
Proof.
  destruct pat as [q|value]; simpl; intros H.
  - apply andb_true_iff in H as [H1 H2].
    apply inert_intro; [apply consumes_lit| |by apply litCopy_sound].
    intros Y. by apply litSeam_sound.
  - repeat (apply andb_true_iff in H as [H ?]).
    apply inert_intro.
    + apply (consumes_compile (TextAlign value)).
    + intros Y. rewrite forallb_forall in *.
      assert (Hne : value <> []).
      { intros ->. done. }
      apply textAlign_seam; try done.
      * destruct R; [done|]. done.
      * by apply litSeam_sound.
      * apply lit_seam. intros t Ht.
        destruct (Text.startsWith t (R ++ Y)) eqn:E; [|done].
        apply prefix_clash in E.
        assert (Hin : In t (tails value)).
        { destruct value as [|c v]; [done|]. simpl in *. by right. }
        specialize (H1 t Hin). by rewrite E in H1.
      * unfold lit. destruct (Text.startsWith value (R ++ Y)) eqn:E; [|done].
        apply prefix_clash in E.
        assert (Hin : In value (tails value)).
        { destruct value as [|c v]; [done|]. by left. }
        specialize (H1 value Hin). by rewrite E in H1.
    + unfold textAlign. do 2 apply copyFree_andThen. by apply litCopy_sound.
Qed.

Lemma replaceAll_hit q rep X Y :
  q <> [] -> litSeam q q = true ->
  replaceAll (lit q) rep (X ++ q ++ Y)
  = replaceAll (lit q) rep X ++ rep ++ replaceAll (lit q) rep Y.
Proof.
  intros Hq Hs.
  rewrite replaceAll_seam; [|apply consumes_lit|by apply litSeam_sound].
  f_equal. apply replaceAll_match; [apply lit_app|].
  rewrite length_app. destruct q; [done|simpl; lia].
Qed.

Lemma boundary_not_in q d x :
  overNames q = true -> isBoundary d = true -> In x q -> Ascii.eqb x d = false.
Proof.
  intros Hq Hd Hx. unfold overNames in Hq. rewrite forallb_forall in Hq.
  specialize (Hq x Hx). apply Ascii.eqb_neq. intros ->.
  unfold isBoundary in Hd. apply andb_true_iff in Hd as [H1 H2].
  destruct (isNameChar d); [done|]. simpl in Hq. by rewrite Hq in H2.
Qed.

Lemma tails_head t s : In t (tails s) -> exists x t', t = x :: t' /\ In x s.
Proof.
  induction s as [|c s IH]; simpl; [done|].
  intros [<-|H]; [exists c, s; split; [done|by left]|].
  destruct (IH H) as (x & t' & -> & Hx). exists x, t'. split; [done|by right].
Qed.

Lemma lit_inert_boundary q d :
  q <> [] -> overNames q = true -> isBoundary d = true -> inert (lit q) [d].
Proof.
  intros Hne Hq Hd. apply inert_intro; [apply consumes_lit| |].
  - intros Y. apply lit_seam. intros t Ht.
    destruct q as [|c q']; [done|]. simpl in Ht.
    destruct (tails_head _ _ Ht) as (x & t' & -> & Hx). simpl.
    rewrite (boundary_not_in (c :: q') d x); [done..|by right].
  - intros v v' Y E Hv. destruct v' as [|? [|]]; simpl in E.
    + subst v. unfold lit. destruct q as [|c q']; [done|]. simpl.
      rewrite (boundary_not_in (c :: q') d c); [done..|by left].
    + destruct v; [done|]. done.
    + done.
Qed.

Lemma fold_inert rules R X Y :
  Forall (fun rule => inert (compile (fst rule)) R) rules ->
  applyRules rules (X ++ R ++ Y) = applyRules rules X ++ R ++ applyRules rules Y.
Proof.
  intros H. revert X Y. induction H as [|rule rules Hr _ IH]; intros X Y; [done|].
  change (applyRules (rule :: rules) ?s)
    with (applyRules rules (replaceAll (compile (fst rule)) (snd rule) s)).
  by rewrite Hr, IH.
Qed.

Lemma snoc_inert p rep d X :
  inert p [d] -> replaceAll p rep (X ++ [d]) = replaceAll p rep X ++ [d].
Proof.
  intros H. specialize (H rep X []). by rewrite app_nil_r in H.
Qed.

Lemma fold_guard rules d P X Y :
  Forall (fun rule => inert (compile (fst rule)) [d]
                      /\ copyFree (compile (fst rule)) P) rules ->
  applyRules rules (X ++ d :: P ++ Y) = applyRules rules (X ++ [d]) ++ P ++ applyRules rules Y.
Proof.
  intros H. revert X Y.
  induction H as [|rule rules [Hi Hc] _ IH]; intros X Y.
  { unfold applyRules. simpl. by rewrite <- app_assoc. }
  change (applyRules (rule :: rules) ?s)
    with (applyRules rules (replaceAll (compile (fst rule)) (snd rule) s)).
  rewrite (snoc_inert _ _ _ _ Hi).
  change (X ++ d :: P ++ Y) with (X ++ [d] ++ (P ++ Y)).
  rewrite Hi, replaceAll_copy by done. apply IH.
Qed.

Lemma forallb_Forall {A} (f : A -> bool) (P : A -> Prop) l :
  (forall x, f x = true -> P x) -> forallb f l = true -> Forall P l.
Proof.
  intros HfP H. rewrite forallb_forall in H. apply Forall_forall.
  intros x Hx. apply HfP, H. by apply list_elem_of_In.
Qed.

Lemma later_inert i R X Y :
  forallb (fun rule => inertFor (fst rule) R) (laterRules i) = true ->
  applyRules (laterRules i) (X ++ R ++ Y)
  = applyRules (laterRules i) X ++ R ++ applyRules (laterRules i) Y.
Proof.
  intros H. apply fold_inert.
  eapply forallb_Forall; [|exact H]. intros rule Hr. by apply inertFor_sound.
Qed.

Lemma rtlSubstitute_margin_left A Z :
  rtlSubstitute (A ++ "margin-left:" ++ Z)
  = rtlSubstitute A ++ "margin-inline-start:" ++ rtlSubstitute Z.
Proof.
  change (rtlSubstitute ?s)
    with (applyRules (laterRules 0) (replaceAll (lit "margin-left:")
                                 "margin-inline-start:" s)).
  rewrite replaceAll_hit by (done || (vm_compute; reflexivity)).
  apply later_inert. vm_compute. reflexivity.
Qed.

Lemma firstSix_guard d :
  isBoundary d = true ->
  Forall (fun rule => inert (compile (fst rule)) [d]
                      /\ copyFree (compile (fst rule)) "left:") firstSix.
Proof.
  intros Hd. unfold firstSix, rtlReplacements. simpl firstn.
  repeat constructor; simpl;
    solve [ apply lit_inert_boundary; [done|vm_compute; reflexivity|done]
          | apply litCopy_sound; vm_compute; reflexivity ].
Qed.

Lemma rtlSubstitute_left X d Y :
  isBoundary d = true ->
  rtlSubstitute (X ++ d :: "left:" ++ Y)
  = rtlSubstitute (X ++ [d]) ++ "inset-inline-start:" ++ rtlSubstitute Y.
Proof.
  intros Hd.
  change (rtlSubstitute ?s)
    with (applyRules (laterRules 6)
            (replaceAll (lit "left:") "inset-inline-start:" (applyRules firstSix s))).
  rewrite (fold_guard firstSix d "left:") by (by apply firstSix_guard).
  rewrite replaceAll_hit by (done || (vm_compute; reflexivity)).
  apply later_inert. vm_compute. reflexivity.
Qed.

End RegexFacts.


(** ** The import pattern of the CSS Transform Stage *)

(** C5, as the code has it.  [minifyCss] deletes every import statement
    of the one shape its pattern describes: [@import], white space, a
    quote (single or double), any number of [../], the path
    [assets/css/definitions.css], the same quote, optional white space,
    a semicolon.  Wherever such a statement stands, the cleaned text is
    the cleaned text before it followed by the cleaned text after it. *)
Theorem cleanedInput_strips_import (pre stmt post : list ascii) :
  RegexSpec.definitionsImport stmt ->
  cleanedInput (pre ++ stmt ++ post) = cleanedInput pre ++ cleanedInput post.
Proof. by apply (RegexFacts.cleanedInput_split_bounded (length pre)). Qed.

(** An import through two [../], between single quotes, in the middle of
    a style sheet. *)
Lemma cleanedInput_strips_import_witness :
  cleanedInput (".a{}" ++ "@import  '../../assets/css/definitions.css' ;"
                ++ ".b{}")
  = text_of_string ".a{}.b{}".
Proof.
  rewrite (cleanedInput_strips_import
             ".a{}" "@import  '../../assets/css/definitions.css' ;" ".b{}").
  - vm_compute. reflexivity.
  - exists "  ", "'"%char, 2, " ". vm_compute.
    repeat split; try discriminate; repeat constructor.
Defined.

(** C5, as stated, fails.  An import of the definitions file through
    [./] is not of the shape the pattern describes: the text handed to
    the minifier is the input, import statement included. *)
Lemma cleanedInput_keeps_dot_slash_import :
  let input : list ascii :=
    "@import './assets/css/definitions.css';.a{color:red}" in
  cleanedInput input = input
  /\ Text.includes "@import './assets/css/definitions.css';"
                   (cleanedInput input) = true.
Proof. split; vm_compute; reflexivity. Qed.

(** ** The RTL substitutions *)

(** C6.  For a text with a [margin-left:] declaration and a standalone
    [left:] (one that follows a code unit which is neither part of a
    property name nor a colon), in either order, the chain of
    [generateRtlCss] puts [margin-inline-start:] in place of the first
    and [inset-inline-start:] in place of the second, and rewrites the
    text before, between and after them on its own.  No property is
    substituted twice: once one of the eight property rules has written
    its replacement, the rules that come after it leave that replacement
    as it is, whatever surrounds it. *)
Theorem rtlSubstitute_no_double_substitution (A B C : list ascii) (d : ascii) :
  RegexSpec.isBoundary d = true ->
  rtlSubstitute (A ++ "margin-left:" ++ B ++ d :: "left:" ++ C)
  = rtlSubstitute A ++ "margin-inline-start:"
    ++ rtlSubstitute (B ++ [d]) ++ "inset-inline-start:" ++ rtlSubstitute C
  /\ rtlSubstitute (A ++ d :: "left:" ++ B ++ "margin-left:" ++ C)
     = rtlSubstitute (A ++ [d]) ++ "inset-inline-start:"
       ++ rtlSubstitute B ++ "margin-inline-start:" ++ rtlSubstitute C
  /\ forall (i : nat) (q r : list ascii),
       nth_error rtlReplacements i = Some (Literal q, r) ->
       forall X Y,
         RegexSpec.applyRules (RegexSpec.laterRules i) (X ++ r ++ Y)
         = RegexSpec.applyRules (RegexSpec.laterRules i) X ++ r
           ++ RegexSpec.applyRules (RegexSpec.laterRules i) Y.
Proof.
  intros Hd. split; [|split].
  - rewrite RegexFacts.rtlSubstitute_margin_left.
    by rewrite RegexFacts.rtlSubstitute_left.
  - rewrite RegexFacts.rtlSubstitute_left by done.
    by rewrite RegexFacts.rtlSubstitute_margin_left.
  - intros i q r Hi X Y.
    do 8 (destruct i as [|i];
          [simpl in Hi; simplify_eq; apply RegexFacts.later_inert;
           vm_compute; reflexivity|]).
    do 2 (destruct i as [|i]; [done|]). by destruct i.
Qed.

(** Two declarations of one rule, the second after a semicolon. *)
Lemma rtlSubstitute_no_double_substitution_witness :
  RegexSpec.isBoundary ";" = true
  /\ rtlSubstitute (".a{" ++ "margin-left:" ++ "1px" ++ ";"%char :: "left:"
                    ++ "2px}")
     = text_of_string ".a{margin-inline-start:1px;inset-inline-start:2px}".
Proof.
  split; [reflexivity|].
  rewrite (proj1 (rtlSubstitute_no_double_substitution
                    ".a{" "1px" "2px}" ";" eq_refl)).
  vm_compute. reflexivity.
Defined.

(** ** Frames of the effectful stages *)

Import Frame.

Lemma onlyWrites_refl Q w : onlyWrites Q w w.
Proof. by repeat split. Qed.

Lemma onlyWrites_trans Q w1 w2 w3 :
  onlyWrites Q w1 w2 -> onlyWrites Q w2 w3 -> onlyWrites Q w1 w3.
Proof.
  intros ((A1 & A2 & A3) & A4 & A5) ((B1 & B2 & B3) & B4 & B5).
  repeat split; try congruence.
  - intros p Hp. by rewrite B4, A4.
  - auto.
Qed.

Lemma onlyWrites_weaken (Q Q' : list ascii -> Prop) w w' :
  (forall p, Q p -> Q' p) -> onlyWrites Q w w' -> onlyWrites Q' w w'.
Proof.
  intros HQ (A & B & C). repeat split; try apply A; auto.
Qed.

Create HintDb confined.

Lemma confined_ret {A} Q (a : A) : confined Q (ret a).
Proof. intros w. apply onlyWrites_refl. Qed.

Lemma confined_throw {A} Q e : confined Q (@throw A e).
Proof. intros w. apply onlyWrites_refl. Qed.

Lemma confined_liftResult {A} Q (r : Result A) : confined Q (liftResult r).
Proof. intros w. apply onlyWrites_refl. Qed.

Lemma confined_log Q e : confined Q (log e).
Proof. intros w. by repeat split. Qed.

Lemma confined_stat Q p : confined Q (stat p).
Proof. intros w. unfold stat. destruct (files w !! p); apply onlyWrites_refl. Qed.

Lemma confined_readTextFile Q p : confined Q (readTextFile p).
Proof.
  intros w. unfold readTextFile. destruct (files w !! p); apply onlyWrites_refl.
Qed.

Lemma confined_ensureDirSync Q sv p : confined Q (ensureDirSync sv p).
Proof.
  intros w. unfold ensureDirSync.
  destruct (ensureDirFails sv w p); apply onlyWrites_refl.
Qed.

Lemma confined_writeTextFile (Q : list ascii -> Prop) sv p data :
  Q p -> confined Q (writeTextFile sv p data).
Proof.
  intros HQ w. unfold writeTextFile.
  destruct (writeFails sv w p); [apply onlyWrites_refl|].
  repeat split; simpl.
  - intros p' Hp'. rewrite lookup_insert_ne; [done|]. by intros ->.
  - intros p' Hp'. destruct (decide (p = p')) as [->|Hne].
    + rewrite lookup_insert_eq. eauto.
    + by rewrite lookup_insert_ne.
Qed.

Lemma confined_bind {A B} Q (m : M A) (k : A -> M B) :
  confined Q m -> (forall a, confined Q (k a)) -> confined Q (bind m k).
Proof.
  intros Hm Hk w. unfold bind. specialize (Hm w).
  destruct (m w) as [[a|e] w']; simpl in *; [|done].
  eapply onlyWrites_trans; [exact Hm|apply Hk].
Qed.

Lemma confined_tryCatch {A} Q (m : M A) (h : Exn -> M A) :
  confined Q m -> (forall e, confined Q (h e)) -> confined Q (tryCatch m h).
Proof.
  intros Hm Hh w. unfold tryCatch. specialize (Hm w).
  destruct (m w) as [[a|e] w']; simpl in *; [done|].
  eapply onlyWrites_trans; [exact Hm|apply Hh].
Qed.

Lemma confined_when Q (b : bool) m : confined Q m -> confined Q (when b m).
Proof. intros Hm. destruct b; [done|apply confined_ret]. Qed.

Lemma confined_if {A} Q (b : bool) (m1 m2 : M A) :
  confined Q m1 -> confined Q m2 -> confined Q (if b then m1 else m2).
Proof. by destruct b. Qed.

Lemma confined_weaken {A} (Q Q' : list ascii -> Prop) (m : M A) :
  (forall p, Q p -> Q' p) -> confined Q m -> confined Q' m.
Proof. intros HQ Hm w. eapply onlyWrites_weaken; [exact HQ|apply Hm]. Qed.

#[local] Hint Resolve confined_ret confined_throw confined_liftResult confined_log
  confined_stat confined_readTextFile confined_ensureDirSync
  confined_when confined_if : confined.

Ltac confined_step :=
  match goal with
  | |- confined _ (bind _ _) => apply confined_bind; [|intros ?]
  | |- confined _ (tryCatch _ _) => apply confined_tryCatch; [|intros ?]
  | |- confined _ (when _ _) => apply confined_when
  | |- confined _ (if _ then _ else _) => apply confined_if
  | |- confined _ (match ?x with _ => _ end) => destruct x
  | |- confined _ (let _ := _ in _) => cbv zeta
  | |- confined _ (writeTextFile _ _ _) => apply confined_writeTextFile
  | |- confined _ _ => solve [auto with confined]
  end.

Lemma confined_removePrependedDefinitions Q f d c x :
  confined Q (removePrependedDefinitions f d c x).
Proof. unfold removePrependedDefinitions. repeat confined_step. Qed.

Lemma confined_minifyCss Q sv input f r : confined Q (minifyCss sv input f r).
Proof.
  unfold minifyCss. repeat confined_step.
  apply confined_removePrependedDefinitions.
Qed.

Lemma confined_minifyJavaScript Q sv input f : confined Q (minifyJavaScript sv input f).
Proof. unfold minifyJavaScript. repeat confined_step. Qed.

Lemma confined_generateRtlCss Q sv input f : confined Q (generateRtlCss sv input f).
Proof. unfold generateRtlCss. repeat confined_step. apply confined_minifyCss. Qed.

Lemma confined_isSourceNewer Q p : confined Q (isSourceNewer p).
Proof.
  unfold isSourceNewer. repeat confined_step.
  intros w. unfold stat.
  repeat (destruct (files w !! _) || destruct (_ && _); simpl);
    apply onlyWrites_refl.
Qed.

Lemma confined_writeLtr sv f input : confined (ltrPaths f) (writeLtr sv f input).
Proof.
  unfold writeLtr. repeat confined_step.
  - apply confined_minifyCss.
  - by left.
  - by right.
Qed.

Lemma confined_writeRtl sv f input : confined (rtlPaths f) (writeRtl sv f input).
Proof.
  unfold writeRtl. repeat confined_step.
  - apply confined_generateRtlCss.
  - by left.
  - by right.
Qed.

Lemma confined_processCss sv f input : confined (fun _ => True) (processCss sv f input).
Proof.
  unfold processCss. repeat confined_step.
  - eapply confined_weaken; [|apply confined_writeLtr]. done.
  - eapply confined_weaken; [|apply confined_writeRtl]. done.
Qed.

Lemma confined_processJs sv f input o : confined (fun _ => True) (processJs sv f input o).
Proof.
  unfold processJs. repeat confined_step; try done.
  apply confined_minifyJavaScript.
Qed.

Lemma confined_processBody sv f : confined (fun _ => True) (processBody sv f).
Proof.
  unfold processBody. repeat confined_step.
  - apply confined_processCss.
  - apply confined_processJs.
Qed.

Lemma isSourceNewer_total p w : exists b w', isSourceNewer p w = (Ok b, w').
Proof.
  unfold isSourceNewer, tryCatch, bind, stat, log, ret.
  destruct (files w !! p); [|eauto].
  destruct (files w !! getDestPath p false); [|eauto].
  destruct (_ && _); [|eauto].
  destruct (files w !! getDestPath p true); eauto.
Qed.

Lemma processFile_inflight sv P force w :
  P ∈ processingFiles w -> processFile sv P force w = (Ok (VBool false), w).
Proof. intros H. unfold processFile. by rewrite bool_decide_eq_true_2. Qed.

Lemma processFile_derived sv P force w :
  Text.includes ".min" (Path.name (Path.parse P)) = true ->
  processFile sv P force w = (Ok (VBool false), w).
Proof. intros H. unfold processFile. rewrite H. by case_bool_decide. Qed.

Lemma processFile_skip sv P force w w1 :
  P ∉ processingFiles w ->
  Text.includes ".min" (Path.name (Path.parse P)) = false ->
  freshness P force w = (Ok false, w1) ->
  processFile sv P force w = (Ok (VBool false), w1).
Proof.
  intros H1 H2 H3. unfold processFile.
  rewrite bool_decide_eq_false_2, H2 by done.
  unfold bind. by rewrite H3.
Qed.

Lemma processFile_run sv P force w w1 :
  P ∉ processingFiles w ->
  Text.includes ".min" (Path.name (Path.parse P)) = false ->
  freshness P force w = (Ok true, w1) ->
  processFile sv P force w
  = match processBody sv P (entered P w1) with
    | (Ok v, w2) => (Ok v, released P w2)
    | (Throw error, w2) =>
        (Ok (VBool false),
         released P
           (snd (when (negb (Text.includes "CSS minification" (exnText error))
                       && negb (Text.includes "javascript minification"
                                              (exnText error)))
                      (log (ErrProcessing P)) w2)))
    end.
Proof.
  intros H1 H2 H3. unfold processFile.
  rewrite bool_decide_eq_false_2, H2 by done.
  unfold bind at 1. rewrite H3.
  change (negb true) with false. cbv iota.
  unfold bind at 1, tryFinally, tryCatch.
  destruct (processBody sv P _) as [[v|e] w2]; [done|].
  unfold bind, when. destruct (_ && _); done.
Qed.

Lemma freshness_total P force w : exists b w', freshness P force w = (Ok b, w').
Proof. destruct force; [by eexists _, _|apply isSourceNewer_total]. Qed.

Lemma confined_freshness Q P force : confined Q (freshness P force).
Proof. destruct force; [apply confined_ret|apply confined_isSourceNewer]. Qed.

Lemma processFile_total sv P force w :
  exists v w', processFile sv P force w = (Ok v, w').
Proof.
  destruct (decide (P ∈ processingFiles w)) as [Hin|Hin].
  { rewrite processFile_inflight by done. eauto. }
  destruct (Text.includes ".min" (Path.name (Path.parse P))) eqn:Hmin.
  { rewrite processFile_derived by done. eauto. }
  destruct (freshness_total P force w) as ([|] & w1 & Hf).
  - rewrite (processFile_run sv P force w w1) by done.
    destruct (processBody sv P (entered P w1)) as [[v|e] w2]; eauto.
  - rewrite (processFile_skip sv P force w w1) by done. eauto.
Qed.

Lemma processFile_frame sv P force w :
  onlyWrites (fun _ => True) w (snd (processFile sv P force w)).
Proof.
  destruct (decide (P ∈ processingFiles w)) as [Hin|Hin].
  { rewrite processFile_inflight by done. apply onlyWrites_refl. }
  destruct (Text.includes ".min" (Path.name (Path.parse P))) eqn:Hmin.
  { rewrite processFile_derived by done. apply onlyWrites_refl. }
  pose proof (confined_freshness (fun _ => True) P force w) as Hw1.
  destruct (freshness_total P force w) as ([|] & w1 & Hf); rewrite Hf in Hw1;
    simpl in Hw1.
  - rewrite (processFile_run sv P force w w1) by done.
    pose proof (confined_processBody sv P (entered P w1)) as Hb.
    assert (Hrel : forall w2, onlyWrites (fun _ => True) (entered P w1) w2 ->
                              onlyWrites (fun _ => True) w (released P w2)).
    { intros w2 ((B1 & B2 & B3) & B4 & B5).
      destruct Hw1 as ((A1 & A2 & A3) & A4 & A5).
      assert (Hset : ({[P]} ∪ processingFiles w) ∖ {[P]} = processingFiles w).
      { apply set_eq. intros x.
        rewrite elem_of_difference, elem_of_union, elem_of_singleton.
        split; [by intros [[->|?] ?]|].
        intros Hx. split; [by right|]. by intros ->. }
      repeat split; simpl in *; try congruence.
      - intros p Hp. done.
      - intros p Hp. apply B5. simpl. by apply A5. }
    destruct (processBody sv P (entered P w1)) as [[v|e] w2]; simpl in *.
    + by apply Hrel.
    + apply Hrel. eapply onlyWrites_trans; [exact Hb|].
      apply confined_when, confined_log.
  - by rewrite (processFile_skip sv P force w w1) by done.
Qed.

Lemma processBody_true sv P w w2 :
  processBody sv P w = (Ok (VBool true), w2) -> is_Some (files w !! P).
Proof.
  unfold processBody. destruct (_ && _); [done|].
  unfold bind at 1, readTextFile. destruct (files w !! P); [eauto|done].
Qed.

Lemma processFile_true_source sv P force w w1 :
  processFile sv P force w = (Ok (VBool true), w1) -> is_Some (files w1 !! P).
Proof.
  intros H.
  destruct (decide (P ∈ processingFiles w)) as [Hin|Hin].
  { by rewrite processFile_inflight in H. }
  destruct (Text.includes ".min" (Path.name (Path.parse P))) eqn:Hmin.
  { by rewrite processFile_derived in H. }
  destruct (freshness_total P force w) as ([|] & w0 & Hf).
  - rewrite (processFile_run sv P force w w0) in H by done.
    pose proof (confined_processBody sv P (entered P w0)) as (_ & _ & Hb).
    destruct (processBody sv P (entered P w0)) as [[v|e] w2] eqn:Eb; [|done].
    injection H as -> <-. apply processBody_true in Eb as Hs.
    simpl in *. by apply Hb.
  - by rewrite (processFile_skip sv P force w w0) in H.
Qed.

Lemma writeRtl_total sv f input w : exists w', writeRtl sv f input w = (Ok tt, w').
Proof.
  unfold writeRtl, when.
  change (RTL_CONFIG.enabled && RTL_CONFIG.generateSeparateFiles) with true.
  cbv iota. unfold tryCatch.
  match goal with |- context [match ?m w with _ => _ end] => destruct (m w) as [[[]|e] w1] end.
  - eauto.
  - unfold log. eauto.
Qed.

Lemma dest_paths_apart f :
  ~ rtlPaths f (getDestPath f false)
  /\ ~ rtlPaths f (getDestPath f false ++ ".map").
Proof.
  unfold rtlPaths. rewrite !PathFacts.getDestPath_shape.
  set (D := PathSpec.dirPrefix _). set (n := Path.name _). set (e := Path.ext _).
  split; intros [H|H].
  - apply app_inv_head in H. apply app_inv_head in H. simpl in H. done.
  - rewrite <- !app_assoc in H.
    apply app_inv_head in H. apply app_inv_head in H. simpl in H. done.
  - rewrite <- !app_assoc in H.
    apply app_inv_head in H. apply app_inv_head in H. simpl in H. done.
  - rewrite <- !app_assoc in H.
    apply app_inv_head in H. apply app_inv_head in H. simpl in H. done.
Qed.

Lemma bind_ok {A B} (m : M A) (k : A -> M B) w a w' :
  m w = (Ok a, w') -> bind m k w = k a w'.
Proof. intros H. unfold bind. by rewrite H. Qed.

Lemma bind_inv_ok {A B} (m : M A) (k : A -> M B) w b w2 :
  bind m k w = (Ok b, w2) ->
  exists a w1, m w = (Ok a, w1) /\ k a w1 = (Ok b, w2).
Proof.
  unfold bind. destruct (m w) as [[a|e] w1]; [eauto|done].
Qed.

Lemma processBody_supported sv P w v w' :
  (negb (Text.eqb (Text.toLowerCase (Path.extname P)) CSS_EXT)
   && negb (Text.eqb (Text.toLowerCase (Path.extname P)) JS_EXT)) = false ->
  processBody sv P w = (Ok v, w') -> v = VBool true.
Proof.
  intros Hext. unfold processBody. rewrite Hext.
  intros H. apply bind_inv_ok in H as (input & w1 & _ & H).
  apply bind_inv_ok in H as ([] & w2 & _ & H).
  apply bind_inv_ok in H as ([] & w3 & _ & H).
  by injection H as <- _.
Qed.

Lemma processFile_undefined_only_unsupported sv P force w :
  fst (processFile sv P force w) = Ok VUndefined ->
  (negb (Text.eqb (Text.toLowerCase (Path.extname P)) CSS_EXT)
   && negb (Text.eqb (Text.toLowerCase (Path.extname P)) JS_EXT)) = true.
Proof.
  intros H.
  destruct (decide (P ∈ processingFiles w)) as [Hin|Hin].
  { by rewrite processFile_inflight in H. }
  destruct (Text.includes ".min" (Path.name (Path.parse P))) eqn:Hmin.
  { by rewrite processFile_derived in H. }
  destruct (freshness_total P force w) as ([|] & w0 & Hf).
  - rewrite (processFile_run sv P force w w0) in H by done.
    destruct (processBody sv P (entered P w0)) as [[v|e] w2] eqn:Eb; [|done].
    simpl in H. injection H as ->.
    destruct (negb _ && negb _) eqn:Hext; [done|].
    by apply (processBody_supported _ _ _ _ _ Hext) in Eb.
  - by rewrite (processFile_skip sv P force w w0) in H.
Qed.

Lemma watchPath_unregistered (sv : Services)
  (directory fileExtension path : list ascii) (w : World) :
  watchedDirectories w !! (directory ++ ":" ++ fileExtension) = None ->
  Text.endsWith fileExtension path = true ->
  Text.includes ".min" (Path.name (Path.parse path)) = false ->
  let w' := snd (watchPath sv directory fileExtension path w) in
  watchPath sv directory fileExtension path w
  = (processFile sv path true ;;; ret tt) w
  /\ watchedDirectories w' = watchedDirectories w
  /\ timers w' = timers w.
Proof.
  intros Hkey Hext Hmin w'.
  assert (E : watchPath sv directory fileExtension path w
              = (processFile sv path true ;;; ret tt) w).
  { unfold watchPath. by rewrite Hext, Hmin, Hkey. }
  split; [exact E|]. subst w'. rewrite E. unfold bind.
  pose proof (processFile_frame sv path true w) as ((_ & Hwd & Ht) & _).
  destruct (processFile sv path true w) as [[v|e] w1]; simpl in *; done.
Qed.

Lemma watchPath_registered (sv : Services)
  (directory fileExtension path : list ascii) (w : World)
  (watchedFiles : gset (list ascii)) :
  watchedDirectories w !! (directory ++ ":" ++ fileExtension)
  = Some watchedFiles ->
  Text.endsWith fileExtension path = true ->
  Text.includes ".min" (Path.name (Path.parse path)) = false ->
  let dirKey := directory ++ ":" ++ fileExtension in
  let w' := snd (watchPath sv directory fileExtension path w) in
  if bool_decide (path ∈ watchedFiles)
  then watchPath sv directory fileExtension path w = (Ok tt, w)
  else watchedDirectories w' !! dirKey = Some ({[path]} ∪ watchedFiles)
       /\ timers w' = timers w ++ [(dirKey, path)].
Proof.
  intros Hkey Hext Hmin dirKey w'. subst w'. unfold watchPath.
  rewrite Hext, Hmin, Hkey. case_bool_decide; [done|].
  unfold bind.
  set (w0 := withWatched _ _ w).
  pose proof (processFile_frame sv path true w0) as ((_ & Hwd & Ht) & _).
  destruct (processFile sv path true w0) as [[v|e] w1]; simpl in *;
    rewrite Hwd, Ht; by rewrite lookup_insert_eq.
Qed.

(** ** The Freshness Checker *)

(** C2.  [isSourceNewer] always answers, and it answers true exactly
    when [Deno.stat] fails on the source, or the main destination is
    missing, or (for a CSS source) the RTL destination is missing, or the
    source's modification time is strictly greater than that of the main
    destination or (for a CSS source) of the RTL destination.  A missing
    destination gives true whatever the source's time is. *)
Theorem isSourceNewer_iff (sourcePath : list ascii) (w : World) :
  exists (b : bool) (w' : World),
    isSourceNewer sourcePath w = (Ok b, w')
    /\ (b = true <->
        files w !! sourcePath = None
        \/ files w !! getDestPath sourcePath false = None
        \/ (isCss sourcePath /\ files w !! getDestPath sourcePath true = None)
        \/ newerThan sourcePath (getDestPath sourcePath false) w
        \/ (isCss sourcePath
            /\ newerThan sourcePath (getDestPath sourcePath true) w)).
Proof.
  unfold isSourceNewer, tryCatch, bind, stat, log, ret, newerThan, isCss, Text.eqb.
  destruct (files w !! sourcePath) as [s|] eqn:Es;
    [|eexists _, _; split; [done|]; by intuition].
  destruct (files w !! getDestPath sourcePath false) as [m|] eqn:Em;
    [|eexists _, _; split; [done|]; by intuition].
  change (RTL_CONFIG.enabled) with true.
  change (RTL_CONFIG.generateSeparateFiles) with true.
  rewrite !andb_true_r.
  case_bool_decide as Hcss.
  - destruct (files w !! getDestPath sourcePath true) as [r|] eqn:Er.
    + eexists _, _; split; [done|]. rewrite orb_true_iff, !Z.ltb_lt. split.
      * intros [H|H];
          [right; right; right; left
          |right; right; right; right; split; [done|]];
          eauto 10.
      * intros [?|[?|[[_ ?]|[(s' & d' & ? & ? & ?)
                            |[_ (s' & d' & ? & ? & ?)]]]]];
          simplify_eq; auto.
    + eexists _, _; split; [done|]. by intuition.
  - eexists _, _; split; [done|]. rewrite Z.ltb_lt. split.
    + intros H. right; right; right; left. eauto 10.
    + intros [?|[?|[[? _]|[(s' & d' & ? & ? & ?)|[? _]]]]]; simplify_eq; auto.
Qed.

(** ** The File Processor *)

(** The freshness guard: in a world where the source is there and the
    destination (for a CSS source, the RTL destination too) is there with
    a modification time not before the source's, a call without force
    returns false and leaves the world as it is. *)
Lemma processFile_skips_when_fresh (sv : Services) (P : list ascii)
  (w1 : World) :
  is_Some (files w1 !! P) ->
  (forall s, files w1 !! P = Some s ->
     exists m, files w1 !! getDestPath P false = Some m
               /\ (timeOf (mtime s) <= timeOf (mtime m))%Z) ->
  (isCss P -> forall s, files w1 !! P = Some s ->
     exists r, files w1 !! getDestPath P true = Some r
               /\ (timeOf (mtime s) <= timeOf (mtime r))%Z) ->
  processFile sv P false w1 = (Ok (VBool false), w1).
Proof.
  intros [s Hs] Hmain Hrtl.
  destruct (decide (P ∈ processingFiles w1)) as [Hin|Hin].
  { by apply processFile_inflight. }
  destruct (Text.includes ".min" (Path.name (Path.parse P))) eqn:Hmin.
  { by apply processFile_derived. }
  apply processFile_skip; [done..|].
  destruct (Hmain s Hs) as (m & Hm & Hle).
  unfold freshness, isSourceNewer, tryCatch, bind, stat, Text.eqb.
  rewrite Hs, Hm.
  change (RTL_CONFIG.enabled) with true.
  change (RTL_CONFIG.generateSeparateFiles) with true.
  rewrite !andb_true_r.
  case_bool_decide as Hcss.
  - destruct (Hrtl Hcss s Hs) as (r & Hr & Hle'). rewrite Hr.
    unfold ret. do 2 f_equal.
    apply orb_false_iff. split; apply Z.ltb_ge; done.
  - unfold ret. do 2 f_equal. by apply Z.ltb_ge.
Qed.

(** C7.  For a CSS source that passes the guards of [processFile]: when
    the source is read, the output directory ensured and the LTR variant
    minified and written, [processFile] returns true, whatever the RTL
    stage does, and the LTR file and its map are afterwards what the LTR
    stage wrote. *)
Theorem rtl_failure_keeps_ltr (sv : Services) (filePath : list ascii)
  (force : bool) (w w1 w2 : World) (ltrResult : TransformResult) :
  filePath ∉ processingFiles w ->
  Text.includes ".min" (Path.name (Path.parse filePath)) = false ->
  freshness filePath force w = (Ok true, w1) ->
  isCss filePath ->
  (input <- readTextFile filePath ;;
   ensureDirSync sv (Path.dirname (getDestPath filePath false)) ;;;
   writeLtr sv filePath input) (entered filePath w1) = (Ok ltrResult, w2) ->
  exists w3,
    processFile sv filePath force w = (Ok (VBool true), w3)
    /\ files w3 !! getDestPath filePath false
       = files w2 !! getDestPath filePath false
    /\ files w3 !! (getDestPath filePath false ++ ".map")
       = files w2 !! (getDestPath filePath false ++ ".map").
Proof.
  intros Hin Hmin Hfresh Hcss Hltr.
  rewrite (processFile_run sv filePath force w w1) by done.
  unfold processBody, Text.eqb.
  rewrite (bool_decide_eq_true_2 _ Hcss).
  change (negb true
          && negb (bool_decide
                     (Text.toLowerCase (Path.extname filePath) = JS_EXT)))
    with false.
  cbv iota.
  apply bind_inv_ok in Hltr as (input & wa & Hread & Hltr).
  apply bind_inv_ok in Hltr as ([] & wb & Hdir & Hltr).
  destruct (writeRtl_total sv filePath input w2) as (w3 & Ertl).
  pose proof (confined_writeRtl sv filePath input w2) as (_ & Hfr & _).
  rewrite Ertl in Hfr. simpl in Hfr.
  destruct (dest_paths_apart filePath) as [Ha Hb].
  rewrite (bind_ok _ _ _ _ _ Hread), (bind_ok _ _ _ _ _ Hdir).
  unfold processCss.
  rewrite (bind_ok (_ <- writeLtr sv filePath input;; _) _ wb tt
             (snd (when (truthy (map ltrResult))
                        (log (InfoLtrMap (getDestPath filePath false ++ ".map")))
                        (snd (log (InfoLtrGenerated filePath
                                     (getDestPath filePath false)) w3))))).
  - eexists. split; [reflexivity|]. unfold when, log.
    destruct (truthy (map ltrResult)); simpl; split; by apply Hfr.
  - rewrite (bind_ok _ _ _ _ _ Hltr), (bind_ok _ _ _ _ _ Ertl).
    unfold bind, log, when. by destruct (truthy (map ltrResult)).
Qed.

(** A forced run in which the minifier rejects the RTL input: the call
    returns true and the LTR file holds the minified source. *)
Lemma rtl_failure_keeps_ltr_witness :
  exists w3,
    processFile Scenario.rtlFailingServices Scenario.stylePath true
                Scenario.styleWorld
    = (Ok (VBool true), w3)
    /\ files w3 !! getDestPath Scenario.stylePath false
       = files Scenario.afterLtr !! getDestPath Scenario.stylePath false
    /\ files w3 !! (getDestPath Scenario.stylePath false ++ ".map")
       = files Scenario.afterLtr
         !! (getDestPath Scenario.stylePath false ++ ".map").
Proof.
  eapply (rtl_failure_keeps_ltr Scenario.rtlFailingServices
            Scenario.stylePath true Scenario.styleWorld Scenario.styleWorld
            Scenario.afterLtr).
  - vm_compute. intros H. discriminate H.
  - vm_compute. reflexivity.
  - reflexivity.
  - vm_compute. reflexivity.
  - vm_compute. reflexivity.
Defined.

(** C8.  A path with an extension that is neither [.css] nor [.js]
    reaches the bare [return;] of line 303: the call settles to
    [undefined], not to [false].  Here the file is the one named [.css],
    which the scanner and the watcher of [.css] files both hand over. *)
Theorem processFile_unsupported_is_undefined (sv : Services) (force : bool) :
  fst (processFile sv "assets/css/.css" force Scenario.dotfileWorld)
  = Ok VUndefined.
Proof. destruct force; vm_compute; reflexivity. Qed.

(** A call run on its own, with no other call taking turns with it,
    leaves the in-flight set as it found it, whatever the outcome. *)
Lemma processFile_alone_keeps_inflight (sv : Services) (P : list ascii)
  (force : bool) (w : World) :
  processingFiles (snd (processFile sv P force w)) = processingFiles w.
Proof.
  by pose proof (processFile_frame sv P force w) as ((E & _) & _).
Qed.

(** ** The Directory Watcher *)

Lemma startWatcher_keeps directories extension key w :
  is_Some (watchedDirectories w !! key) ->
  is_Some (watchedDirectories (startWatcher directories extension w) !! key).
Proof.
  unfold startWatcher. revert w.
  induction directories as [|directory rest IH]; intros w Hkey; [done|].
  cbn [fold_left]. apply IH.
  destruct (watchedDirectories w !! (directory ++ ":" ++ extension)); [done|].
  cbn [withWatched watchedDirectories].
  destruct (decide (directory ++ ":" ++ extension = key)) as [->|Hne].
  - rewrite lookup_insert_eq. eauto.
  - by rewrite lookup_insert_ne.
Qed.

Lemma startWatcher_registers directories extension directory w :
  In directory directories ->
  is_Some (watchedDirectories (startWatcher directories extension w)
           !! (directory ++ ":" ++ extension)).
Proof.
  unfold startWatcher. revert w.
  induction directories as [|d rest IH]; intros w; [done|].
  intros [->|Hin]; [|by apply IH].
  cbn [fold_left]. apply (startWatcher_keeps rest extension).
  destruct (watchedDirectories w !! (directory ++ ":" ++ extension)) eqn:E.
  - rewrite E. eauto.
  - cbn [withWatched watchedDirectories]. rewrite lookup_insert_eq. eauto.
Qed.

(** the startup code registers a key for every configured directory *)
Lemma main_registers directory w :
  (In directory WATCH_DIRECTORIES_css ->
   is_Some (watchedDirectories (main w) !! (directory ++ ":" ++ CSS_EXT)))
  /\ (In directory WATCH_DIRECTORIES_js ->
      is_Some (watchedDirectories (main w) !! (directory ++ ":" ++ JS_EXT))).
Proof.
  unfold main. split; intros Hin.
  - by apply startWatcher_keeps, startWatcher_registers.
  - by apply startWatcher_registers.
Qed.

(** C10.  For an event path that ends with the watched extension and is
    not a derived artifact: when the registry has no entry for the key
    of this directory and extension, the handler is a forced
    [processFile] call and nothing else, the registry and the timers are
    afterwards as before, so the next event for the path is handled the
    same way; when the registry has an entry, a path already in it is
    ignored, and a path not in it is added to the entry and a timer is
    scheduled before the forced call. *)
Theorem watchPath_suppression_needs_registration (sv : Services)
  (directory fileExtension path : list ascii) (w : World) :
  Text.endsWith fileExtension path = true ->
  Text.includes ".min" (Path.name (Path.parse path)) = false ->
  let dirKey := directory ++ ":" ++ fileExtension in
  let w' := snd (watchPath sv directory fileExtension path w) in
  match watchedDirectories w !! dirKey with
  | None =>
      watchPath sv directory fileExtension path w
      = (processFile sv path true ;;; ret tt) w
      /\ watchedDirectories w' = watchedDirectories w
      /\ timers w' = timers w
  | Some watchedFiles =>
      if bool_decide (path ∈ watchedFiles)
      then watchPath sv directory fileExtension path w = (Ok tt, w)
      else watchedDirectories w' !! dirKey = Some ({[path]} ∪ watchedFiles)
           /\ timers w' = timers w ++ [(dirKey, path)]
  end.
Proof.
  intros Hext Hmin dirKey w'. subst dirKey w'.
  destruct (watchedDirectories w !! (directory ++ ":" ++ fileExtension))
    as [watchedFiles|] eqn:Hkey.
  - by apply watchPath_registered.
  - by apply watchPath_unregistered.
Qed.

(** A change of the style sheet seen by a watcher whose key was never
    registered: no suppression entry, no timer. *)
Lemma watchPath_suppression_needs_registration_witness :
  watchedDirectories
    (snd (watchPath Scenario.plainServices "./assets/css" ".css"
                    Scenario.stylePath Scenario.styleWorld)) = ∅
  /\ timers
       (snd (watchPath Scenario.plainServices "./assets/css" ".css"
                       Scenario.stylePath Scenario.styleWorld)) = [].
Proof.
  pose proof (watchPath_suppression_needs_registration
                Scenario.plainServices "./assets/css" ".css"
                Scenario.stylePath Scenario.styleWorld eq_refl eq_refl) as H.
  cbv zeta in H.
  change (watchedDirectories Scenario.styleWorld) with
    (∅ : gmap (list ascii) (gset (list ascii))) in H.
  rewrite lookup_empty in H.
  destruct H as (_ & H1 & H2). split; [exact H1|exact H2].
Defined.

(** ** The CSS Transform Stage *)

Lemma indexOf_startsWith p s k :
  Text.indexOf p s = Some k -> Text.startsWith p (skipn k s) = true.
Proof.
  revert k. induction s as [|c s IH]; intros k; simpl.
  - destruct (Text.startsWith p []) eqn:E; [|done]. by intros [= <-].
  - destruct (Text.startsWith p (c :: s)) eqn:E; [by intros [= <-]|].
    destruct (Text.indexOf p s) as [k'|]; [|done].
    intros [= <-]. by apply IH.
Qed.

Lemma indexOfFrom_startsWith p s from k :
  Text.indexOfFrom p s from = Some k ->
  Text.startsWith p (skipn k s) = true.
Proof.
  unfold Text.indexOfFrom.
  destruct (Text.indexOf p (skipn from s)) as [i|] eqn:E; [|done].
  intros [= <-]. apply indexOf_startsWith in E.
  by rewrite skipn_skipn, Nat.add_comm in E.
Qed.

(** What the removal of the prepended definitions can do: it hands back
    a suffix of the minified code.  When it cuts, the code handed back
    begins with the marker of the input's first rule and nothing is
    logged.  When it logs, it logs one warning and hands the code back as
    it was.  When the minified code does not start with the trimmed
    definitions text, or there is no definitions text at all (the file
    could not be read), the code is handed back as it was and nothing is
    logged. *)
Lemma removePrependedDefinitions_outcomes
  (filePath definitionsContent cleaned finalCode : list ascii) (w : World) :
  exists (out : list ascii) (w' : World),
    removePrependedDefinitions filePath definitionsContent cleaned finalCode w
    = (Ok out, w')
    /\ (exists k, out = skipn k finalCode)
    /\ (out <> finalCode ->
        w' = w
        /\ exists marker, Regex.firstRuleMatch cleaned = Some marker
                          /\ Text.startsWith marker out = true)
    /\ (w' <> w ->
        out = finalCode
        /\ exists e, isWarning e = true /\ w' = snd (log e w))
    /\ (truthy (Some definitionsContent)
        && Text.startsWith (Text.trim definitionsContent) finalCode = false ->
        out = finalCode /\ w' = w)
    /\ (truthy (Some definitionsContent)
        && Text.startsWith (Text.trim definitionsContent) finalCode = true ->
        Text.indexOf (Text.firstLine definitionsContent) finalCode <> None ->
        Regex.firstRuleMatch cleaned = None ->
        out = finalCode
        /\ w' = snd (log (WarnNoStartMarker filePath) w)).
Proof.
  unfold removePrependedDefinitions.
  destruct (truthy (Some definitionsContent)
            && Text.startsWith (Text.trim definitionsContent) finalCode)
    eqn:Hloc.
  2:{ exists finalCode, w. repeat split; try done. by exists 0. }
  destruct (Text.indexOf (Text.firstLine definitionsContent) finalCode)
    as [k0|] eqn:Hline.
  2:{ exists finalCode, w. repeat split; try done. by exists 0. }
  destruct (Regex.firstRuleMatch cleaned) as [marker|] eqn:Hmark.
  - destruct (Text.indexOfFrom marker finalCode k0) as [k|] eqn:Hk.
    + exists (skipn k finalCode), w. repeat split; try done.
      * by exists k.
      * exists marker. split; [done|]. by apply (indexOfFrom_startsWith _ _ k0).
    + exists finalCode, (snd (log (WarnDuplicatesImprecise filePath) w)).
      repeat split; try done.
      * by exists 0.
      * by exists (WarnDuplicatesImprecise filePath).
  - exists finalCode, (snd (log (WarnNoStartMarker filePath) w)).
    repeat split; try done.
    + by exists 0.
    + by exists (WarnNoStartMarker filePath).
Qed.

(** C4, as the code has it.  The marker of the input's first rule is
    searched from the index at which the first line of the definitions is
    found: where the definitions start, not where they end.  When the
    minified code starts with the trimmed definitions and with their
    first line, and the cleaned input has a marker, the code is cut at
    the first place the marker occurs in it at all, be it before the end
    of the definitions or in the middle of the source's own rules, and
    nothing is logged. *)
Theorem removePrependedDefinitions_cuts_at_first_marker
  (filePath definitionsContent cleaned finalCode marker : list ascii)
  (i : nat) (w : World) :
  truthy (Some definitionsContent)
  && Text.startsWith (Text.trim definitionsContent) finalCode = true ->
  Text.startsWith (Text.firstLine definitionsContent) finalCode = true ->
  Regex.firstRuleMatch cleaned = Some marker ->
  Text.indexOf marker finalCode = Some i ->
  removePrependedDefinitions filePath definitionsContent cleaned finalCode w
  = (Ok (skipn i finalCode), w).
Proof.
  intros Hguard Hline Hmarker Hi. unfold removePrependedDefinitions.
  rewrite Hguard.
  assert (H0 : Text.indexOf (Text.firstLine definitionsContent) finalCode
               = Some 0).
  { destruct finalCode; simpl; by rewrite Hline. }
  rewrite H0, Hmarker.
  assert (Hfrom : Text.indexOfFrom marker finalCode 0 = Some i).
  { unfold Text.indexOfFrom. change (skipn 0 finalCode) with finalCode.
    by rewrite Hi. }
  by rewrite Hfrom.
Qed.

(** An empty definitions file, which [minifyCss] turns into one line
    feed: the source's first rule is lost. *)
Lemma removePrependedDefinitions_cuts_at_first_marker_witness :
  removePrependedDefinitions Scenario.stylePath [LF]
    ("p{color:red}" ++ [LF] ++ ".a{color:blue}")
    ("p{color:red}" ++ [LF] ++ ".a{color:blue}") Scenario.styleWorld
  = (Ok (text_of_string ".a{color:blue}"), Scenario.styleWorld).
Proof.
  apply (removePrependedDefinitions_cuts_at_first_marker
           Scenario.stylePath [LF]
           ("p{color:red}" ++ [LF] ++ ".a{color:blue}")
           ("p{color:red}" ++ [LF] ++ ".a{color:blue}") "." 13).
  - reflexivity.
  - reflexivity.
  - vm_compute. reflexivity.
  - vm_compute. reflexivity.
Defined.

(** The same through [minifyCss], with an empty definitions file: of the
    two rules of the source the first is gone from the output, and the
    console is as it was. *)
Lemma minifyCss_empty_definitions_lose_rule :
  let source : list ascii := "p{color:red}" ++ [LF] ++ ".a{color:blue}" in
  let w := Scenario.worldWith [] source in
  minifyCss Scenario.plainServices source Scenario.stylePath false w
  = (Ok (mkResult ".a{color:blue}" (Some (text_of_string "{}"))), w).
Proof. vm_compute. reflexivity. Qed.

(** Definitions written over several lines, as a style sheet is: the
    minified code does not start with their trimmed text, so the removal
    is not attempted; the code handed back still begins with the
    minified definitions and the console is as it was, without a
    warning. *)
Lemma minifyCss_duplicate_without_warning :
  let spread : list ascii :=
    ":root {" ++ [LF] ++ "  --x: 1;" ++ [LF] ++ "}" ++ [LF] in
  let w := Scenario.worldWith spread ".a{color:blue}" in
  minifyCss Scenario.plainServices ".a{color:blue}" Scenario.stylePath false w
  = (Ok (mkResult ":root{--x:1;}.a{color:blue}"
                  (Some (text_of_string "{}"))), w)
  /\ Text.startsWith ":root{--x:1;}" ":root{--x:1;}.a{color:blue}" = true
  /\ console w = [].
Proof. repeat split; vm_compute; reflexivity. Qed.

(** Definitions of one minified line.  When they begin with the input's
    marker, the marker is found at index 0 and the code is handed back
    whole, without a warning; with a marker that occurs inside the
    definitions the cut is made there. *)
Lemma minifyCss_marker_searched_from_definitions_start :
  minifyCss Scenario.plainServices ".a{color:blue}" Scenario.stylePath false
            (Scenario.worldWith (".btn{color:red}" ++ [LF]) ".a{color:blue}")
  = (Ok (mkResult ".btn{color:red}.a{color:blue}"
                  (Some (text_of_string "{}"))),
     Scenario.worldWith (".btn{color:red}" ++ [LF]) ".a{color:blue}")
  /\ minifyCss Scenario.plainServices ".a{color:blue}" Scenario.stylePath
               false
               (Scenario.worldWith (":root{--x:.5}" ++ [LF]) ".a{color:blue}")
     = (Ok (mkResult ".5}.a{color:blue}" (Some (text_of_string "{}"))),
        Scenario.worldWith (":root{--x:.5}" ++ [LF]) ".a{color:blue}").
Proof. split; vm_compute; reflexivity. Qed.
(** * Further properties *)

(** ** Names of destinations *)

Module DestFacts.

Import Path PathSpec NameSpec PathFacts.

Lemma dotFree_negb s : dotFree s -> Forall (fun c => negb (isDot c) = true) s.
Proof. intros H; eapply Forall_impl; [exact H|]. by intros c ->. Qed.

Lemma dotFree_rev s : dotFree s -> dotFree (rev s).
Proof. unfold dotFree. apply Forall_rev. Qed.

Lemma splitExt_at_dot g m e' :
  dotFree e' -> m <> [] -> (m = text_of_string "." -> e' <> []) ->
  splitExt g (m ++ "."%char :: e') = (m, "."%char :: e').
Proof.
  intros He Hm Hg. unfold splitExt. cbv zeta.
  rewrite rev_app_distr. simpl rev. rewrite <- app_assoc. simpl app.
  destruct (takeWhile_app_stop (fun c => negb (isDot c)) (rev e') "."
              (rev m)) as [-> ->]; [by apply dotFree_negb, dotFree_rev|done|].
  rewrite !rev_involutive.
  destruct m as [|c n']; [done|].
  destruct (g && isDot c && (length n' =? 0) && (length e' =? 0)) eqn:E; [|done].
  exfalso. repeat (apply andb_true_iff in E as [E ?]).
  destruct n'; [|done]. destruct e'; [|done].
  apply Hg; [|done]. unfold isDot in *. by apply Ascii.eqb_eq in H1 as ->.
Qed.

Lemma splitExt_guard b :
  b <> text_of_string ".." -> splitExt true b = splitExt false b.
Proof.
  intros Hb. unfold splitExt. cbv zeta.
  set (f := fun c => negb (isDot c)).
  pose proof (takeWhile_dropWhile f (rev b)) as E.
  destruct (dropWhile f (rev b)) as [|d rn] eqn:Ed; [done|].
  destruct (rev rn) as [|c n'] eqn:En; [done|].
  destruct (isDot c && (length n' =? 0) && (length (rev (takeWhile f (rev b))) =? 0))
    eqn:G.
  - exfalso. apply Hb.
    repeat (apply andb_true_iff in G as [G ?]).
    apply dropWhile_head in Ed as Hd.
    destruct n'; [|done].
    destruct (takeWhile f (rev b)) as [|t tw] eqn:Et.
    2:{ simpl in H. rewrite length_app in H. simpl in H.
        apply Nat.eqb_eq in H. lia. }
    simpl in E. apply (f_equal (@rev _)) in E. rewrite rev_involutive in E.
    simpl in E. rewrite En in E. subst b.
    unfold f in Hd. apply negb_false_iff in Hd. unfold isDot in *.
    apply Ascii.eqb_eq in Hd as ->. by apply Ascii.eqb_eq in G as ->.
  - simpl. by rewrite G.
Qed.

Lemma parse_name_ext_abs tail :
  name (parse ("/"%char :: tail))
  = fst (splitExt (match snd (lastComponent tail) with
                   | Some _ => true | None => false end)
                  (fst (lastComponent tail)))
  /\ ext (parse ("/"%char :: tail))
     = snd (splitExt (match snd (lastComponent tail) with
                      | Some _ => true | None => false end)
                     (fst (lastComponent tail))).
Proof.
  unfold parse. change (isSep "/") with true. cbv match.
  destruct (lastComponent _) as [b before]. simpl.
  destruct before; simpl; by destruct (splitExt _ _).
Qed.

Lemma parse_name_ext_rel c tail :
  isSep c = false ->
  name (parse (c :: tail))
  = fst (splitExt true (fst (lastComponent (c :: tail))))
  /\ ext (parse (c :: tail))
     = snd (splitExt true (fst (lastComponent (c :: tail)))).
Proof.
  intros Hc. unfold parse. rewrite Hc.
  destruct (lastComponent _) as [b before]. simpl.
  destruct before; simpl; by destruct (splitExt _ _).
Qed.

(** The fields of a parsed destination. *)
Lemma parse_dest d nb :
  plain nb ->
  name (parse (dirPrefix d ++ nb)) = fst (splitExt true nb)
  /\ ext (parse (dirPrefix d ++ nb)) = snd (splitExt true nb)
  /\ extname (dirPrefix d ++ nb) = snd (splitExt true nb).
Proof.
  intros Hnb. pose proof Hnb as (_ & _ & _ & Hdd).
  destruct (plain_head nb Hnb) as (x & rest & -> & Hx & Hrest).
  unfold extname.
  destruct (dirPrefix_cases d) as [[Es ->]|(c & body & EJ & Hc & Hends & Hne & ->)].
  - destruct (isAbsolute d).
    + destruct (parse_name_ext_abs (x :: rest)) as [-> ->].
      rewrite lastComponent_plain by (by constructor). simpl fst. simpl snd.
      rewrite <- splitExt_guard by done.
      change ("/"%char :: x :: rest) with ([] ++ "/" ++ x :: rest).
      rewrite (lastComponent_snoc [] (x :: rest)) by (done || by constructor).
      done.
    + destruct (parse_name_ext_rel x rest Hx) as [-> ->].
      by rewrite lastComponent_plain by (by constructor).
  - destruct (isAbsolute d).
    + destruct (parse_name_ext_abs ((c :: body) ++ "/" ++ x :: rest)) as [-> ->].
      rewrite (lastComponent_snoc (c :: body) (x :: rest)) by (done || apply Hnb).
      simpl fst. simpl snd.
      change ("/"%char :: c :: body ++ "/"%char :: x :: rest)
        with (("/"%char :: c :: body) ++ "/" ++ x :: rest).
      by rewrite (lastComponent_snoc _ (x :: rest)) by (done || apply Hnb).
    + change ((c :: body) ++ "/" ++ x :: rest)
        with (c :: (body ++ "/" ++ x :: rest)).
      destruct (parse_name_ext_rel c (body ++ "/" ++ x :: rest) Hc) as [-> ->].
      change (c :: body ++ "/" ++ x :: rest) with ((c :: body) ++ "/" ++ (x :: rest)).
      by rewrite (lastComponent_snoc (c :: body) (x :: rest)) by (done || apply Hnb).
Qed.

Lemma splitExt_shape g b :
  snd (splitExt g b) = []
  \/ exists e', snd (splitExt g b) = "."%char :: e' /\ dotFree e'
                /\ fst (splitExt g b) <> [].
Proof.
  unfold splitExt. cbv zeta.
  set (f := fun c => negb (isDot c)).
  pose proof (takeWhile_Forall f (rev b)) as Ht.
  destruct (dropWhile f (rev b)) as [|d rn] eqn:Ed; [by left|].
  apply dropWhile_head in Ed as Hd.
  destruct (rev rn) as [|c n'] eqn:En; [by left|].
  destruct (_ && _); [by left|]. right. simpl.
  unfold f in Hd. apply negb_false_iff in Hd. unfold isDot in Hd.
  apply Ascii.eqb_eq in Hd as ->.
  eexists. split; [done|]. split; [|done].
  apply dotFree_rev. eapply Forall_impl; [exact Ht|].
  intros a Ha. unfold f in Ha. by apply negb_true_iff in Ha.
Qed.

Lemma parse_ext_shape P :
  ext (parse P) = []
  \/ exists e', ext (parse P) = "."%char :: e' /\ dotFree e'.
Proof.
  destruct P as [|c rest]; [by left|].
  unfold parse. destruct (lastComponent _) as [b before].
  set (g := match before with Some _ => true | None => negb (isSep c) end).
  destruct (splitExt_shape g b) as [H|(e' & H & He & _)];
    destruct (splitExt g b) as [n e]; simpl in *; [by left|right; eauto].
Qed.

(** A destination keeps the extension of its source, and [.min] ends
    what stands before it. *)
Lemma dest_fields P (isRtl : bool) :
  ext (parse P) <> [] ->
  name (parse (getDestPath P isRtl))
  = name (parse P) ++ (if isRtl then RTL_CONFIG.rtlSuffix else []) ++ ".min"
  /\ ext (parse (getDestPath P isRtl)) = ext (parse P)
  /\ extname (getDestPath P isRtl) = ext (parse P).
Proof.
  intros He. rewrite getDestPath_shape.
  destruct (parse_dest (dir (parse P)) _ (destName_plain P isRtl))
    as (-> & -> & ->).
  destruct (parse_ext_shape P) as [E|(e' & E & Hd)]; [done|].
  rewrite E.
  set (m := name (parse P) ++ (if isRtl then RTL_CONFIG.rtlSuffix else [])
            ++ ".min").
  replace (name (parse P) ++ (if isRtl then RTL_CONFIG.rtlSuffix else [])
           ++ ".min" ++ "."%char :: e') with (m ++ "."%char :: e').
  2:{ unfold m. by rewrite <- !app_assoc. }
  assert (Hm : In "m"%char m).
  { unfold m. apply in_or_app. right. apply in_or_app. right.
    right. by left. }
  rewrite splitExt_at_dot; [done|done| |].
  - intros E'. by rewrite E' in Hm.
  - intros E'. rewrite E' in Hm. by destruct Hm as [?|[]].
Qed.

(** A map file has the name of its destination and [.map] for
    extension. *)
Lemma map_fields P (isRtl : bool) :
  name (parse (getDestPath P isRtl ++ ".map"))
  = base (parse (getDestPath P isRtl))
  /\ ext (parse (getDestPath P isRtl ++ ".map")) = text_of_string ".map"
  /\ base (parse (getDestPath P isRtl ++ ".map"))
     = base (parse (getDestPath P isRtl)) ++ ".map".
Proof.
  rewrite getDestPath_shape.
  set (nb := name (parse P) ++ (if isRtl then RTL_CONFIG.rtlSuffix else [])
             ++ ".min" ++ ext (parse P)).
  pose proof (destName_plain P isRtl) as Hnb. fold nb in Hnb.
  rewrite base_dest by done.
  assert (Hp : plain (nb ++ ".map")).
  { destruct Hnb as (Hne & Hs & _). repeat split.
    - by destruct nb.
    - apply Forall_app. split; [done|repeat constructor].
    - destruct nb as [|? [|]]; done.
    - destruct nb as [|? [|? [|]]]; done. }
  rewrite <- app_assoc.
  destruct (parse_dest (dir (parse P)) _ Hp) as (-> & -> & _).
  rewrite base_dest by done.
  change (nb ++ ".map") with (nb ++ "."%char :: "map").
  rewrite splitExt_at_dot; [done|repeat constructor|apply Hnb|done].
Qed.

Lemma includes_app p a c : Text.includes p (a ++ p ++ c) = true.
Proof.
  unfold Text.includes.
  assert (H : exists k, Text.indexOf p (a ++ p ++ c) = Some k).
  { induction a as [|x a IH].
    - exists 0. simpl app. destruct (p ++ c) eqn:E; simpl;
        rewrite <- ?E, RegexFacts.startsWith_app; done.
    - destruct IH as [k IH]. simpl.
      destruct (Text.startsWith p (x :: a ++ p ++ c)); [by exists 0|].
      rewrite IH. by exists (S k). }
  destruct H as [k ->]. done.
Qed.

(** In a directory: the fields of a parsed path that ends in a file
    name. *)
Lemma parse_in_dir pre :
  directoryPart pre ->
  exists D, forall nb, plain nb ->
    dir (parse (pre ++ nb)) = D
    /\ name (parse (pre ++ nb)) = fst (splitExt true nb)
    /\ ext (parse (pre ++ nb)) = snd (splitExt true nb).
Proof.
  intros [->|[X ->]].
  - exists []. intros nb Hnb.
    destruct (plain_head nb Hnb) as (x & rest & -> & Hx & Hrest).
    simpl app. destruct (parse_name_ext_rel x rest Hx) as [-> ->].
    rewrite lastComponent_plain by (by constructor). repeat split.
    unfold parse. rewrite Hx.
    rewrite lastComponent_plain by (by constructor).
    by destruct (splitExt _ _).
  - destruct X as [|c X'].
    + exists (text_of_string "/"). intros nb Hnb.
      pose proof Hnb as (_ & _ & _ & Hdd).
      destruct (plain_head nb Hnb) as (x & rest & -> & Hx & Hrest).
      change (([] ++ "/") ++ x :: rest) with ("/"%char :: x :: rest).
      destruct (parse_name_ext_abs (x :: rest)) as [-> ->].
      rewrite lastComponent_plain by (by constructor). simpl fst. simpl snd.
      rewrite <- splitExt_guard by done. repeat split.
      unfold parse. change (isSep "/") with true. cbv match.
      rewrite lastComponent_plain by (by constructor).
      by destruct (splitExt _ _).
    + exists (stripTrailingSeparators (c :: X')). intros nb Hnb.
      pose proof Hnb as (Hne & Hsf & _).
      rewrite <- app_assoc.
      destruct (isSep c) eqn:Hc.
      * apply isSep_true in Hc as ->.
        change (("/"%char :: X') ++ "/" ++ nb) with ("/"%char :: (X' ++ "/" ++ nb)).
        destruct (parse_name_ext_abs (X' ++ "/" ++ nb)) as [-> ->].
        rewrite lastComponent_snoc by done. repeat split.
        unfold parse. change (isSep "/") with true. cbv match.
        rewrite lastComponent_snoc by done.
        by destruct (splitExt _ _).
      * change ((c :: X') ++ "/" ++ nb) with (c :: (X' ++ "/" ++ nb)).
        destruct (parse_name_ext_rel c (X' ++ "/" ++ nb) Hc) as [-> ->].
        change (c :: X' ++ "/" ++ nb) with ((c :: X') ++ "/" ++ nb).
        rewrite lastComponent_snoc by done. repeat split.
        change ((c :: X') ++ "/" ++ nb) with (c :: (X' ++ "/" ++ nb)).
        unfold parse. rewrite Hc.
        change (c :: X' ++ "/" ++ nb) with ((c :: X') ++ "/" ++ nb).
        rewrite lastComponent_snoc by done.
        by destruct (splitExt _ _).
Qed.

Lemma file_name_plain n e : stem n -> extension e -> plain (n ++ e).
Proof.
  intros (Hn & Hs) (e' & -> & He & Hd & Hse).
  destruct e' as [|y e']; [done|].
  inversion Hd as [|? ? Hy _]; subst.
  repeat split.
  - by destruct n.
  - apply Forall_app. split; [done|]. by constructor.
  - destruct n as [|? [|]]; done.
  - destruct n as [|a [|b [|]]]; done.
Qed.

Lemma file_name_split n e :
  stem n -> extension e -> splitExt true (n ++ e) = (n, e).
Proof.
  intros (Hn & Hs) (e' & -> & He & Hd & Hse).
  by apply splitExt_at_dot.
Qed.

(** A text is cut at its last dot in one way only. *)
Lemma last_dot_unique a b e1 e2 :
  dotFree e1 -> dotFree e2 ->
  a ++ "."%char :: e1 = b ++ "."%char :: e2 -> a = b /\ e1 = e2.
Proof.
  intros H1 H2 E. apply (f_equal (@rev _)) in E.
  rewrite !rev_app_distr in E. simpl in E. rewrite <- !app_assoc in E.
  simpl in E.
  set (f := fun c => negb (isDot c)) in *.
  destruct (takeWhile_app_stop f (rev e1) "." (rev a)) as [T1 D1];
    [by apply dotFree_negb, dotFree_rev|done|].
  destruct (takeWhile_app_stop f (rev e2) "." (rev b)) as [T2 D2];
    [by apply dotFree_negb, dotFree_rev|done|].
  rewrite E in T1, D1. rewrite T1 in T2. rewrite D1 in D2.
  injection D2 as D2. split.
  - apply (f_equal (@rev _)) in D2. by rewrite !rev_involutive in D2.
  - apply (f_equal (@rev _)) in T2. by rewrite !rev_involutive in T2.
Qed.

End DestFacts.

(** ** The Path Resolver, further *)

(** X1.  A destination is never taken for a source.  For a source whose
    name has an extension, the destination keeps that extension and what
    stands before it ends in [.min]; so [processFile], whatever the
    services, the force flag and the world, returns [false] for the
    destination and for its map file and leaves the world as it was. *)
Theorem getDestPath_output_is_skipped (sv : Services) (P : list ascii)
  (isRtl force : bool) (w : World) :
  Path.ext (Path.parse P) <> [] ->
  Path.name (Path.parse (getDestPath P isRtl))
  = Path.name (Path.parse P)
    ++ (if isRtl then RTL_CONFIG.rtlSuffix else []) ++ ".min"
  /\ Path.ext (Path.parse (getDestPath P isRtl)) = Path.ext (Path.parse P)
  /\ processFile sv (getDestPath P isRtl) force w = (Ok (VBool false), w)
  /\ processFile sv (getDestPath P isRtl ++ ".map") force w
     = (Ok (VBool false), w).
Proof.
  intros He. destruct (DestFacts.dest_fields P isRtl He) as (Hn & Hx & _).
  split; [done|]. split; [done|]. split.
  - apply processFile_derived. rewrite Hn.
    rewrite (app_assoc (Path.name _)).
    rewrite <- (app_nil_r ".min") at 2.
    apply DestFacts.includes_app.
  - apply processFile_derived.
    destruct (DestFacts.map_fields P isRtl) as (-> & _ & _).
    rewrite PathFacts.getDestPath_shape.
    rewrite PathFacts.base_dest by apply PathFacts.destName_plain.
    rewrite (app_assoc (Path.name _)).
    apply DestFacts.includes_app.
Qed.

Lemma getDestPath_output_is_skipped_witness :
  Path.ext (Path.parse Scenario.stylePath) <> []
  /\ getDestPath Scenario.stylePath true
     = text_of_string "assets/css/style.rtl.min.css"
  /\ processFile Scenario.plainServices "assets/css/style.rtl.min.css" true
                 Scenario.styleWorld
     = (Ok (VBool false), Scenario.styleWorld).
Proof.
  assert (H : Path.ext (Path.parse Scenario.stylePath) <> []).
  { vm_compute. discriminate. }
  split; [exact H|]. split; [vm_compute; reflexivity|].
  destruct (getDestPath_output_is_skipped Scenario.plainServices
              Scenario.stylePath true true Scenario.styleWorld H)
    as (_ & _ & H3 & _).
  exact H3.
Defined.

(** X2.  The two variants can meet.  In one directory, the LTR
    destination of [n.rtl.e] is the RTL destination of [n.e]: a source
    whose name ends in [.rtl] before its extension has its minified file
    where the RTL variant of its neighbour goes. *)
Theorem getDestPath_rtl_named_source_collides (pre n e : list ascii) :
  NameSpec.directoryPart pre -> NameSpec.stem n -> NameSpec.extension e ->
  getDestPath (pre ++ n ++ ".rtl" ++ e) false
  = getDestPath (pre ++ n ++ e) true.
Proof.
  intros Hpre Hn He.
  destruct (DestFacts.parse_in_dir pre Hpre) as [D HD].
  assert (Hn' : NameSpec.stem (n ++ ".rtl")).
  { destruct Hn as [Hne Hs]. split; [by destruct n|].
    apply Forall_app. split; [done|repeat constructor]. }
  destruct (HD ((n ++ ".rtl") ++ e)) as (Hd1 & Hn1 & He1).
  { by apply DestFacts.file_name_plain. }
  destruct (HD (n ++ e)) as (Hd2 & Hn2 & He2).
  { by apply DestFacts.file_name_plain. }
  rewrite DestFacts.file_name_split in Hn1, He1 by done.
  rewrite DestFacts.file_name_split in Hn2, He2 by done.
  rewrite <- app_assoc in Hd1, Hn1, He1.
  unfold getDestPath. cbv zeta. rewrite Hd1, Hn1, He1, Hd2, Hn2, He2.
  simpl fst. simpl snd. by rewrite <- !app_assoc.
Qed.

Lemma getDestPath_rtl_named_source_collides_witness :
  getDestPath "assets/css/theme.rtl.css" false
  = getDestPath "assets/css/theme.css" true.
Proof.
  apply (getDestPath_rtl_named_source_collides "assets/css/" "theme" ".css").
  - right. by exists (text_of_string "assets/css").
  - split; [done|]. repeat constructor.
  - exists (text_of_string "css"). repeat split; try done; repeat constructor.
Defined.

(** X3.  Within one variant the sources of a directory keep apart: two
    different file names of one directory have different
    destinations. *)
Theorem getDestPath_injective_in_directory (pre n1 e1 n2 e2 : list ascii)
  (isRtl : bool) :
  NameSpec.directoryPart pre ->
  NameSpec.stem n1 -> NameSpec.extension e1 ->
  NameSpec.stem n2 -> NameSpec.extension e2 ->
  n1 ++ e1 <> n2 ++ e2 ->
  getDestPath (pre ++ n1 ++ e1) isRtl <> getDestPath (pre ++ n2 ++ e2) isRtl.
Proof.
  intros Hpre Hn1 He1 Hn2 He2 Hne E. apply Hne.
  destruct (DestFacts.parse_in_dir pre Hpre) as [D HD].
  destruct (HD (n1 ++ e1)) as (Hd1 & Hm1 & Hx1).
  { by apply DestFacts.file_name_plain. }
  destruct (HD (n2 ++ e2)) as (Hd2 & Hm2 & Hx2).
  { by apply DestFacts.file_name_plain. }
  rewrite DestFacts.file_name_split in Hm1, Hx1 by done.
  rewrite DestFacts.file_name_split in Hm2, Hx2 by done.
  rewrite !PathFacts.getDestPath_shape in E.
  rewrite Hd1, Hm1, Hx1, Hd2, Hm2, Hx2 in E. simpl fst in E. simpl snd in E.
  apply app_inv_head in E.
  destruct He1 as (x1 & -> & _ & Hf1 & _).
  destruct He2 as (x2 & -> & _ & Hf2 & _).
  rewrite !(app_assoc n1), !(app_assoc n2) in E.
  rewrite !(app_assoc _ ".min") in E.
  apply DestFacts.last_dot_unique in E as [E ->]; [|done..].
  apply app_inv_tail in E. apply app_inv_tail in E. by rewrite E.
Qed.

Lemma getDestPath_injective_in_directory_witness :
  getDestPath "blocks/hero/a.js" false <> getDestPath "blocks/hero/b.js" false.
Proof.
  apply (getDestPath_injective_in_directory "blocks/hero/" "a" ".js" "b" ".js").
  - right. by exists (text_of_string "blocks/hero").
  - split; [done|]. repeat constructor.
  - exists (text_of_string "js"). repeat split; try done; repeat constructor.
  - split; [done|]. repeat constructor.
  - exists (text_of_string "js"). repeat split; try done; repeat constructor.
  - discriminate.
Defined.

(** ** Texts the patterns do not touch *)

Module QuietFacts.

Import Regex RegexSpec RegexFacts.

Lemma replaceAll_none p rep s :
  (forall a b, s = a ++ b -> p b = None) -> replaceAll p rep s = s.
Proof.
  induction s as [|c s IH]; intros H; [apply replaceAll_nil|].
  rewrite replaceAll_skip by (by apply (H [])).
  f_equal. apply IH. intros a b ->. by apply (H (c :: a)).
Qed.

Lemma includes_inv x q :
  Text.includes x q = true -> exists u v, q = u ++ x ++ v.
Proof.
  unfold Text.includes.
  destruct (Text.indexOf x q) as [k|] eqn:E; [|done]. intros _.
  assert (H : Text.startsWith x (skipn k q) = true).
  { revert k E. induction q as [|c q IH]; intros k; simpl.
    - destruct (Text.startsWith x []) eqn:E; [|done]. by intros [= <-].
    - destruct (Text.startsWith x (c :: q)) eqn:E; [by intros [= <-]|].
      destruct (Text.indexOf x q) as [k'|]; [|done].
      intros [= <-]. by apply IH. }
  apply startsWith_iff in H as [r Hr].
  exists (firstn k q), r. by rewrite <- Hr, firstn_skipn.
Qed.

Lemma includes_within x q a c :
  Text.includes x q = true -> Text.includes x (a ++ q ++ c) = true.
Proof.
  intros H. apply includes_inv in H as (u & v & ->).
  replace (a ++ (u ++ x ++ v) ++ c) with ((a ++ u) ++ x ++ (v ++ c)).
  - apply DestFacts.includes_app.
  - by rewrite <- !app_assoc.
Qed.

(** What a pattern of the chain matches begins with its property name
    or, after [text-align:] and white space, with its value. *)
Lemma compile_match pat s r :
  compile pat s = Some r ->
  exists a, s = a ++ (match pat with Literal q => q | TextAlign v => v end)
                ++ r.
Proof.
  destruct pat as [q|value]; simpl.
  - intros H. apply lit_Some in H. by exists [].
  - unfold textAlign, andThen.
    destruct (lit "text-align:" s) as [s1|] eqn:E1; [|done].
    apply lit_Some in E1. unfold ws0.
    intros H. apply lit_Some in H.
    destruct (trimStart_spec s1) as (ws & _ & Hws).
    exists ("text-align:" ++ ws). rewrite <- app_assoc, <- H, <- Hws. done.
Qed.

End QuietFacts.

(** X4.  A text without [@import] goes to the minifier as it is. *)
Theorem cleanedInput_without_import (input : list ascii) :
  Text.includes "@import" input = false -> cleanedInput input = input.
Proof.
  intros H. apply QuietFacts.replaceAll_none. intros a b -> .
  destruct (Regex.importRegex b) as [rest|] eqn:E; [|done].
  apply RegexFacts.importRegex_sound in E as (stmt & Hs & ->).
  destruct Hs as (sp1 & q & k & sp2 & _ & _ & _ & _ & ->).
  rewrite <- !app_assoc in H.
  by rewrite DestFacts.includes_app in H.
Qed.

Lemma cleanedInput_without_import_witness :
  cleanedInput ".a{color:red}" = text_of_string ".a{color:red}".
Proof.
  apply (cleanedInput_without_import ".a{color:red}").
  vm_compute. reflexivity.
Defined.

(** X5.  A style sheet that names neither side is its own RTL text: when
    [left] and [right] do not occur in the input, none of the ten
    replacements of [generateRtlCss] changes it. *)
Theorem rtlSubstitute_without_sides (input : list ascii) :
  Text.includes "left" input = false ->
  Text.includes "right" input = false ->
  rtlSubstitute input = input.
Proof.
  intros Hl Hr. unfold rtlSubstitute.
  assert (Hstep : Forall (fun rule => applyReplacement input rule = input)
                         rtlReplacements).
  { apply Forall_forall. intros [pat rep] Hin.
    unfold applyReplacement. simpl fst. simpl snd.
    apply QuietFacts.replaceAll_none. intros a b ->.
    destruct (compile pat b) as [r|] eqn:E; [|done].
    apply QuietFacts.compile_match in E as (a' & ->).
    assert (Hside :
              Text.includes "left"
                (match pat with Literal q => q | TextAlign v => v end)
              || Text.includes "right"
                   (match pat with Literal q => q | TextAlign v => v end)
              = true).
    { apply list_elem_of_In in Hin. unfold rtlReplacements in Hin.
      simpl in Hin.
      repeat (destruct Hin as [Hin|Hin];
              [injection Hin as <- <-; vm_compute; reflexivity|]).
      done. }
    apply orb_true_iff in Hside as [Hs|Hs].
    - apply (QuietFacts.includes_within _ _ (a ++ a') r) in Hs.
      rewrite <- app_assoc in Hs. by rewrite Hs in Hl.
    - apply (QuietFacts.includes_within _ _ (a ++ a') r) in Hs.
      rewrite <- app_assoc in Hs. by rewrite Hs in Hr. }
  induction Hstep as [|rule rules Hrule _ IH]; [done|].
  simpl. by rewrite Hrule.
Qed.

Lemma rtlSubstitute_without_sides_witness :
  rtlSubstitute ".a{color:red;margin-top:1px}"
  = text_of_string ".a{color:red;margin-top:1px}".
Proof.
  apply (rtlSubstitute_without_sides ".a{color:red;margin-top:1px}");
    vm_compute; reflexivity.
Defined.

(** ** The RTL substitutions, further *)

Module ChainFacts.

Import Regex RegexSpec RegexFacts.

Ltac physical i q r :=
  change (rtlSubstitute ?s)
    with (applyRules (laterRules i)
            (replaceAll (lit q) r (applyRules (firstn i rtlReplacements) s)));
  rewrite (fold_inert (firstn i rtlReplacements) q)
    by (simpl firstn; repeat constructor; apply inertFor_sound;
        vm_compute; reflexivity);
  rewrite replaceAll_hit by (done || (vm_compute; reflexivity));
  apply later_inert; vm_compute; reflexivity.

Lemma firstSeven_guard d :
  isBoundary d = true ->
  Forall (fun rule => inert (compile (fst rule)) [d]
                      /\ copyFree (compile (fst rule)) "right:")
         (firstn 7 rtlReplacements).
Proof.
  intros Hd. unfold rtlReplacements. simpl firstn.
  repeat constructor; simpl;
    solve [ apply lit_inert_boundary; [done|vm_compute; reflexivity|done]
          | apply litCopy_sound; vm_compute; reflexivity ].
Qed.

End ChainFacts.

(** X6.  Each of the six margin, padding and border rules rewrites its
    property wherever it stands: for a rule with property [q] and
    replacement [r], the chain turns [A ++ q ++ Z] into the chain's
    result for [A], then [r], then the chain's result for [Z], for any
    texts [A] and [Z].  The property is rewritten also at the end of a
    longer name, as in [scroll-margin-left:]. *)
Theorem rtlSubstitute_physical_rules (q r A Z : list ascii) :
  In (Literal q, r) RegexSpec.firstSix ->
  rtlSubstitute (A ++ q ++ Z) = rtlSubstitute A ++ r ++ rtlSubstitute Z.
Proof.
  intros Hin. unfold RegexSpec.firstSix, rtlReplacements in Hin.
  simpl in Hin.
  destruct Hin as [Hin|[Hin|[Hin|[Hin|[Hin|[Hin|[]]]]]]];
    injection Hin as <- <-.
  - ChainFacts.physical 0 (text_of_string "margin-left:")
                          (text_of_string "margin-inline-start:").
  - ChainFacts.physical 1 (text_of_string "margin-right:")
                          (text_of_string "margin-inline-end:").
  - ChainFacts.physical 2 (text_of_string "padding-left:")
                          (text_of_string "padding-inline-start:").
  - ChainFacts.physical 3 (text_of_string "padding-right:")
                          (text_of_string "padding-inline-end:").
  - ChainFacts.physical 4 (text_of_string "border-left:")
                          (text_of_string "border-inline-start:").
  - ChainFacts.physical 5 (text_of_string "border-right:")
                          (text_of_string "border-inline-end:").
Qed.

Lemma rtlSubstitute_physical_rules_witness :
  rtlSubstitute (".a{scroll-" ++ "padding-right:" ++ "2px}")
  = text_of_string ".a{scroll-padding-inline-end:2px}".
Proof.
  rewrite (rtlSubstitute_physical_rules
             "padding-right:" "padding-inline-end:" ".a{scroll-" "2px}").
  - vm_compute. reflexivity.
  - unfold RegexSpec.firstSix, rtlReplacements. simpl.
    right. right. right. by left.
Defined.

(** X7.  A standalone [right:] (one that follows a code unit which is
    neither part of a property name nor a colon) becomes
    [inset-inline-end:], and the text before and after it is rewritten
    on its own. *)
Theorem rtlSubstitute_right (X Y : list ascii) (d : ascii) :
  RegexSpec.isBoundary d = true ->
  rtlSubstitute (X ++ d :: "right:" ++ Y)
  = rtlSubstitute (X ++ [d]) ++ "inset-inline-end:" ++ rtlSubstitute Y.
Proof.
  intros Hd.
  change (rtlSubstitute ?s)
    with (RegexSpec.applyRules (RegexSpec.laterRules 7)
            (Regex.replaceAll (Regex.lit "right:") "inset-inline-end:"
               (RegexSpec.applyRules (firstn 7 rtlReplacements) s))).
  rewrite (RegexFacts.fold_guard (firstn 7 rtlReplacements) d "right:")
    by (by apply ChainFacts.firstSeven_guard).
  rewrite RegexFacts.replaceAll_hit by (done || (vm_compute; reflexivity)).
  apply RegexFacts.later_inert. vm_compute. reflexivity.
Qed.

Lemma rtlSubstitute_right_witness :
  RegexSpec.isBoundary "{" = true
  /\ rtlSubstitute (".a" ++ "{"%char :: "right:" ++ "0}")
     = text_of_string ".a{inset-inline-end:0}".
Proof.
  split; [reflexivity|].
  rewrite (rtlSubstitute_right ".a" "0}" "{" eq_refl).
  vm_compute. reflexivity.
Defined.

(** ** Stages that only write to the console *)

Module StageFacts.

Lemma appended_nil w : appended [] w = w.
Proof. destruct w. unfold appended, withConsole. simpl. by rewrite app_nil_r. Qed.

Lemma appended_app l1 l2 w : appended l2 (appended l1 w) = appended (l1 ++ l2) w.
Proof. unfold appended, withConsole. simpl. by rewrite app_assoc. Qed.

Lemma logsOnly_ret {A} (a : A) : logsOnly (ret a).
Proof. intros w. exists []. by rewrite appended_nil. Qed.

Lemma logsOnly_throw {A} e : logsOnly (@throw A e).
Proof. intros w. exists []. by rewrite appended_nil. Qed.

Lemma logsOnly_liftResult {A} (r : Result A) : logsOnly (liftResult r).
Proof. intros w. exists []. by rewrite appended_nil. Qed.

Lemma logsOnly_log e : logsOnly (log e).
Proof. intros w. by exists [e]. Qed.

Lemma logsOnly_stat p : logsOnly (stat p).
Proof.
  intros w. exists []. rewrite appended_nil. unfold stat.
  by destruct (files w !! p).
Qed.

Lemma logsOnly_readTextFile p : logsOnly (readTextFile p).
Proof.
  intros w. exists []. rewrite appended_nil. unfold readTextFile.
  by destruct (files w !! p).
Qed.

Lemma logsOnly_ensureDirSync sv p : logsOnly (ensureDirSync sv p).
Proof.
  intros w. exists []. rewrite appended_nil. unfold ensureDirSync.
  by destruct (ensureDirFails sv w p).
Qed.

Lemma logsOnly_bind {A B} (m : M A) (k : A -> M B) :
  logsOnly m -> (forall a, logsOnly (k a)) -> logsOnly (bind m k).
Proof.
  intros Hm Hk w. unfold bind. destruct (Hm w) as [l1 H1].
  destruct (m w) as [[a|e] w1]; simpl in *; [|eauto].
  destruct (Hk a w1) as [l2 H2]. exists (l1 ++ l2).
  by rewrite H2, H1, appended_app.
Qed.

Lemma logsOnly_tryCatch {A} (m : M A) (h : Exn -> M A) :
  logsOnly m -> (forall e, logsOnly (h e)) -> logsOnly (tryCatch m h).
Proof.
  intros Hm Hh w. unfold tryCatch. destruct (Hm w) as [l1 H1].
  destruct (m w) as [[a|e] w1]; simpl in *; [eauto|].
  destruct (Hh e w1) as [l2 H2]. exists (l1 ++ l2).
  by rewrite H2, H1, appended_app.
Qed.

Lemma logsOnly_when (b : bool) m : logsOnly m -> logsOnly (when b m).
Proof. destruct b; [done|]. intros _. apply logsOnly_ret. Qed.

Lemma logsOnly_if {A} (b : bool) (m1 m2 : M A) :
  logsOnly m1 -> logsOnly m2 -> logsOnly (if b then m1 else m2).
Proof. by destruct b. Qed.

Create HintDb logsOnly.

#[export] Hint Resolve logsOnly_ret logsOnly_throw logsOnly_liftResult
  logsOnly_log logsOnly_stat logsOnly_readTextFile logsOnly_ensureDirSync
  : logsOnly.

Ltac logs_step :=
  match goal with
  | |- logsOnly (bind _ _) => apply logsOnly_bind; [|intros ?]
  | |- logsOnly (tryCatch _ _) => apply logsOnly_tryCatch; [|intros ?]
  | |- logsOnly (when _ _) => apply logsOnly_when
  | |- logsOnly (if _ then _ else _) => apply logsOnly_if
  | |- logsOnly (match ?x with _ => _ end) => destruct x
  | |- logsOnly (let _ := _ in _) => cbv zeta
  | |- logsOnly _ => solve [auto with logsOnly]
  end.

Lemma logsOnly_removePrependedDefinitions f d c x :
  logsOnly (removePrependedDefinitions f d c x).
Proof. unfold removePrependedDefinitions. repeat logs_step. Qed.

Lemma logsOnly_minifyCss sv input f r : logsOnly (minifyCss sv input f r).
Proof.
  unfold minifyCss. repeat logs_step.
  apply logsOnly_removePrependedDefinitions.
Qed.

Lemma logsOnly_minifyJavaScript sv input f :
  logsOnly (minifyJavaScript sv input f).
Proof. unfold minifyJavaScript. repeat logs_step. Qed.

Lemma logsOnly_generateRtlCss sv input f : logsOnly (generateRtlCss sv input f).
Proof. unfold generateRtlCss. repeat logs_step. apply logsOnly_minifyCss. Qed.

Lemma logsOnly_isSourceNewer p : logsOnly (isSourceNewer p).
Proof.
  unfold isSourceNewer. repeat logs_step.
  intros w. exists []. rewrite appended_nil. unfold stat.
  repeat (destruct (files w !! _) || destruct (_ && _); simpl); done.
Qed.

Lemma logsOnly_freshness P force : logsOnly (freshness P force).
Proof. destruct force; [apply logsOnly_ret|apply logsOnly_isSourceNewer]. Qed.

End StageFacts.

(** X8.  The transform stages read and report, nothing more: whatever
    the minifiers do, [minifyCss], [generateRtlCss] and
    [minifyJavaScript] leave the files, the in-flight set, the watcher
    registry, the timers and the clock as they were; the console only
    gets lines added at its end. *)
Theorem stages_only_log (sv : Services) (input filePath : list ascii)
  (isRtl : bool) (w : World) :
  (exists lines,
     snd (minifyCss sv input filePath isRtl w) = appended lines w)
  /\ (exists lines,
        snd (generateRtlCss sv input filePath w) = appended lines w)
  /\ (exists lines,
        snd (minifyJavaScript sv input filePath w) = appended lines w).
Proof.
  split; [|split].
  - apply StageFacts.logsOnly_minifyCss.
  - apply StageFacts.logsOnly_generateRtlCss.
  - apply StageFacts.logsOnly_minifyJavaScript.
Qed.

(** X9.  The Freshness Checker changes nothing when it can stat the
    source; when it cannot, it answers [true] and writes one line to the
    console. *)
Theorem isSourceNewer_world (sourcePath : list ascii) (w : World) :
  match files w !! sourcePath with
  | Some _ => snd (isSourceNewer sourcePath w) = w
  | None =>
      isSourceNewer sourcePath w
      = (Ok true, appended [ErrStat sourcePath] w)
  end.
Proof.
  unfold isSourceNewer, tryCatch, bind, stat, log, ret.
  destruct (files w !! sourcePath); [|done].
  destruct (files w !! getDestPath sourcePath false); [|done].
  destruct (_ && _); [|done].
  by destruct (files w !! getDestPath sourcePath true).
Qed.

(** ** The File Processor, further *)

Module ProcessFacts.

Lemma confined_processCss_artifacts sv f input :
  confined (artifacts f) (processCss sv f input).
Proof.
  unfold processCss. repeat confined_step.
  - eapply confined_weaken; [|apply confined_writeLtr]. intros p Hp. by left.
  - eapply confined_weaken; [|apply confined_writeRtl]. intros p Hp. by right.
Qed.

Lemma confined_processJs_main sv f input :
  confined (ltrPaths f) (processJs sv f input (getDestPath f false)).
Proof.
  unfold processJs. repeat confined_step.
  - apply confined_minifyJavaScript.
  - by left.
  - by right.
Qed.

Lemma confined_processBody_artifacts sv f :
  confined (artifacts f) (processBody sv f).
Proof.
  unfold processBody. repeat confined_step.
  - apply confined_processCss_artifacts.
  - eapply confined_weaken; [|apply confined_processJs_main].
    intros p Hp. by left.
Qed.

Lemma confined_processBody_main sv f :
  Text.eqb (Text.toLowerCase (Path.extname f)) CSS_EXT = false ->
  confined (ltrPaths f) (processBody sv f).
Proof.
  intros Hext. unfold processBody. rewrite Hext. repeat confined_step.
  apply confined_processJs_main.
Qed.

Lemma released_entered P w :
  P ∉ processingFiles w -> released P (entered P w) = w.
Proof.
  intros Hin. destruct w as [fs pf wd ts cs ck].
  unfold released, entered, withProcessing. simpl in *. f_equal.
  apply set_eq. intros x.
  rewrite elem_of_difference, elem_of_union, elem_of_singleton.
  split; [by intros [[->|?] ?]|].
  intros Hx. split; [by right|]. by intros ->.
Qed.

Lemma processFile_onlyWrites Q sv P force w :
  confined Q (processBody sv P) ->
  onlyWrites Q w (snd (processFile sv P force w)).
Proof.
  intros Hbody.
  destruct (decide (P ∈ processingFiles w)) as [Hin|Hin].
  { rewrite processFile_inflight by done. apply onlyWrites_refl. }
  destruct (Text.includes ".min" (Path.name (Path.parse P))) eqn:Hmin.
  { rewrite processFile_derived by done. apply onlyWrites_refl. }
  pose proof (confined_freshness Q P force w) as Hw1.
  destruct (freshness_total P force w) as ([|] & w1 & Hf); rewrite Hf in Hw1;
    simpl in Hw1.
  - rewrite (processFile_run sv P force w w1) by done.
    pose proof (Hbody (entered P w1)) as Hb.
    assert (Hrel : forall w2, onlyWrites Q (entered P w1) w2 ->
                              onlyWrites Q w (released P w2)).
    { intros w2 ((B1 & B2 & B3) & B4 & B5).
      destruct Hw1 as ((A1 & A2 & A3) & A4 & A5).
      assert (Hset : ({[P]} ∪ processingFiles w) ∖ {[P]} = processingFiles w).
      { apply set_eq. intros x.
        rewrite elem_of_difference, elem_of_union, elem_of_singleton.
        split; [by intros [[->|?] ?]|].
        intros Hx. split; [by right|]. by intros ->. }
      repeat split; simpl in *; try congruence.
      - intros p Hp. rewrite B4 by done. by apply A4.
      - intros p Hp. apply B5. simpl. by apply A5. }
    destruct (processBody sv P (entered P w1)) as [[v|e] w2]; simpl in *.
    + by apply Hrel.
    + apply Hrel. eapply onlyWrites_trans; [exact Hb|].
      apply confined_when, confined_log.
  - by rewrite (processFile_skip sv P force w w1) by done.
Qed.

(** A source is none of its artifacts. *)
Lemma source_not_artifact P : ~ artifacts P P.
Proof.
  assert (Hdest : forall isRtl : bool,
             P <> getDestPath P isRtl /\ P <> getDestPath P isRtl ++ ".map").
  { intros isRtl.
    set (nb := Path.name (Path.parse P)
               ++ (if isRtl then RTL_CONFIG.rtlSuffix else [])
               ++ ".min" ++ Path.ext (Path.parse P)).
    pose proof (PathFacts.destName_plain P isRtl) as Hnb. fold nb in Hnb.
    assert (Hlen : length (Path.name (Path.parse P)
                           ++ Path.ext (Path.parse P)) < length nb).
    { unfold nb. rewrite !length_app. simpl. lia. }
    assert (Hbase : Path.base (Path.parse (getDestPath P isRtl)) = nb).
    { rewrite PathFacts.getDestPath_shape. by apply PathFacts.base_dest. }
    destruct (DestFacts.map_fields P isRtl) as (Hmn & Hme & Hmb).
    rewrite Hbase in Hmn, Hmb.
    split; intros E.
    - destruct (PathFacts.parse_name_ext P) as [H|[Hn He]].
      + rewrite E in H at 3. rewrite Hbase in H. rewrite H in Hlen. lia.
      + pose proof (PathFacts.getDestPath_shape P isRtl) as Hs. fold nb in Hs.
        destruct (DestFacts.parse_dest (Path.dir (Path.parse P)) nb Hnb)
          as (Hn' & He' & _).
        rewrite <- Hs, <- E, Hn in Hn'. rewrite <- Hs, <- E, He in He'.
        pose proof (PathFacts.splitExt_app true nb) as Happ.
        rewrite <- Hn', <- He' in Happ. destruct Hnb as [Hne _]. by apply Hne.
    - destruct (PathFacts.parse_name_ext P) as [H|[Hn He]].
      + rewrite E in H at 3. rewrite Hmb in H. rewrite H in Hlen.
        rewrite length_app in Hlen. simpl in Hlen. lia.
      + rewrite E in Hn at 1. rewrite Hmn in Hn.
        destruct Hnb as [Hne _]. by apply Hne. }
  intros [[H|H]|[H|H]].
  - by destruct (Hdest false).
  - by destruct (Hdest false).
  - by destruct (Hdest true).
  - by destruct (Hdest true).
Qed.

End ProcessFacts.

(** X10.  The File Processor writes its artifacts and nothing else.
    Whatever the call does, a file that is none of the four artifacts of
    the path (the destination and its map, for the LTR and for the RTL
    variant) is as it was; for a path that is not a style sheet so are
    the two RTL artifacts; no file disappears; the watcher registry and
    the timers are as they were. *)
Theorem processFile_writes_only_artifacts (sv : Services) (P : list ascii)
  (force : bool) (w : World) :
  let w' := snd (processFile sv P force w) in
  (forall p, ~ artifacts P p -> files w' !! p = files w !! p)
  /\ (~ isCss P ->
      forall p, ~ ltrPaths P p -> files w' !! p = files w !! p)
  /\ (forall p, is_Some (files w !! p) -> is_Some (files w' !! p))
  /\ watchedDirectories w' = watchedDirectories w
  /\ timers w' = timers w.
Proof.
  cbv zeta.
  destruct (ProcessFacts.processFile_onlyWrites (artifacts P) sv P force w)
    as ((_ & Hwd & Hts) & Hkeep & Hsome).
  { apply ProcessFacts.confined_processBody_artifacts. }
  repeat split; try done.
  intros Hcss.
  destruct (ProcessFacts.processFile_onlyWrites (ltrPaths P) sv P force w)
    as (_ & Hmain & _); [|done].
  apply ProcessFacts.confined_processBody_main.
  unfold Text.eqb. by apply bool_decide_eq_false_2.
Qed.

(** X11.  The File Processor never writes to its source: the file at the
    path it was given is after the call what it was before. *)
Theorem processFile_keeps_source (sv : Services) (P : list ascii)
  (force : bool) (w : World) :
  files (snd (processFile sv P force w)) !! P = files w !! P.
Proof.
  destruct (ProcessFacts.processFile_onlyWrites (artifacts P) sv P force w)
    as (_ & Hkeep & _).
  { apply ProcessFacts.confined_processBody_artifacts. }
  apply Hkeep, ProcessFacts.source_not_artifact.
Qed.

Module OutcomeFacts.

Lemma released_appended P l w :
  released P (appended l w) = appended l (released P w).
Proof. reflexivity. Qed.

Lemma entered_appended P l w :
  entered P (appended l w) = appended l (entered P w).
Proof. reflexivity. Qed.

Lemma when_log (b : bool) e w :
  when b (log e) w = (Ok tt, appended (if b then [e] else []) w).
Proof.
  destruct b; [done|]. unfold when, ret. by rewrite StageFacts.appended_nil.
Qed.

Lemma freshness_missing P force w :
  files w !! P = None ->
  freshness P force w
  = (Ok true, appended (if force then [] else [ErrStat P]) w).
Proof.
  intros Hf. destruct force; simpl.
  - unfold ret. by rewrite StageFacts.appended_nil.
  - unfold isSourceNewer, tryCatch, bind, stat. by rewrite Hf.
Qed.

Lemma freshness_present P force w f :
  files w !! P = Some f -> snd (freshness P force w) = w.
Proof.
  intros Hf. destruct force; [done|]. simpl.
  unfold isSourceNewer, tryCatch, bind, stat, log, ret. rewrite Hf.
  destruct (files w !! getDestPath P false); [|done].
  destruct (_ && _); [|done].
  by destruct (files w !! getDestPath P true).
Qed.

Lemma processBody_unsupported sv P w :
  supported P = false -> processBody sv P w = (Ok VUndefined, w).
Proof.
  unfold supported, processBody. intros H.
  apply orb_false_iff in H as [-> ->]. done.
Qed.

Lemma processBody_supported_eq sv P :
  supported P = true ->
  processBody sv P
  = (input <- readTextFile P ;;
     ensureDirSync sv (Path.dirname (getDestPath P false)) ;;;
     (if Text.eqb (Text.toLowerCase (Path.extname P)) CSS_EXT
      then processCss sv P input
      else processJs sv P input (getDestPath P false)) ;;;
     ret (VBool true)).
Proof.
  unfold supported, processBody. intros H.
  destruct (Text.eqb _ CSS_EXT); [done|]. simpl in H. by rewrite H.
Qed.

Lemma logsOnly_files_of {A} (m : M A) w :
  logsOnly m -> files (snd (m w)) = files w /\ clock (snd (m w)) = clock w.
Proof. intros H. destruct (H w) as [l ->]. done. Qed.

End OutcomeFacts.

(** X12.  A source that is not there.  For a path that is not in flight
    and is not a derived name, with no file at it: [processFile] writes
    no file and leaves the in-flight set as it was; without the force
    flag the Freshness Checker reports the failed stat; for a supported
    extension the read fails, the call answers [false] and reports the
    failure, unless the text of the exception (which holds the path)
    contains one of the two phrases taken for a report already made; for
    any other extension the call settles to [undefined]. *)
Theorem processFile_missing_source (sv : Services) (P : list ascii)
  (force : bool) (w : World) :
  P ∉ processingFiles w ->
  Text.includes ".min" (Path.name (Path.parse P)) = false ->
  files w !! P = None ->
  processFile sv P force w
  = (Ok (if supported P then VBool false else VUndefined),
     appended ((if force then [] else [ErrStat P])
               ++ (if supported P && negb (reported (notFound P))
                   then [ErrProcessing P] else []))
              w).
Proof.
  intros Hin Hmin Hf.
  rewrite (processFile_run sv P force w _ Hin Hmin
             (OutcomeFacts.freshness_missing P force w Hf)).
  set (l0 := if force then [] else [ErrStat P]).
  destruct (supported P) eqn:Hs.
  - rewrite OutcomeFacts.processBody_supported_eq by done.
    unfold bind at 1, readTextFile.
    change (files (entered P (appended l0 w))) with (files w). rewrite Hf.
    rewrite OutcomeFacts.when_log. cbn [snd].
    rewrite OutcomeFacts.released_appended, OutcomeFacts.entered_appended.
    rewrite OutcomeFacts.released_appended.
    rewrite ProcessFacts.released_entered by done.
    rewrite StageFacts.appended_app. unfold reported.
    rewrite negb_orb. done.
  - rewrite OutcomeFacts.processBody_unsupported by done.
    rewrite OutcomeFacts.entered_appended, OutcomeFacts.released_appended.
    rewrite ProcessFacts.released_entered by done.
    by rewrite app_nil_r.
Qed.

Lemma processFile_missing_source_witness :
  processFile Scenario.plainServices "assets/js/app.js" false
              Scenario.styleWorld
  = (Ok (VBool false),
     appended [ErrStat "assets/js/app.js"; ErrProcessing "assets/js/app.js"]
              Scenario.styleWorld).
Proof.
  rewrite (processFile_missing_source Scenario.plainServices
             "assets/js/app.js" false Scenario.styleWorld).
  - reflexivity.
  - vm_compute. intros H. discriminate H.
  - vm_compute. reflexivity.
  - vm_compute. reflexivity.
Defined.

(** X13.  The File Processor never throws: every call settles, whatever
    the minifiers and the file system do.  It settles to [undefined]
    only for an extension that is not supported, and to [true] only for
    a supported extension and a source that is there. *)
Theorem processFile_never_throws (sv : Services) (P : list ascii)
  (force : bool) (w : World) :
  exists (v : JsValue) (w' : World),
    processFile sv P force w = (Ok v, w')
    /\ (v = VUndefined -> supported P = false)
    /\ (v = VBool true -> supported P = true /\ is_Some (files w !! P)).
Proof.
  destruct (processFile_total sv P force w) as (v & w' & H).
  exists v, w'. split; [done|]. split.
  - intros ->.
    pose proof (processFile_undefined_only_unsupported sv P force w) as Hu.
    rewrite H in Hu. specialize (Hu eq_refl).
    unfold supported. rewrite <- negb_orb in Hu. by apply negb_true_iff.
  - intros ->.
    destruct (decide (P ∈ processingFiles w)) as [Hin|Hin].
    { by rewrite processFile_inflight in H. }
    destruct (Text.includes ".min" (Path.name (Path.parse P))) eqn:Hmin.
    { by rewrite processFile_derived in H. }
    destruct (freshness_total P force w) as ([|] & w0 & Hf).
    2:{ by rewrite (processFile_skip sv P force w w0) in H. }
    rewrite (processFile_run sv P force w w0) in H by done.
    destruct (processBody sv P (entered P w0)) as [[v|e] w2] eqn:Eb; [|done].
    injection H as -> <-. split.
    + destruct (supported P) eqn:Hs; [done|].
      by rewrite OutcomeFacts.processBody_unsupported in Eb.
    + apply processBody_true in Eb. simpl in Eb.
      destruct (OutcomeFacts.logsOnly_files_of (freshness P force) w
                  (StageFacts.logsOnly_freshness P force)) as [Hfs _].
      rewrite Hf in Hfs. simpl in Hfs. by rewrite <- Hfs.
Qed.

Module WriteFacts.

Lemma writeTextFile_ok sv p data w w' :
  writeTextFile sv p data w = (Ok tt, w') ->
  files w' = <[p := mkFile data (Some (clock w))]> (files w).
Proof.
  unfold writeTextFile. destruct (writeFails sv w p); [done|].
  by intros [= <-].
Qed.

Lemma when_write_other sv (b : bool) p data q w w' :
  q <> p ->
  when b (writeTextFile sv p data) w = (Ok tt, w') ->
  files w' !! q = files w !! q.
Proof.
  intros Hq. destruct b; simpl; [|by intros [= <-]].
  intros H. apply writeTextFile_ok in H. rewrite H.
  by apply lookup_insert_ne.
Qed.

Lemma not_own_map (p : list ascii) : p <> p ++ ".map".
Proof.
  intros E. apply (f_equal (@length _)) in E. rewrite length_app in E.
  simpl in E. lia.
Qed.

(** The file [writeLtr] leaves at the LTR destination. *)
Lemma writeLtr_file sv P input w r w' :
  writeLtr sv P input w = (Ok r, w') ->
  files w' !! getDestPath P false
  = Some (mkFile (code r ++ sourceMapComment true (getDestPath P false ++ ".map"))
                 (Some (clock w))).
Proof.
  unfold writeLtr. intros H.
  apply bind_inv_ok in H as (r0 & w1 & Hm & H).
  apply bind_inv_ok in H as ([] & w2 & Hw & H).
  apply bind_inv_ok in H as ([] & w3 & Hmap & H).
  injection H as <- <-.
  destruct (OutcomeFacts.logsOnly_files_of (minifyCss sv input P false) w
              (StageFacts.logsOnly_minifyCss sv input P false)) as [_ Hc].
  rewrite Hm in Hc. simpl in Hc.
  rewrite (when_write_other _ _ _ _ _ _ _ (not_own_map _) Hmap).
  apply writeTextFile_ok in Hw. rewrite Hw, lookup_insert_eq, Hc. done.
Qed.

Lemma processCss_file sv P input w w' :
  processCss sv P input w = (Ok tt, w') ->
  exists code,
    files w' !! getDestPath P false
    = Some (mkFile (code ++ sourceMapComment true (getDestPath P false ++ ".map"))
                   (Some (clock w))).
Proof.
  unfold processCss. intros H.
  apply bind_inv_ok in H as (r & w1 & Hl & H).
  apply bind_inv_ok in H as ([] & w2 & Hr & H).
  apply bind_inv_ok in H as ([] & w3 & Hlog & H).
  exists (code r).
  rewrite <- (writeLtr_file _ _ _ _ _ _ Hl).
  pose proof (confined_writeRtl sv P input w1) as (_ & Hkeep & _).
  rewrite Hr in Hkeep. simpl in Hkeep.
  rewrite <- Hkeep by apply dest_paths_apart.
  unfold log in Hlog. injection Hlog as <-.
  unfold when in H. destruct (truthy _); by injection H as <-.
Qed.

Lemma processJs_file sv P input w w' :
  processJs sv P input (getDestPath P false) w = (Ok tt, w') ->
  exists code,
    files w' !! getDestPath P false
    = Some (mkFile (code ++ sourceMapComment false (getDestPath P false ++ ".map"))
                   (Some (clock w))).
Proof.
  unfold processJs. intros H.
  apply bind_inv_ok in H as (r & w1 & Hm & H).
  apply bind_inv_ok in H as ([] & w2 & Hw & H).
  exists (code r).
  destruct (OutcomeFacts.logsOnly_files_of (minifyJavaScript sv input P) w
              (StageFacts.logsOnly_minifyJavaScript sv input P)) as [_ Hc].
  rewrite Hm in Hc. simpl in Hc.
  assert (Hsame : files w' !! getDestPath P false
                  = files w2 !! getDestPath P false).
  { unfold when in H. destruct (truthy _); [|by injection H as <-].
    apply bind_inv_ok in H as ([] & w3 & Hmap & H).
    apply bind_inv_ok in H as ([] & w4 & Hl1 & H).
    unfold log in Hl1, H. injection Hl1 as <-. injection H as <-.
    simpl. apply writeTextFile_ok in Hmap. rewrite Hmap.
    apply lookup_insert_ne. intros E. by apply (not_own_map (getDestPath P false)). }
  rewrite Hsame.
  apply writeTextFile_ok in Hw. rewrite Hw, lookup_insert_eq, Hc. done.
Qed.

Lemma processBody_file sv P w w' :
  processBody sv P w = (Ok (VBool true), w') ->
  exists code,
    files w' !! getDestPath P false
    = Some (mkFile (code ++ sourceMapComment (bool_decide (isCss P))
                                             (getDestPath P false ++ ".map"))
                   (Some (clock w))).
Proof.
  intros H. destruct (supported P) eqn:Hs.
  2:{ by rewrite OutcomeFacts.processBody_unsupported in H. }
  rewrite OutcomeFacts.processBody_supported_eq in H by done.
  apply bind_inv_ok in H as (input & w1 & Hr & H).
  apply bind_inv_ok in H as ([] & w2 & He & H).
  apply bind_inv_ok in H as ([] & w3 & Hp & H).
  injection H as <-.
  assert (Hc : clock w2 = clock w).
  { destruct (OutcomeFacts.logsOnly_files_of (readTextFile P) w
                (StageFacts.logsOnly_readTextFile P)) as [_ H1].
    rewrite Hr in H1. simpl in H1.
    destruct (OutcomeFacts.logsOnly_files_of (ensureDirSync sv _) w1
                (StageFacts.logsOnly_ensureDirSync sv
                   (Path.dirname (getDestPath P false)))) as [_ H2].
    rewrite He in H2. simpl in H2. congruence. }
  rewrite <- Hc. unfold isCss, Text.eqb in *.
  case_bool_decide.
  - by apply processCss_file in Hp.
  - by apply processJs_file in Hp.
Qed.

End WriteFacts.



(** ** The CSS Transform Stage, further *)

Module CssFacts.

Lemma readDefinitions sv w :
  tryCatch
    (c <- readTextFile (definitionsPath sv) ;;
     ret (if Text.endsWith [LF] c then c else c ++ [LF]))
    (fun readError =>
       log (ErrDefinitionsUnreadable (definitionsPath sv)) ;;; ret []) w
  = (Ok (prepended sv w), appended (definitionsLines sv w) w).
Proof.
  unfold tryCatch, bind, readTextFile, prepended, definitionsLines, ret, log.
  destruct (files w !! definitionsPath sv); [|done].
  by rewrite StageFacts.appended_nil.
Qed.

Lemma minifyCss_throw sv input filePath isRtl w e :
  transform sv filePath (prepended sv w ++ cleanedInput input) = Throw e ->
  minifyCss sv input filePath isRtl w
  = (Throw e,
     appended (definitionsLines sv w ++ failureLines filePath e) w).
Proof.
  intros Ht. unfold minifyCss.
  unfold tryCatch at 1. unfold bind at 1. rewrite readDefinitions.
  unfold bind at 1, liftResult. rewrite Ht.
  unfold bind at 1.
  change (log ?x ?w0) with (Ok tt, appended [x] w0). cbv iota beta.
  unfold bind at 1. rewrite OutcomeFacts.when_log. cbv iota beta.
  unfold throw, failureLines. rewrite !StageFacts.appended_app.
  by case_bool_decide.
Qed.

End CssFacts.

(** X15.  A minifier that throws.  When lightningcss throws on the text
    it is given (the definitions, then the cleaned input), [minifyCss]
    throws the same exception; it reports the failure in one line, and
    in a second line the hint about import rules when the exception is
    of type [UnexpectedImportRule]; nothing but the console changes. *)
Theorem minifyCss_rethrows (sv : Services) (input filePath : list ascii)
  (isRtl : bool) (w : World) (e : Exn) :
  transform sv filePath (prepended sv w ++ cleanedInput input) = Throw e ->
  minifyCss sv input filePath isRtl w
  = (Throw e,
     appended (definitionsLines sv w ++ failureLines filePath e) w).
Proof. apply CssFacts.minifyCss_throw. Qed.

Lemma minifyCss_rethrows_witness :
  minifyCss Scenario.rtlFailingServices "/* RTL-specific */" Scenario.stylePath
            true Scenario.styleWorld
  = (Throw (mkExn "SyntaxError: unexpected token" None),
     appended [ErrCssMinification Scenario.stylePath] Scenario.styleWorld).
Proof.
  rewrite (minifyCss_rethrows Scenario.rtlFailingServices
             "/* RTL-specific */" Scenario.stylePath true Scenario.styleWorld
             (mkExn "SyntaxError: unexpected token" None)).
  - reflexivity.
  - vm_compute. reflexivity.
Defined.

(** X16.  Without a definitions file.  When the definitions file cannot
    be read, [minifyCss] reports it in one line and goes on with no
    definitions: the minifier gets the cleaned input alone and its
    result is handed back as it is, with no removal step. *)
Theorem minifyCss_without_definitions (sv : Services)
  (input filePath : list ascii) (isRtl : bool) (w : World)
  (r : TransformResult) :
  files w !! definitionsPath sv = None ->
  transform sv filePath (cleanedInput input) = Ok r ->
  minifyCss sv input filePath isRtl w
  = (Ok r, appended [ErrDefinitionsUnreadable (definitionsPath sv)] w).
Proof.
  intros Hf Ht. unfold minifyCss.
  unfold tryCatch at 1. unfold bind at 1. rewrite CssFacts.readDefinitions.
  unfold prepended, definitionsLines. rewrite Hf.
  unfold bind at 1, liftResult. simpl app. rewrite Ht.
  unfold removePrependedDefinitions. simpl. unfold bind, ret.
  by destruct r.
Qed.

Lemma minifyCss_without_definitions_witness :
  minifyCss Scenario.plainServices ".a { color: red }" Scenario.stylePath
            false Cases.scriptWorld
  = (Ok (mkResult ".a{color:red}" (Some (text_of_string "{}"))),
     appended [ErrDefinitionsUnreadable "/srv/site/assets/css/definitions.css"]
              Cases.scriptWorld).
Proof.
  apply (minifyCss_without_definitions Scenario.plainServices
           ".a { color: red }" Scenario.stylePath false
           Cases.scriptWorld).
  - vm_compute. reflexivity.
  - vm_compute. reflexivity.
Defined.

(** X17.  A style sheet the minifier rejects.  For a style sheet that
    is there, is due and is not in flight, when lightningcss throws on
    the LTR input: [processFile] answers [false], writes no file and
    leaves the in-flight set as it was; the console gets the lines of
    [minifyCss] and then the line of [processFile] itself, which is left
    out only when the text of the exception contains one of the two
    phrases taken for a report already made. *)
Theorem processFile_css_failure (sv : Services) (P : list ascii)
  (force : bool) (w : World) (f : File) (e : Exn) :
  P ∉ processingFiles w ->
  Text.includes ".min" (Path.name (Path.parse P)) = false ->
  isCss P ->
  files w !! P = Some f ->
  fst (freshness P force w) = Ok true ->
  ensureDirFails sv (entered P w) (Path.dirname (getDestPath P false)) = None ->
  transform sv P (prepended sv w ++ cleanedInput (content f)) = Throw e ->
  processFile sv P force w
  = (Ok (VBool false),
     appended (definitionsLines sv w ++ failureLines P e
               ++ (if reported e then [] else [ErrProcessing P]))
              w).
Proof.
  intros Hin Hmin Hcss Hf Hfresh Hdir Ht.
  assert (Hfr : freshness P force w = (Ok true, w)).
  { pose proof (OutcomeFacts.freshness_present P force w f Hf) as Hw.
    destruct (freshness P force w) as [r w0]. simpl in *. congruence. }
  rewrite (processFile_run sv P force w w Hin Hmin Hfr).
  assert (Hs : supported P = true).
  { unfold supported, Text.eqb. unfold isCss in Hcss.
    by rewrite (bool_decide_eq_true_2 _ Hcss). }
  rewrite OutcomeFacts.processBody_supported_eq by done.
  unfold bind at 1, readTextFile.
  change (files (entered P w)) with (files w). rewrite Hf.
  unfold bind at 1, ensureDirSync. rewrite Hdir.
  unfold Text.eqb. unfold isCss in Hcss.
  rewrite (bool_decide_eq_true_2 _ Hcss).
  unfold bind at 1, processCss. unfold bind at 1, writeLtr.
  unfold bind at 1.
  rewrite (CssFacts.minifyCss_throw sv (content f) P false (entered P w) e Ht).
  rewrite OutcomeFacts.when_log. simpl snd.
  rewrite StageFacts.appended_app, OutcomeFacts.released_appended.
  rewrite ProcessFacts.released_entered by done.
  unfold reported. rewrite <- negb_orb, <- app_assoc.
  by destruct (_ || _).
Qed.

Lemma processFile_css_failure_witness :
  processFile Cases.rejectingServices Scenario.stylePath true
              Scenario.styleWorld
  = (Ok (VBool false),
     appended [ErrCssMinification Scenario.stylePath;
               ErrProcessing Scenario.stylePath]
              Scenario.styleWorld).
Proof.
  rewrite (processFile_css_failure Cases.rejectingServices Scenario.stylePath
             true Scenario.styleWorld
             (mkFile ".a{margin-left:1px}" (Some 10%Z))
             (mkExn "SyntaxError: unexpected token" None)).
  - reflexivity.
  - vm_compute. intros H. discriminate H.
  - vm_compute. reflexivity.
  - vm_compute. reflexivity.
  - vm_compute. reflexivity.
  - reflexivity.
  - reflexivity.
  - reflexivity.
Defined.

(** ** The Directory Watcher, further *)

Module WatchFacts.

Lemma derived_output p :
  output p -> Text.includes ".min" (Path.name (Path.parse p)) = true.
Proof.
  intros (P & isRtl & He & [->| ->]).
  - destruct (DestFacts.dest_fields P isRtl He) as (-> & _ & _).
    rewrite (app_assoc (Path.name _)).
    rewrite <- (app_nil_r ".min") at 2.
    apply DestFacts.includes_app.
  - destruct (DestFacts.map_fields P isRtl) as (-> & _ & _).
    rewrite PathFacts.getDestPath_shape.
    rewrite PathFacts.base_dest by apply PathFacts.destName_plain.
    rewrite (app_assoc (Path.name _)).
    apply DestFacts.includes_app.
Qed.

Lemma watchPath_derived sv directory fileExtension path w :
  Text.includes ".min" (Path.name (Path.parse path)) = true ->
  watchPath sv directory fileExtension path w = (Ok tt, w).
Proof.
  intros H. unfold watchPath. rewrite H. by destruct (Text.endsWith _ _).
Qed.

Lemma settled_refl w : settled w w.
Proof. by split. Qed.

Lemma settled_trans w1 w2 w3 : settled w1 w2 -> settled w2 w3 -> settled w1 w3.
Proof. intros [A1 A2] [B1 B2]. split; [congruence|auto]. Qed.

Lemma processFile_settled sv P force w :
  exists v w', processFile sv P force w = (Ok v, w') /\ settled w w'.
Proof.
  destruct (processFile_total sv P force w) as (v & w' & H).
  exists v, w'. split; [done|].
  pose proof (processFile_frame sv P force w) as ((H1 & _) & _ & H2).
  rewrite H in H1, H2. by split.
Qed.

Lemma watchPath_settled sv directory fileExtension path w :
  exists w', watchPath sv directory fileExtension path w = (Ok tt, w')
             /\ settled w w'.
Proof.
  unfold watchPath.
  destruct (Text.endsWith _ _); [|by exists w; split; [|apply settled_refl]].
  destruct (Text.includes _ _); [by exists w; split; [|apply settled_refl]|].
  destruct (watchedDirectories w !! _) as [watchedFiles|].
  - case_bool_decide; [by exists w; split; [|apply settled_refl]|].
    match goal with |- context [bind _ _ ?w0] =>
      destruct (processFile_settled sv path true w0) as (v & w' & Hp & Hs) end.
    exists w'. unfold bind. rewrite Hp. split; [done|]. exact Hs.
  - destruct (processFile_settled sv path true w) as (v & w' & H & Hs).
    exists w'. unfold bind. rewrite H. by split.
Qed.

Lemma forEach_settled sv directory fileExtension ps w :
  exists w', forEach (watchPath sv directory fileExtension) ps w = (Ok tt, w')
             /\ settled w w'.
Proof.
  revert w. induction ps as [|p ps IH]; intros w.
  - exists w. split; [done|apply settled_refl].
  - destruct (watchPath_settled sv directory fileExtension p w)
      as (w1 & H1 & S1).
    destruct (IH w1) as (w2 & H2 & S2).
    exists w2. simpl. unfold bind. rewrite H1. split; [done|].
    by apply (settled_trans _ w1).
Qed.

Lemma startWatcher_present directories extension w :
  Forall (fun directory =>
            is_Some (watchedDirectories w !! (directory ++ ":" ++ extension)))
         directories ->
  startWatcher directories extension w = w.
Proof.
  unfold startWatcher. induction 1 as [|d ds [s Hs] _ IH]; [done|].
  cbn [fold_left]. cbv beta zeta. by rewrite Hs.
Qed.

Lemma startWatcher_lookup directories extension key s w :
  watchedDirectories w !! key = Some s ->
  watchedDirectories (startWatcher directories extension w) !! key = Some s.
Proof.
  unfold startWatcher. revert w.
  induction directories as [|d ds IH]; intros w Hk; [done|].
  cbn [fold_left]. apply IH.
  destruct (watchedDirectories w !! (d ++ ":" ++ extension)) eqn:E; [done|].
  cbn [withWatched watchedDirectories].
  rewrite lookup_insert_ne; [done|]. intros <-. congruence.
Qed.

End WatchFacts.



(** X20.  The watcher does not answer its own writes.  An event all of
    whose paths are files the File Processor writes (destinations and
    their maps) changes nothing, whatever its kind and whatever
    directory and extension the watcher was started for. *)
Theorem watchEvent_ignores_outputs (sv : Services)
  (directory fileExtension : list ascii) (event : FsEvent) (w : World) :
  Forall output (paths event) ->
  watchEvent sv directory fileExtension event w = (Ok tt, w).
Proof.
  intros H. unfold watchEvent.
  assert (Hall : forEach (watchPath sv directory fileExtension) (paths event) w
                 = (Ok tt, w)).
  { induction H as [|p ps Hp _ IH]; [done|].
    simpl. unfold bind.
    rewrite WatchFacts.watchPath_derived by (by apply WatchFacts.derived_output).
    exact IH. }
  by destruct (kind event).
Qed.

Lemma watchEvent_ignores_outputs_witness :
  watchEvent Scenario.plainServices "./assets/css" ".css"
             (mkEvent KindModify
                      [getDestPath Scenario.stylePath false;
                       getDestPath Scenario.stylePath true ++ ".map"])
             Scenario.styleWorld
  = (Ok tt, Scenario.styleWorld).
Proof.
  apply (watchEvent_ignores_outputs Scenario.plainServices "./assets/css"
           ".css").
  assert (H : Path.ext (Path.parse Scenario.stylePath) <> []).
  { vm_compute. discriminate. }
  repeat constructor.
  - exists Scenario.stylePath, false. split; [exact H|by left].
  - exists Scenario.stylePath, true. split; [exact H|by right].
Defined.



(** X22.  Starting the watchers twice is starting them once: a key that
    is registered keeps its set of suppressed paths, and a second run of
    [startWatcher] over the same directories changes nothing. *)
Theorem startWatcher_idempotent (directories : list (list ascii))
  (extension : list ascii) (w : World) :
  startWatcher directories extension (startWatcher directories extension w)
  = startWatcher directories extension w
  /\ forall key s,
       watchedDirectories w !! key = Some s ->
       watchedDirectories (startWatcher directories extension w) !! key
       = Some s.
Proof.
  split.
  - apply WatchFacts.startWatcher_present. apply Forall_forall.
    intros d Hd. apply startWatcher_registers. by apply list_elem_of_In.
  - intros key s. apply WatchFacts.startWatcher_lookup.
Qed.

(** ** The directory scan *)

Module ScanFacts.

Lemma DirEntry_nested_ind (Q : DirEntry -> Prop) :
  (forall name, Q (FileEntry name)) ->
  (forall name entries failure,
     Forall Q entries -> Q (DirectoryEntry name entries failure)) ->
  (forall name, Q (OtherEntry name)) ->
  forall entry, Q entry.
Proof.
  intros Hf Hd Ho. fix IH 1. intros [name|name entries failure|name].
  - apply Hf.
  - apply Hd. induction entries as [|e es IHes]; constructor.
    + apply IH.
    + apply IHes.
  - apply Ho.
Qed.

Lemma endsWith_app p x s :
  Text.endsWith p s = true -> Text.endsWith p (x ++ s) = true.
Proof.
  unfold Text.endsWith. intros H. rewrite rev_app_distr.
  apply RegexFacts.startsWith_iff in H as [r ->].
  rewrite <- app_assoc. apply RegexFacts.startsWith_app.
Qed.

Lemma includes_prefix x a b :
  Text.includes x (a ++ b) = false -> Text.includes x a = false.
Proof.
  intros H. destruct (Text.includes x a) eqn:E; [|done].
  apply (QuietFacts.includes_within _ _ [] b) in E. simpl in E.
  by rewrite E in H.
Qed.

Lemma In_concat_map {A B} (f : A -> list B) l y :
  In y (concat (List.map f l)) -> exists x, In x l /\ In y (f x).
Proof.
  induction l as [|x l IH]; simpl; [done|].
  intros H. apply in_app_or in H as [H|H]; [by exists x; split; [left|]|].
  destruct (IH H) as (x' & Hx & Hy). exists x'. split; [by right|done].
Qed.

(** A file the scan takes, under its directory. *)
Lemma taken_file directory fileExtension name :
  PathSpec.plain name ->
  Text.endsWith fileExtension name = true ->
  Text.includes ".min" name = false ->
  Text.endsWith fileExtension (Path.join directory name) = true
  /\ Text.includes ".min" (Path.name (Path.parse (Path.join directory name)))
     = false.
Proof.
  intros Hp He Hm. rewrite PathFacts.join_plain by done. split.
  - by apply endsWith_app.
  - destruct (DestFacts.parse_dest directory name Hp) as (-> & _ & _).
    apply (includes_prefix _ _ (snd (Path.splitExt true name))).
    by rewrite PathFacts.splitExt_app.
Qed.

Lemma scanEntry_taken fileExtension entry :
  named PathSpec.plain entry ->
  forall directory p,
    In p (fst (scanEntry fileExtension directory entry)) ->
    Text.endsWith fileExtension p = true
    /\ Text.includes ".min" (Path.name (Path.parse p)) = false.
Proof.
  induction entry as [name|name entries failure IH|name]
    using DirEntry_nested_ind; intros Hn directory p Hp.
  - inversion Hn; subst. cbn [scanEntry] in Hp.
    destruct (Text.endsWith fileExtension name) eqn:He;
      destruct (Text.includes ".min" name) eqn:Hm;
      cbn [andb negb fst In] in Hp; try done.
    destruct Hp as [<-|[]]. by apply taken_file.
  - inversion Hn as [|? ? ? _ Hes|]; subst. cbn [scanEntry] in Hp.
    destruct (Text.includes "blocks" directory); [|done].
    unfold scanEntries in Hp. cbn [fst] in Hp. rewrite List.map_map in Hp.
    apply In_concat_map in Hp as (e & He & Hp).
    rewrite Forall_forall in IH, Hes.
    apply list_elem_of_In in He.
    exact (IH e He (Hes e He) _ p Hp).
  - done.
Qed.

End ScanFacts.

(** X23.  Outside the blocks, the scan stays in its directory.  For a
    directory whose path does not contain [blocks], the files found are
    the files of the directory itself whose name ends with the
    extension and does not contain [.min], each joined to the directory,
    in the order of the listing; subdirectories are not entered, whatever
    they hold; the one line written is the one for a failed listing. *)
Theorem scanDirectory_stays_outside_blocks (directory fileExtension : list ascii)
  (entries : list DirEntry) (failure : option Exn) :
  Text.includes "blocks" directory = false ->
  scanDirectory directory fileExtension entries failure
  = (List.map (Path.join directory) (sources fileExtension entries),
     match failure with
     | Some _ => [ErrScanning directory]
     | None => []
     end).
Proof.
  intros Hb. unfold scanDirectory, scanEntries. cbv zeta.
  assert (H : forall es,
             concat (List.map fst (List.map (scanEntry fileExtension directory) es))
             = List.map (Path.join directory) (sources fileExtension es)
             /\ concat (List.map snd
                          (List.map (scanEntry fileExtension directory) es))
                = []).
  { induction es as [|e es [IH1 IH2]]; [done|].
    cbn [List.map concat]. rewrite IH1, IH2.
    unfold sources. cbn [flat_map]. fold (sources fileExtension es).
    destruct e as [name|name sub fl|name]; cbn [scanEntry].
    - by destruct (_ && _).
    - by rewrite Hb.
    - done. }
  destruct (H entries) as [-> ->]. done.
Qed.

Lemma scanDirectory_stays_outside_blocks_witness :
  scanDirectory "./assets/css" ".css"
    [FileEntry "style.css"; FileEntry "style.min.css";
     DirectoryEntry "vendor" [FileEntry "grid.css"] None;
     FileEntry "notes.txt"]
    (Some (mkExn "PermissionDenied" None))
  = ([text_of_string "assets/css/style.css"],
     [ErrScanning "./assets/css"]).
Proof.
  rewrite (scanDirectory_stays_outside_blocks "./assets/css" ".css").
  - vm_compute. reflexivity.
  - vm_compute. reflexivity.
Defined.

(** X24.  What the scan finds, the File Processor takes for a source.
    When the names in the listing are file names (not empty, without a
    separator, neither [.] nor [..]), every path the scan returns, at
    any depth, ends with the extension, and what [parse] reports as its
    name does not contain [.min]: neither the watcher nor [processFile]
    would skip it as a derived file. *)
Theorem scanDirectory_finds_sources (directory fileExtension : list ascii)
  (entries : list DirEntry) (failure : option Exn) (p : list ascii) :
  Forall (named PathSpec.plain) entries ->
  In p (fst (scanDirectory directory fileExtension entries failure)) ->
  Text.endsWith fileExtension p = true
  /\ Text.includes ".min" (Path.name (Path.parse p)) = false.
Proof.
  intros Hn Hp. unfold scanDirectory, scanEntries in Hp. simpl in Hp.
  rewrite List.map_map in Hp.
  apply ScanFacts.In_concat_map in Hp as (e & He & Hp).
  rewrite Forall_forall in Hn. apply list_elem_of_In in He.
  by apply (ScanFacts.scanEntry_taken fileExtension e (Hn e He) directory p).
Qed.

Lemma scanDirectory_finds_sources_witness :
  fst (scanDirectory "./blocks" ".js"
         [DirectoryEntry "hero" [FileEntry "hero.js"; FileEntry "hero.min.js"]
                         None]
         None)
  = [text_of_string "blocks/hero/hero.js"]
  /\ Text.endsWith ".js" "blocks/hero/hero.js" = true
  /\ Text.includes ".min" (Path.name (Path.parse "blocks/hero/hero.js"))
     = false.
Proof.
  split; [vm_compute; reflexivity|].
  apply (scanDirectory_finds_sources "./blocks" ".js"
           [DirectoryEntry "hero"
              [FileEntry "hero.js"; FileEntry "hero.min.js"] None]
           None).
  - repeat constructor; done.
  - vm_compute. by left.
Defined.

(** ** The JS Transform Stage *)

Module JsFacts.

Lemma minifyJavaScript_ok sv input filePath w c m :
  terser sv input (Path.name (Path.parse filePath)) = Ok (c, m) ->
  minifyJavaScript sv input filePath w
  = (Ok (mkResult (jsCode input c) m), w).
Proof.
  intros H. unfold minifyJavaScript, tryCatch, bind, liftResult. by rewrite H.
Qed.

Lemma writeTextFile_written sv p data w :
  writeFails sv w p = None ->
  writeTextFile sv p data w = (Ok tt, written p data w).
Proof. intros H. unfold writeTextFile. by rewrite H. Qed.

Lemma world_eq w1 w2 :
  files w1 = files w2 -> processingFiles w1 = processingFiles w2 ->
  watchedDirectories w1 = watchedDirectories w2 -> timers w1 = timers w2 ->
  console w1 = console w2 -> clock w1 = clock w2 -> w1 = w2.
Proof. destruct w1, w2. cbn. by intros -> -> -> -> -> ->. Qed.

Lemma inflight_restored (P : list ascii) (s : gset (list ascii)) :
  P ∉ s -> ({[P]} ∪ s) ∖ {[P]} = s.
Proof.
  intros Hin. apply set_eq. intros x.
  rewrite elem_of_difference, elem_of_union, elem_of_singleton.
  split; [by intros [[->|?] ?]|].
  intros Hx. split; [by right|]. by intros ->.
Qed.

End JsFacts.

(** X25.  A script that minifies.  For a script that is there, is due
    and is not in flight, when terser answers with a code and a map and
    the writes succeed: [processFile] answers [true]; the destination
    holds the code (the input itself when terser gave no code) followed
    by the source map comment; with a map, the map file is written and
    two lines are logged; without one, nothing is logged at all; no RTL
    file is written and the in-flight set is as it was. *)
Theorem processFile_js_success (sv : Services) (P : list ascii) (force : bool)
  (w : World) (f : File) (c m : option (list ascii)) :
  let dest := getDestPath P false in
  let data := jsCode (content f) c ++ sourceMapComment false (dest ++ ".map") in
  P ∉ processingFiles w ->
  Text.includes ".min" (Path.name (Path.parse P)) = false ->
  Text.toLowerCase (Path.extname P) = JS_EXT ->
  files w !! P = Some f ->
  fst (freshness P force w) = Ok true ->
  ensureDirFails sv (entered P w) (Path.dirname dest) = None ->
  terser sv (content f) (Path.name (Path.parse P)) = Ok (c, m) ->
  writeFails sv (entered P w) dest = None ->
  (truthy m = true ->
   writeFails sv (entered P (written dest data w)) (dest ++ ".map") = None) ->
  processFile sv P force w
  = (Ok (VBool true),
     if truthy m
     then appended [InfoJsMap (dest ++ ".map"); InfoJsGenerated P dest]
                   (written (dest ++ ".map") (default [] m)
                            (written dest data w))
     else written dest data w).
Proof.
  intros dest data Hin Hmin Hjs Hf Hfresh Hdir Ht Hw1 Hw2.
  assert (Hfr : freshness P force w = (Ok true, w)).
  { pose proof (OutcomeFacts.freshness_present P force w f Hf) as Hw.
    destruct (freshness P force w) as [r w0]. simpl in *. congruence. }
  rewrite (processFile_run sv P force w w Hin Hmin Hfr).
  assert (Hs : supported P = true).
  { unfold supported, Text.eqb.
    rewrite (bool_decide_eq_true_2 (_ = JS_EXT) Hjs). apply orb_true_r. }
  rewrite OutcomeFacts.processBody_supported_eq by done.
  unfold bind at 1, readTextFile.
  change (files (entered P w)) with (files w). rewrite Hf.
  unfold bind at 1, ensureDirSync. fold dest. rewrite Hdir.
  unfold Text.eqb. rewrite Hjs.
  rewrite bool_decide_eq_false_2 by done.
  unfold bind at 1, processJs. unfold bind at 1.
  rewrite (JsFacts.minifyJavaScript_ok _ _ _ _ c m Ht).
  unfold bind at 1. cbn [code map]. fold dest.
  change ([LF] ++ "//# sourceMappingURL="
          ++ Path.base (Path.parse (dest ++ ".map")))
    with (sourceMapComment false (dest ++ ".map")).
  fold data. rewrite (JsFacts.writeTextFile_written _ _ _ _ Hw1).
  destruct (truthy m) eqn:Hm.
  - unfold when. unfold bind at 1.
    rewrite JsFacts.writeTextFile_written by (by apply Hw2).
    unfold bind, log, ret. f_equal.
    apply JsFacts.world_eq; try reflexivity.
    + change (({[P]} ∪ processingFiles w) ∖ {[P]} = processingFiles w).
      by apply JsFacts.inflight_restored.
    + unfold appended, withConsole, released, withProcessing.
      cbn [console]. by rewrite <- app_assoc.
  - unfold when, ret, bind. f_equal.
    apply JsFacts.world_eq; try reflexivity.
    change (({[P]} ∪ processingFiles w) ∖ {[P]} = processingFiles w).
    by apply JsFacts.inflight_restored.
Qed.

Lemma processFile_js_success_witness :
  processFile Scenario.plainServices Cases.scriptPath true Cases.scriptWorld
  = (Ok (VBool true),
     appended [InfoJsMap "assets/js/app.min.js.map";
               InfoJsGenerated Cases.scriptPath "assets/js/app.min.js"]
       (written "assets/js/app.min.js.map" "{}"
          (written "assets/js/app.min.js"
             ("let  a = 1;" ++ [LF]
              ++ "//# sourceMappingURL=app.min.js.map")
             Cases.scriptWorld))).
Proof.
  rewrite (processFile_js_success Scenario.plainServices Cases.scriptPath true
             Cases.scriptWorld (mkFile "let  a = 1;" (Some 10%Z))
             (Some (text_of_string "let  a = 1;"))
             (Some (text_of_string "{}"))).
  - vm_compute. reflexivity.
  - vm_compute. intros H. discriminate H.
  - vm_compute. reflexivity.
  - vm_compute. reflexivity.
  - vm_compute. reflexivity.
  - reflexivity.
  - reflexivity.
  - reflexivity.
  - reflexivity.
  - reflexivity.
Defined.

(** ** The RTL Transform Stage, further *)

Module RtlFacts.

Import RegexSpec RegexFacts.

Lemma atFree_copyFree A : atFree A -> copyFree Regex.importRegex A.
Proof.
  intros HA v v' Y -> Hv.
  destruct (Regex.importRegex (v ++ Y)) as [rest|] eqn:E; [|done].
  apply importRegex_sound in E as (stmt & Hs & E).
  apply definitionsImport_head in Hs as (body & -> & _).
  destruct v as [|x v]; [done|]. simpl in E. injection E as -> _.
  unfold atFree in HA. apply Forall_app in HA as [_ HA].
  by inversion HA.
Qed.

Lemma cleanedInput_atFree A B :
  atFree A -> cleanedInput (A ++ B) = A ++ cleanedInput B.
Proof. intros HA. by apply replaceAll_copy, atFree_copyFree. Qed.

Lemma rtlRules_atFree : atFree rtlRules.
Proof.
  unfold atFree. apply Forall_forall. intros c Hc ->.
  apply list_elem_of_In in Hc. vm_compute in Hc.
  repeat (destruct Hc as [Hc|Hc]; [discriminate Hc|]). done.
Qed.

End RtlFacts.

(** X26.  What the RTL variant is made from, and how its failure is
    reported.  The minifier is given the definitions, then the RTL
    rules, then the input with its properties substituted and its
    imports of the definitions stripped: the definitions themselves are
    not substituted.  When the minifier throws on that text,
    [generateRtlCss] throws the same exception, after the lines of
    [minifyCss] and one line of its own. *)
Theorem generateRtlCss_rethrows (sv : Services) (input filePath : list ascii)
  (w : World) (e : Exn) :
  transform sv filePath
            (prepended sv w ++ rtlRules ++ cleanedInput (rtlSubstitute input))
  = Throw e ->
  generateRtlCss sv input filePath w
  = (Throw e,
     appended (definitionsLines sv w ++ failureLines filePath e
               ++ [ErrRtlGeneration filePath])
              w).
Proof.
  intros Ht. unfold generateRtlCss, tryCatch. cbv zeta.
  rewrite (CssFacts.minifyCss_throw sv _ filePath true w e).
  - unfold bind. change (log ?x ?w0) with (Ok tt, appended [x] w0).
    cbv iota beta. unfold throw.
    by rewrite StageFacts.appended_app, <- app_assoc.
  - by rewrite RtlFacts.cleanedInput_atFree by apply RtlFacts.rtlRules_atFree.
Qed.

Lemma generateRtlCss_rethrows_witness :
  generateRtlCss Scenario.rtlFailingServices ".a{left:0}" Scenario.stylePath
                 Scenario.styleWorld
  = (Throw (mkExn "SyntaxError: unexpected token" None),
     appended [ErrCssMinification Scenario.stylePath;
               ErrRtlGeneration Scenario.stylePath]
              Scenario.styleWorld).
Proof.
  rewrite (generateRtlCss_rethrows Scenario.rtlFailingServices ".a{left:0}"
             Scenario.stylePath Scenario.styleWorld
             (mkExn "SyntaxError: unexpected token" None)).
  - reflexivity.
  - vm_compute. reflexivity.
Defined.

(** ** The in-flight set, with the watchers side by side *)

Module TurnFacts.

Lemma setPhase_same k phase phases : setPhase k phase phases k = phase.
Proof. unfold setPhase. by rewrite decide_True. Qed.

Lemma setPhase_other k k' phase phases :
  k' <> k -> setPhase k phase phases k' = phases k'.
Proof. intros H. unfold setPhase. by rewrite decide_False. Qed.

(** Nobody else is busy with a path a watcher handles. *)
Lemma busy_is_handler handles s k k' filePath :
  apart handles -> inflightInvariant handles s ->
  In k watchers -> handles k filePath ->
  snd s k' = Processing filePath -> k' = k.
Proof.
  intros Hap [_ Hown] Hk Hh Hb.
  destruct (Hown k' filePath) as [Hk' Hh']; [by right|].
  by apply (Hap k' k filePath).
Qed.

Lemma not_inflight handles s k filePath :
  apart handles -> inflightInvariant handles s ->
  In k watchers -> handles k filePath ->
  snd s k <> Processing filePath ->
  filePath ∉ processingFiles (fst s).
Proof.
  intros Hap Hinv Hk Hh Hnot Hin.
  destruct Hinv as [Hset Hown]. apply Hset in Hin as (k' & Hk' & Hb).
  assert (k' = k) as -> by (by apply (busy_is_handler handles s k k' filePath)).
  done.
Qed.

Lemma invariant_add handles w phases k filePath :
  apart handles -> inflightInvariant handles (w, phases) ->
  In k watchers -> handles k filePath ->
  phases k <> Processing filePath ->
  (forall p, phases k <> Processing p) ->
  inflightInvariant handles
    (entered filePath w, setPhase k (Processing filePath) phases).
Proof.
  intros Hap [Hset Hown] Hk Hh Hnot Hfree. split; simpl in *.
  - intros p. rewrite elem_of_union, elem_of_singleton, Hset. split.
    + intros [->|(k' & Hk' & Hb)].
      * exists k. split; [done|]. apply setPhase_same.
      * exists k'. split; [done|].
        rewrite setPhase_other; [done|]. intros ->. by apply (Hfree p).
    + intros (k' & Hk' & Hb). destruct (decide (k' = k)) as [->|Hne].
      * rewrite setPhase_same in Hb. left. by injection Hb.
      * rewrite setPhase_other in Hb by done. right. eauto.
  - intros k' p Hb. destruct (decide (k' = k)) as [->|Hne].
    + rewrite setPhase_same in Hb. destruct Hb as [Hb|Hb]; [done|].
      injection Hb as <-. done.
    + rewrite setPhase_other in Hb by done. by apply Hown.
Qed.

Lemma invariant_phase handles w phases k phase :
  inflightInvariant handles (w, phases) ->
  (forall p, phases k <> Processing p) ->
  (forall p, phase <> Processing p) ->
  (forall p, phase = Checking p -> In k watchers /\ handles k p) ->
  inflightInvariant handles (w, setPhase k phase phases).
Proof.
  intros [Hset Hown] Hfree Hnew Hh. split; simpl in *.
  - intros p. rewrite Hset. split; intros (k' & Hk' & Hb).
    + exists k'. split; [done|]. rewrite setPhase_other; [done|].
      intros ->. by apply (Hfree p).
    + destruct (decide (k' = k)) as [->|Hne].
      * rewrite setPhase_same in Hb. by destruct (Hnew p).
      * rewrite setPhase_other in Hb by done. eauto.
  - intros k' p Hb. destruct (decide (k' = k)) as [->|Hne].
    + rewrite setPhase_same in Hb. destruct Hb as [Hb|Hb].
      * by apply Hh.
      * by destruct (Hnew p).
    + rewrite setPhase_other in Hb by done. by apply Hown.
Qed.

Lemma invariant_release handles w phases k filePath :
  apart handles -> inflightInvariant handles (w, phases) ->
  In k watchers -> phases k = Processing filePath ->
  inflightInvariant handles (released filePath w, setPhase k Idle phases).
Proof.
  intros Hap Hinv Hk Hb. pose proof Hinv as [Hset Hown].
  destruct (Hown k filePath) as [_ Hh]; [by right|].
  split; simpl in *.
  - intros p. rewrite elem_of_difference, elem_of_singleton, Hset. split.
    + intros [(k' & Hk' & Hb') Hne]. exists k'. split; [done|].
      rewrite setPhase_other; [done|]. intros ->.
      rewrite Hb in Hb'. by injection Hb'.
    + intros (k' & Hk' & Hb'). destruct (decide (k' = k)) as [->|Hne].
      * by rewrite setPhase_same in Hb'.
      * rewrite setPhase_other in Hb' by done. split; [eauto|].
        intros ->. apply Hne.
        by apply (busy_is_handler handles (w, phases) k k' filePath).
  - intros k' p Hb'. destruct (decide (k' = k)) as [->|Hne].
    + rewrite setPhase_same in Hb'. by destruct Hb'.
    + rewrite setPhase_other in Hb' by done. by apply Hown.
Qed.

Lemma invariant_step handles s e s' :
  apart handles -> inflightInvariant handles s ->
  step handles s e s' -> inflightInvariant handles s'.
Proof.
  intros Hap Hinv Hstep.
  destruct Hstep as [k p w phases Hk Hh Hidle Hin
                    |k p w phases Hk Hh Hidle Hin Hmin
                    |k p w phases Hk Hh Hidle Hin Hmin
                    |k p w phases Hk Hh Hidle Hin Hmin
                    |k p w phases Hk Hc
                    |k p w phases Hk Hc
                    |k p v w phases Hk Hb
                    |w w' phases Hsame].
  - done.
  - done.
  - apply invariant_add; try done; intros; by rewrite Hidle.
  - apply invariant_phase; try done.
    + intros q. by rewrite Hidle.
    + by intros q [= <-].
  - apply invariant_phase; try done. intros q. by rewrite Hc.
  - destruct Hinv as [Hset Hown].
    destruct (Hown k p) as [_ Hh]; [by left|].
    apply invariant_add; try done; try (by split); intros; by rewrite Hc.
  - by apply invariant_release.
  - destruct Hinv as [Hset Hown]. split; simpl in *; [|done].
    intros q. rewrite Hsame. apply Hset.
Qed.

Lemma invariant_reachable handles s :
  apart handles -> reachable handles s -> inflightInvariant handles s.
Proof.
  intros Hap Hr. induction Hr as [w Hw|s e s' _ IH Hstep].
  - split; simpl.
    + intros p. rewrite Hw. split; [by intros ?%elem_of_empty|].
      by intros (k & _ & ?).
    + by intros k p [?|?].
  - by apply (invariant_step handles s e s').
Qed.

(** The watchers of the scenario keep apart. *)
Lemma handles_apart : apart Cases.handles.
Proof.
  assert (Hpre : forall a b p : list ascii,
             Text.startsWith a p = true -> Text.startsWith b p = true ->
             Text.startsWith a b || Text.startsWith b a = true).
  { intros a. induction a as [|x a IH]; intros b p Ha Hb; [done|].
    destruct b as [|y b]; [by rewrite orb_true_r|].
    destruct p as [|z p]; [done|]. simpl in *.
    apply andb_true_iff in Ha as [Hx Ha]. apply andb_true_iff in Hb as [Hy Hb].
    apply Ascii.eqb_eq in Hx as ->. apply Ascii.eqb_eq in Hy as ->.
    rewrite Ascii.eqb_refl. simpl. by apply (IH b p). }
  intros k k' p Hk Hk' Hh Hh'. unfold Cases.handles in *.
  apply andb_true_iff in Hh as [Hd He].
  apply andb_true_iff in Hh' as [Hd' He'].
  pose proof (Hpre _ _ _ Hd Hd') as Hdir.
  unfold Text.endsWith in He, He'.
  pose proof (Hpre _ _ _ He He') as Hext.
  unfold watchers, WATCH_DIRECTORIES_css, WATCH_DIRECTORIES_js in Hk, Hk'.
  simpl in Hk, Hk'.
  destruct Hk as [<-|[<-|[<-|[<-|[]]]]];
    destruct Hk' as [<-|[<-|[<-|[<-|[]]]]];
    try reflexivity;
    (vm_compute in Hdir; discriminate Hdir)
    || (vm_compute in Hext; discriminate Hext).
Qed.

End TurnFacts.



(** ** Two runs in a row *)

Module RunFacts.

Lemma minifyCss_ok sv input filePath isRtl w r :
  transform sv filePath (prepended sv w ++ cleanedInput input) = Ok r ->
  exists res w', minifyCss sv input filePath isRtl w = (Ok res, w').
Proof.
  intros Ht. unfold minifyCss.
  unfold tryCatch at 1. unfold bind at 1. rewrite CssFacts.readDefinitions.
  unfold bind at 1, liftResult. rewrite Ht. unfold bind at 1.
  destruct (removePrependedDefinitions_outcomes filePath (prepended sv w)
              (cleanedInput input) (code r)
              (appended (definitionsLines sv w) w))
    as (out & w' & -> & _).
  by eexists _, _.
Qed.

Lemma writeTextFile_clock sv p data w w' :
  writeTextFile sv p data w = (Ok tt, w') -> clock w' = (clock w + 1)%Z.
Proof.
  unfold writeTextFile. destruct (writeFails sv w p); [done|].
  by intros [= <-].
Qed.

Lemma when_write_clock sv (b : bool) p data w w' :
  when b (writeTextFile sv p data) w = (Ok tt, w') ->
  (clock w <= clock w')%Z.
Proof.
  destruct b; cbn [when].
  - intros H. apply writeTextFile_clock in H. lia.
  - intros [= <-]. lia.
Qed.

Lemma writeLtr_clock sv P input w r w' :
  writeLtr sv P input w = (Ok r, w') -> (clock w <= clock w')%Z.
Proof.
  unfold writeLtr. intros H.
  apply bind_inv_ok in H as (r0 & w1 & Hm & H).
  apply bind_inv_ok in H as ([] & w2 & Hw & H).
  apply bind_inv_ok in H as ([] & w3 & Hmap & H).
  injection H as <- <-.
  destruct (OutcomeFacts.logsOnly_files_of (minifyCss sv input P false) w
              (StageFacts.logsOnly_minifyCss sv input P false)) as [_ Hc].
  rewrite Hm in Hc. cbn [snd] in Hc.
  apply writeTextFile_clock in Hw. apply when_write_clock in Hmap. lia.
Qed.

(** The RTL stage, when the minifier takes the RTL input and the RTL
    writes succeed: it leaves a file at the RTL destination, written at
    the clock's reading when the stage began. *)
Lemma writeRtl_file sv P input w :
  (forall text, exists r, transform sv P text = Ok r) ->
  (forall w' p, rtlPaths P p -> writeFails sv w' p = None) ->
  exists w' data,
    writeRtl sv P input w = (Ok tt, w')
    /\ files w' !! getDestPath P true = Some (mkFile data (Some (clock w))).
Proof.
  intros Ht Hw. unfold writeRtl, when.
  change (RTL_CONFIG.enabled && RTL_CONFIG.generateSeparateFiles) with true.
  cbv iota. unfold tryCatch at 1. unfold bind at 1.
  assert (Hgen : exists res w1,
             generateRtlCss sv input P w = (Ok res, w1)
             /\ files w1 = files w /\ clock w1 = clock w).
  { destruct (Ht (prepended sv w
                  ++ cleanedInput (rtlRules ++ rtlSubstitute input)))
      as [r Hr].
    destruct (minifyCss_ok sv (rtlRules ++ rtlSubstitute input) P true w r Hr)
      as (res & w1 & Hm).
    exists res, w1. unfold generateRtlCss, tryCatch. cbv zeta. rewrite Hm.
    split; [done|].
    destruct (OutcomeFacts.logsOnly_files_of
                (minifyCss sv (rtlRules ++ rtlSubstitute input) P true) w
                (StageFacts.logsOnly_minifyCss sv _ P true)) as [Hf Hc].
    rewrite Hm in Hf, Hc. done. }
  destruct Hgen as (res & w1 & -> & Hf1 & Hc1).
  unfold bind at 1.
  rewrite JsFacts.writeTextFile_written by (apply Hw; by left).
  unfold bind at 1.
  destruct (truthy (map res)).
  - rewrite JsFacts.writeTextFile_written by (apply Hw; by right).
    unfold bind at 1.
    change (log ?x ?w0) with (Ok tt, appended [x] w0). cbv iota beta.
    eexists _, _. split; [reflexivity|].
    unfold appended, withConsole, written. cbn [files].
    rewrite lookup_insert_ne, lookup_insert_eq, Hc1; [done|].
    intros E. by apply (WriteFacts.not_own_map (getDestPath P true)).
  - unfold ret at 1. unfold bind at 1.
    change (log ?x ?w0) with (Ok tt, appended [x] w0). cbv iota beta.
    eexists _, _. split; [reflexivity|].
    unfold ret, appended, withConsole, written. cbn [files snd].
    by rewrite lookup_insert_eq, Hc1.
Qed.

(** What a style sheet's run leaves at the RTL destination. *)
Lemma processBody_rtl_file sv P w w' :
  isCss P ->
  (forall text, exists r, transform sv P text = Ok r) ->
  (forall w0 p, rtlPaths P p -> writeFails sv w0 p = None) ->
  processBody sv P w = (Ok (VBool true), w') ->
  exists data t,
    files w' !! getDestPath P true = Some (mkFile data (Some t))
    /\ (clock w <= t)%Z.
Proof.
  intros Hcss Ht Hw H.
  assert (Hs : supported P = true).
  { unfold supported, Text.eqb. unfold isCss in Hcss.
    by rewrite (bool_decide_eq_true_2 _ Hcss). }
  rewrite OutcomeFacts.processBody_supported_eq in H by done.
  apply bind_inv_ok in H as (input & w1 & Hr & H).
  apply bind_inv_ok in H as ([] & w2 & He & H).
  apply bind_inv_ok in H as ([] & w3 & Hp & H).
  injection H as <-.
  assert (Hc : clock w2 = clock w).
  { destruct (OutcomeFacts.logsOnly_files_of (readTextFile P) w
                (StageFacts.logsOnly_readTextFile P)) as [_ H1].
    rewrite Hr in H1. cbn [snd] in H1.
    destruct (OutcomeFacts.logsOnly_files_of (ensureDirSync sv _) w1
                (StageFacts.logsOnly_ensureDirSync sv
                   (Path.dirname (getDestPath P false)))) as [_ H2].
    rewrite He in H2. cbn [snd] in H2. congruence. }
  unfold Text.eqb in Hp. unfold isCss in Hcss.
  rewrite (bool_decide_eq_true_2 _ Hcss) in Hp.
  unfold processCss in Hp.
  apply bind_inv_ok in Hp as (r & wa & Hl & Hp).
  apply bind_inv_ok in Hp as ([] & wb & Hrtl & Hp).
  apply bind_inv_ok in Hp as ([] & wc & Hlog & Hp).
  destruct (writeRtl_file sv P input wa Ht Hw) as (wb' & data & Hrtl' & Hfile).
  rewrite Hrtl in Hrtl'. injection Hrtl' as <-.
  exists data, (clock wa). split.
  - unfold log in Hlog. injection Hlog as <-.
    unfold when in Hp. destruct (truthy _); by injection Hp as <-.
  - apply writeLtr_clock in Hl. lia.
Qed.

End RunFacts.



